(** * The debate coordination protocol: a shallow embedding

  The development follows the TypeScript sources of the repository:

  - [signMessage] and [createMessageContent] (canonical signer),
  - [SharedWebSocket] (resilient channel with reconnect back-off),
  - [PVPVAIIntegration] and [AgentClient] (participant client, message
    context, effect registry, duplicate suppression, construction, rate
    limit and generation),
  - [DebateOrchestrator] (rate limiting, retry with back-off, turn loop,
    start-up and shutdown).

  Part I holds the model, Part II the properties. Values that come from
  outside the repository (the wallet of the signing library, the regular
  expression engine, the text generator, the HTTP backend, the clock) are
  parameters or explicit inputs of the functions that consume them. *)

From stdpp Require Import base tactics option list gmap strings pretty sorting.

Open Scope string_scope.
Open Scope Z_scope.
Open Scope list_scope.

Set Warnings "-register-all".

(* ===================================================================== *)
(** * Part I: the model *)
(* ===================================================================== *)

(** ** JSON values as the code sees them *)

Module Json.

(** A parsed JSON value. An object keeps its properties in the order the
    fields were assembled in, which is the order the language enumerates
    them in as long as no key looks like an array index (the payloads of
    the protocol have none); numbers are the integers the protocol
    exchanges (identifiers, millisecond clocks). *)
Inductive json : Type :=
| JNull
| JBool (b : bool)
| JNum (n : Z)
| JStr (s : string)
| JArr (xs : list json)
| JObj (fields : list (string * json)).

Abbreviation props := (list (string * json)).

(** [o[k]]: the first binding of [k], [None] for [undefined]. *)
Fixpoint obj_get (k : string) (fs : props) : option json :=
  match fs with
  | [] => None
  | (k', v) :: rest => if decide (k' = k) then Some v else obj_get k rest
  end.

(** [o[k] = v]: an existing property keeps its position, a new one is
    appended. *)
Fixpoint obj_set (k : string) (v : json) (fs : props) : props :=
  match fs with
  | [] => [(k, v)]
  | (k', v') :: rest =>
      if decide (k' = k) then (k, v) :: rest else (k', v') :: obj_set k v rest
  end.

(** JavaScript truthiness of a value; a missing property is falsy. *)
Definition truthy (v : json) : bool :=
  match v with
  | JNull => false
  | JBool b => b
  | JNum n => negb (n =? 0)
  | JStr s => negb (String.eqb s EmptyString)
  | JArr _ | JObj _ => true
  end.

Definition truthy_opt (o : option json) : bool := from_option truthy false o.

(** Optional chaining [v?.k]. *)
Definition field (k : string) (o : option json) : option json :=
  match o with
  | Some (JObj fs) => obj_get k fs
  | _ => None
  end.

Definition dquote : string := String (Ascii.ascii_of_N 34) EmptyString.
Definition backslash : string := String (Ascii.ascii_of_N 92) EmptyString.

Definition hex_digit (n : N) : Ascii.ascii :=
  if (n <? 10)%N then Ascii.ascii_of_N (48 + n) else Ascii.ascii_of_N (87 + n).

(** The escapes [JSON.stringify] applies inside a string literal. *)
Definition escape_char (c : Ascii.ascii) : string :=
  let n := Ascii.N_of_ascii c in
  if (n =? 34)%N then backslash +:+ dquote
  else if (n =? 92)%N then backslash +:+ backslash
  else if (n =? 8)%N then backslash +:+ "b"
  else if (n =? 9)%N then backslash +:+ "t"
  else if (n =? 10)%N then backslash +:+ "n"
  else if (n =? 12)%N then backslash +:+ "f"
  else if (n =? 13)%N then backslash +:+ "r"
  else if (n <? 32)%N then
    backslash +:+ "u00" +:+
    String (hex_digit (n / 16)) (String (hex_digit (n mod 16)) EmptyString)
  else String c EmptyString.

Fixpoint escape (s : string) : string :=
  match s with
  | EmptyString => EmptyString
  | String c rest => escape_char c +:+ escape rest
  end.

Definition quote (s : string) : string := dquote +:+ escape s +:+ dquote.

(** [JSON.stringify] without indentation: properties in enumeration
    order, no white space. *)
Fixpoint stringify (v : json) : string :=
  match v with
  | JNull => "null"
  | JBool true => "true"
  | JBool false => "false"
  | JNum n => pretty n
  | JStr s => quote s
  | JArr xs => "[" +:+ String.concat "," (map stringify xs) +:+ "]"
  | JObj fs =>
      "{" +:+
      String.concat ","
        (map (λ kv : string * json,
                let (k, x) := kv in quote k +:+ ":" +:+ stringify x) fs)
      +:+ "}"
  end.

(** String conversion of a template literal, [None] being [undefined]. *)
Fixpoint to_template (v : json) : string :=
  match v with
  | JNull => "null"
  | JBool true => "true"
  | JBool false => "false"
  | JNum n => pretty n
  | JStr s => s
  | JArr xs =>
      String.concat ","
        (map (λ x, match x with JNull => EmptyString | _ => to_template x end) xs)
  | JObj _ => "[object Object]"
  end.

Definition template (o : option json) : string :=
  from_option to_template "undefined" o.

End Json.
Export Json.

(** ** Canonical ordering of keys *)

Module Canonical.

(** Lexicographic comparison of two properties by key. *)
Definition key_le (a b : string * json) : Prop := String.leb a.1 b.1 = true.

#[global] Instance key_le_dec a b : Decision (key_le a b).
Proof. unfold key_le. apply _. Defined.

(** One property with its value put in canonical order. *)
Definition sorted_field_of (f : json → json) (kv : string * json)
    : string * json :=
  let (k, x) := kv in (k, f x).

(** Modelled from the spec: [sortObjectKeys] lives in [sortObjectKeys.ts],
    which is not among the sources; the specification says it
    "recursively sorts all mapping keys (lexicographic) to produce a
    deterministic serialization independent of how fields were
    assembled". Arrays keep their order and are traversed, scalars are
    returned as they are. *)
Fixpoint sortObjectKeys (v : json) : json :=
  match v with
  | JArr xs => JArr (map sortObjectKeys xs)
  | JObj fs => JObj (merge_sort key_le (map (sorted_field_of sortObjectKeys) fs))
  | _ => v
  end.

(** The canonical byte sequence: [JSON.stringify(sortObjectKeys(v))]. *)
Definition canonicalize (v : json) : string := stringify (sortObjectKeys v).

(** Every object of the value binds each of its keys once, as the objects
    of the language do. *)
Inductive distinct_keys : json → Prop :=
| distinct_null : distinct_keys JNull
| distinct_bool b : distinct_keys (JBool b)
| distinct_num n : distinct_keys (JNum n)
| distinct_str s : distinct_keys (JStr s)
| distinct_arr xs : Forall distinct_keys xs → distinct_keys (JArr xs)
| distinct_obj fs :
    NoDup fs.*1 → Forall (λ kv : string * json, distinct_keys kv.2) fs →
    distinct_keys (JObj fs).

(** Two values built from the same key/value sets: scalars are equal,
    arrays agree position by position, and two objects bind the same keys,
    each key once, to values that are again the same up to the order in
    which their fields were assembled. *)
Inductive same_fields : json → json → Prop :=
| same_null : same_fields JNull JNull
| same_bool b : same_fields (JBool b) (JBool b)
| same_num n : same_fields (JNum n) (JNum n)
| same_str s : same_fields (JStr s) (JStr s)
| same_arr xs ys :
    Forall2 same_fields xs ys → same_fields (JArr xs) (JArr ys)
| same_obj fs gs :
    NoDup fs.*1 → NoDup gs.*1 →
    (∀ k, option_Forall2 same_fields (obj_get k fs) (obj_get k gs)) →
    same_fields (JObj fs) (JObj gs).

End Canonical.
Export Canonical.

(** ** What a call gives back *)

(** A value, or an exception carrying its message. *)
Inductive outcome (A : Type) : Type :=
| Returned (a : A)
| Thrown (message : string).
Arguments Returned {A} a.
Arguments Thrown {A} message.

(** The message types of the wire protocol ([WsMessageTypes]). The strings
    behind the enumeration are declared in [types/ws.ts]; envelopes and
    inbound frames carry the tag itself. *)
Inductive WsMessageType : Type :=
| HEARTBEAT
| SUBSCRIBE_ROOM
| AGENT_MESSAGE
| GM_MESSAGE
| OBSERVATION
| SYSTEM_NOTIFICATION.

#[global] Instance WsMessageType_eq_dec : EqDecision WsMessageType.
Proof. solve_decision. Defined.

(** One wire-level message unit as the clients assemble it. *)
Record envelope : Type := Envelope {
  messageType : WsMessageType;
  content : json;
  signature : option string;
  sender : option string;
  timestamp : option Z }.

(** What the handlers read of a parsed inbound frame: [message.messageType]
    ([None] when it is none of the known tags) and [message.content]
    ([None] when the property is missing). A frame that [JSON.parse]
    rejects is [None : option inbound]. *)
Record inbound : Type := Inbound {
  in_type : option WsMessageType;
  in_content : option json }.

(** ** signMessage.ts *)

Module SignMessage.

(** Objects live in a store and are passed by reference, so that a write to
    [content.timestamp] is seen by whoever holds the same reference. *)
Abbreviation ref := nat.
Abbreviation store := (gmap nat props).

Section signer.

(** [new Wallet(privateKey).signMessage(messageString)] of the signing
    library: the signature, or the error the library throws (for instance
    on a private key it rejects). *)
Variable Wallet_signMessage : string → string → outcome string.

(** The [catch] of [signMessage]: whatever was thrown is thrown again
    under the prefix of the source. *)
Definition rethrown (o : outcome string) : outcome string :=
  match o with
  | Returned sig => Returned sig
  | Thrown m => Thrown ("Failed to sign message: " +:+ m)
  end.

(** The properties of [content] once the guard on [content.timestamp] has
    run at clock reading [now]. *)
Definition stamped (now : Z) (fs : props) : props :=
  if truthy_opt (obj_get "timestamp" fs) then fs
  else obj_set "timestamp" (JNum now) fs.

(** The string handed to the wallet. *)
Definition messageString (now : Z) (fs : props) : string :=
  stringify (sortObjectKeys (JObj (stamped now fs))).

(** [signMessage(content, privateKey)] called at clock reading [now]; a
    dangling reference stands for a [content] that is [null] or
    [undefined]. Every failure inside the [try] is rethrown with the
    prefix the source adds. *)
Definition signMessage (now : Z) (st : store) (content : ref)
    (privateKey : string) : store * outcome string :=
  match st !! content with
  | None =>
      (st, Thrown ("Failed to sign message: " +:+
                   "Cannot read properties of undefined (reading 'timestamp')"))
  | Some fs =>
      let st' :=
        if truthy_opt (obj_get "timestamp" fs) then st
        else <[content := obj_set "timestamp" (JNum now) fs]> st in
      (st', rethrown (Wallet_signMessage privateKey (messageString now fs)))
  end.

(** Signing an object literal nobody else holds: the signature alone. *)
Definition sign_fresh (now : Z) (fs : props) (privateKey : string)
    : outcome string :=
  (signMessage now {[ 0%nat := fs ]} 0%nat privateKey).2.

End signer.

(** [createMessageContent]: the literals are assembled in the order the
    source writes them, [timestamp] first; [now] is [Date.now()]. *)
Definition createMessageContent_agent (now roomId roundId agentId : Z)
    (text : string) : props :=
  [("timestamp", JNum now); ("roomId", JNum roomId); ("roundId", JNum roundId);
   ("agentId", JNum agentId); ("text", JStr text)].

Definition createMessageContent_gm (now roomId roundId gmId : Z)
    (message : string) (targets : list Z) (ignoreErrors : option bool) : props :=
  [("timestamp", JNum now); ("roomId", JNum roomId); ("roundId", JNum roundId);
   ("gmId", JNum gmId); ("message", JStr message);
   ("targets", JArr (map JNum targets));
   ("ignoreErrors", JBool (default false ignoreErrors))].

Definition createMessageContent_auth (now : Z) (walletAddress : string)
    (agentId roomId : Z) : props :=
  [("timestamp", JNum now); ("walletAddress", JStr walletAddress);
   ("agentId", JNum agentId); ("roomId", JNum roomId)].

Definition createMessageContent_subscribe (now roomId : Z) : props :=
  [("timestamp", JNum now); ("roomId", JNum roomId)].

Definition createMessageContent_heartbeat (now : Z) : props :=
  [("timestamp", JNum now)].

End SignMessage.

(** ** clients/shared-websocket.ts *)

Module SharedWebSocket.

(** [WebSocket.readyState]. *)
Inductive readyState : Type := CONNECTING | OPEN | CLOSING | CLOSED.

#[global] Instance readyState_eq_dec : EqDecision readyState.
Proof. solve_decision. Defined.

(** [WebSocketConfig] without its handlers: the owner of the channel reads
    the handler calls off the effects of a step. *)
Record WebSocketConfig : Type := {
  endpoint : string;
  roomId : Z;
  auth_walletAddress : string;
  auth_agentId : Z;
  auth_timestamp : option Z;
  auth_signature : option string }.

(** The fields of the class; a timer field tells whether the timer is
    armed, [reconnectTimer] also the delay it was armed with. *)
Record t : Type := {
  config : WebSocketConfig;
  ws : option readyState;
  heartbeatInterval : bool;
  reconnectAttempts : nat;
  isActive : bool;
  lastHeartbeatResponse : Z;
  reconnectTimer : option Z;
  reconnectAttempt : nat;
  connectTimeout : bool }.

Definition HEARTBEAT_INTERVAL : Z := 30000.
Definition HEARTBEAT_TIMEOUT : Z := 30000.
Definition MAX_RECONNECT_DELAY : Z := 30000.

(** What a handler of the channel does to the outside. *)
Inductive effect : Type :=
| Write (e : envelope)
| Schedule (delay : Z)
| OnMessage (data : option inbound)
| OnError
| OnClose.

(** What the socket and the timers of a channel can report. *)
Inductive event : Type :=
| SocketOpen
| SocketMessage (data : option inbound)
| SocketError
| SocketClose
| ReconnectTimerFired
| HeartbeatTick
| ConnectTimeoutFired.

Definition create (now : Z) (c : WebSocketConfig) : t :=
  {| config := c; ws := None; heartbeatInterval := false;
     reconnectAttempts := 0; isActive := true; lastHeartbeatResponse := now;
     reconnectTimer := None; reconnectAttempt := 0; connectTimeout := false |}.

(** [connect()]: the previous socket loses its listeners and is dropped,
    a pending reconnect is cancelled, a new socket starts connecting and
    its five-second timeout is armed. *)
Definition connect (s : t) : t :=
  {| config := config s; ws := Some CONNECTING;
     heartbeatInterval := heartbeatInterval s;
     reconnectAttempts := reconnectAttempts s; isActive := isActive s;
     lastHeartbeatResponse := lastHeartbeatResponse s;
     reconnectTimer := None; reconnectAttempt := reconnectAttempt s;
     connectTimeout := true |}.

(** [subscribeToRoom()], run with the socket in state [rs]. *)
Definition subscribeToRoom (now : Z) (s : t) (rs : readyState) : list effect :=
  if decide (rs = OPEN) then
    [Write (Envelope SUBSCRIBE_ROOM
              (sortObjectKeys
                 (JObj [("roomId", JNum (roomId (config s)));
                        ("timestamp", JNum now)]))
              None None None)]
  else [].

(** The handler of ['open']: the attempt counter is reset first. *)
Definition on_open (now : Z) (s : t) : t * list effect :=
  ({| config := config s; ws := Some OPEN; heartbeatInterval := true;
      reconnectAttempts := 0; isActive := isActive s;
      lastHeartbeatResponse := lastHeartbeatResponse s;
      reconnectTimer := reconnectTimer s; reconnectAttempt := 0;
      connectTimeout := false |},
   subscribeToRoom now s OPEN).

(** The delay [handleDisconnect] computes:
    [Math.min(1000 * Math.pow(2, reconnectAttempt), MAX_RECONNECT_DELAY)]. *)
Definition reconnect_delay (attempt : nat) : Z :=
  Z.min (1000 * 2 ^ Z.of_nat attempt) MAX_RECONNECT_DELAY.

(** [handleDisconnect()], the handler of ['close']. *)
Definition handleDisconnect (s : t) : t * list effect :=
  if isActive s then
    let delay := reconnect_delay (reconnectAttempt s) in
    ({| config := config s; ws := Some CLOSED; heartbeatInterval := false;
        reconnectAttempts := reconnectAttempts s; isActive := isActive s;
        lastHeartbeatResponse := lastHeartbeatResponse s;
        reconnectTimer := Some delay; reconnectAttempt := reconnectAttempt s;
        connectTimeout := connectTimeout s |},
     [Schedule delay; OnClose])
  else
    ({| config := config s; ws := Some CLOSED; heartbeatInterval := false;
        reconnectAttempts := reconnectAttempts s; isActive := isActive s;
        lastHeartbeatResponse := lastHeartbeatResponse s;
        reconnectTimer := reconnectTimer s;
        reconnectAttempt := reconnectAttempt s;
        connectTimeout := connectTimeout s |},
     []).

(** The callback of the reconnect timer: count the attempt, connect. *)
Definition reconnect (s : t) : t :=
  connect
    {| config := config s; ws := ws s; heartbeatInterval := heartbeatInterval s;
       reconnectAttempts := reconnectAttempts s; isActive := isActive s;
       lastHeartbeatResponse := lastHeartbeatResponse s;
       reconnectTimer := reconnectTimer s;
       reconnectAttempt := S (reconnectAttempt s);
       connectTimeout := connectTimeout s |}.

Definition with_ws (s : t) (w : option readyState) : t :=
  {| config := config s; ws := w; heartbeatInterval := heartbeatInterval s;
     reconnectAttempts := reconnectAttempts s; isActive := isActive s;
     lastHeartbeatResponse := lastHeartbeatResponse s;
     reconnectTimer := reconnectTimer s; reconnectAttempt := reconnectAttempt s;
     connectTimeout := connectTimeout s |}.

(** [handleHeartbeat()]. *)
Definition handleHeartbeat (now : Z) (s : t) : t :=
  {| config := config s; ws := ws s; heartbeatInterval := heartbeatInterval s;
     reconnectAttempts := reconnectAttempts s; isActive := isActive s;
     lastHeartbeatResponse := now;
     reconnectTimer := reconnectTimer s; reconnectAttempt := reconnectAttempt s;
     connectTimeout := connectTimeout s |}.

(** [handleMessage(data)]: a frame that does not parse is logged and
    dropped, a heartbeat stays inside the channel, anything else goes to
    the owner's [onMessage]. *)
Definition handleMessage (now : Z) (s : t) (data : option inbound)
    : t * list effect :=
  match data with
  | None => (s, [])
  | Some message =>
      if decide (in_type message = Some HEARTBEAT)
      then (handleHeartbeat now s, [])
      else (s, [OnMessage data])
  end.

(** The callback [setupHeartbeat()] installs. *)
Definition heartbeat_tick (now : Z) (s : t) : t * list effect :=
  if decide (ws s = Some OPEN) then
    if decide (HEARTBEAT_TIMEOUT < now - lastHeartbeatResponse s)
    then (with_ws s (Some CLOSING), [])
    else (s, [Write (Envelope HEARTBEAT (JObj []) None None None)])
  else (s, []).

(** [close()]. *)
Definition close (s : t) : t :=
  {| config := config s;
     ws := match ws s with
           | Some OPEN | Some CONNECTING => Some CLOSING
           | w => w
           end;
     heartbeatInterval := false;
     reconnectAttempts := reconnectAttempts s; isActive := false;
     lastHeartbeatResponse := lastHeartbeatResponse s;
     reconnectTimer := reconnectTimer s; reconnectAttempt := reconnectAttempt s;
     connectTimeout := connectTimeout s |}.

(** [send(message)]: written only when the socket is open, dropped
    otherwise; the keys of the message are sorted on the way out. *)
Definition send (s : t) (e : envelope) : list effect :=
  if decide (ws s = Some OPEN)
  then [Write (Envelope (messageType e) (sortObjectKeys (content e))
                 (signature e) (sender e) (timestamp e))]
  else [].

Definition isConnected (s : t) : bool := bool_decide (ws s = Some OPEN).

(** One event of the socket or of a timer. An event the state cannot
    produce (an ['open'] without a connecting socket, a timer that is not
    armed) leaves the channel as it is. *)
Definition step (now : Z) (s : t) (ev : event) : t * list effect :=
  match ev with
  | SocketOpen =>
      if decide (ws s = Some CONNECTING) then on_open now s else (s, [])
  | SocketMessage data =>
      if decide (ws s = Some OPEN) then handleMessage now s data
      else (s, [])
  | SocketError =>
      match ws s with
      | Some CONNECTING | Some OPEN => (with_ws s (Some CLOSING), [OnError])
      | _ => (s, [])
      end
  | SocketClose =>
      match ws s with
      | Some CONNECTING | Some OPEN | Some CLOSING => handleDisconnect s
      | _ => (s, [])
      end
  | ReconnectTimerFired =>
      match reconnectTimer s with
      | Some _ => (reconnect s, [])
      | None => (s, [])
      end
  | HeartbeatTick =>
      if heartbeatInterval s then heartbeat_tick now s else (s, [])
  | ConnectTimeoutFired =>
      if connectTimeout s then
        let s' :=
          {| config := config s;
             ws := if decide (ws s = Some OPEN) then ws s
                   else match ws s with
                        | Some _ => Some CLOSING
                        | None => None
                        end;
             heartbeatInterval := heartbeatInterval s;
             reconnectAttempts := reconnectAttempts s; isActive := isActive s;
             lastHeartbeatResponse := lastHeartbeatResponse s;
             reconnectTimer := reconnectTimer s;
             reconnectAttempt := reconnectAttempt s;
             connectTimeout := false |} in
        (s', [])
      else (s, [])
  end.

(** A run of events, with the effects in the order they happened. *)
Fixpoint run (now : Z) (s : t) (evs : list event) : t * list effect :=
  match evs with
  | [] => (s, [])
  | ev :: rest =>
      let (s1, out1) := step now s ev in
      let (s2, out2) := run now s1 rest in
      (s2, out1 ++ out2)
  end.

(** A channel that never had a socket: nothing is open, no timer runs. *)
Definition idle (s : t) : Prop :=
  ws s = None ∧ reconnectTimer s = None ∧ heartbeatInterval s = false ∧
  connectTimeout s = false.

(** The connection is down after [n] counted attempts and the timer of
    the next attempt is armed. *)
Definition down (n : nat) (s : t) : Prop :=
  isActive s = true ∧ ws s = Some CLOSED ∧ is_Some (reconnectTimer s) ∧
  reconnectAttempt s = n.

(** The delays of the reconnect timers armed during a run. *)
Definition scheduled (out : list effect) : list Z :=
  omap (λ e, match e with Schedule d => Some d | _ => None end) out.

(** How a reconnect attempt fails: the socket reports an error, or the
    connection timeout closes a socket that never opened. *)
Inductive failure : Type := Refused | TimedOut.

(** The events of one failed attempt: the timer fires, the attempt fails,
    the socket closes. *)
Definition failed_attempt (f : failure) : list event :=
  match f with
  | Refused => [ReconnectTimerFired; SocketError; SocketClose]
  | TimedOut => [ReconnectTimerFired; ConnectTimeoutFired; SocketClose]
  end.

(** A connection drops and every attempt of [fs] to restore it fails. *)
Definition outage (fs : list failure) : list event :=
  SocketClose :: concat (map failed_attempt fs).

End SharedWebSocket.

(** ** clients/PVPVAIIntegration.ts *)

Module PVPVAIIntegration.

(** A [DebateMemory], by the fields the prompts read. *)
Record DebateMemory : Type := {
  agentId : Z;
  timestamp : Z;
  text : string }.

(** A [PvPAction], by the fields [updatePvPStatus] reads, with the rest of
    the action as [params]. *)
Record PvPAction : Type := {
  actionType : string;
  targetId : string;
  params : json }.

Record t : Type := {
  messageContext : list DebateMemory;
  activePvPEffects : gmap string PvPAction;
  lastApiCall : Z;
  processedMessageIds : gset string }.

Definition MAX_CONTEXT_SIZE : nat := 8.
Definition MIN_API_INTERVAL : Z := 15000.

Definition create : t :=
  {| messageContext := []; activePvPEffects := ∅; lastApiCall := 0;
     processedMessageIds := ∅ |}.

(** [updateMessageContext(memory)]: [shift()] when the bound is reached,
    then [push(memory)]. *)
Definition updateMessageContext (s : t) (memory : DebateMemory) : t :=
  {| messageContext :=
       (if decide (MAX_CONTEXT_SIZE ≤ length (messageContext s))%nat
        then tail (messageContext s) else messageContext s) ++ [memory];
     activePvPEffects := activePvPEffects s;
     lastApiCall := lastApiCall s;
     processedMessageIds := processedMessageIds s |}.

(** [updatePvPStatus(action)]: the registry is keyed by [action.targetId];
    an action with a truthy [actionType] is stored, any other removes the
    entry of its target. *)
Definition updatePvPStatus (s : t) (action : PvPAction) : t :=
  {| messageContext := messageContext s;
     activePvPEffects :=
       if truthy (JStr (actionType action))
       then <[targetId action := action]> (activePvPEffects s)
       else delete (targetId action) (activePvPEffects s);
     lastApiCall := lastApiCall s;
     processedMessageIds := processedMessageIds s |}.

End PVPVAIIntegration.

(** ** clients/AgentClient.ts *)

Module AgentClient.
Import SignMessage.

(** A [MessageHistoryEntry] as [processSystemMessage] builds it. *)
Record MessageHistoryEntry : Type := {
  timestamp : Z;
  agentId : Z;
  text : string;
  agentName : string;
  role : string }.

(** The [action] of a status update, by the fields the client reads:
    [type] keys the registry, the other three are what
    [applyPoisonEffect] destructures. *)
Record PvPEffect : Type := {
  type : string;
  find : string;
  replace : string;
  caseSensitive : bool }.

(** The [onClose] handler a channel was built with: the constructor's
    handler logs, the one of [setRoomAndRound] arms a five-second timer
    that reconnects. *)
Inductive onClose : Type := LogDisconnected | ReconnectLater.

(** What [axios.post] meets: a response with its status, or no response. *)
Inductive http_answer : Type := Responded (status : Z) | NoResponse.

(** Everything the client puts on the wire: a frame written to the socket
    of one of its channels, or an envelope posted to the backend together
    with what came back. *)
Inductive emission : Type :=
| Frame (channel : nat) (e : envelope)
| Post (e : envelope) (a : http_answer).

(** How far an asynchronous call got: it returned, it threw, or the
    answers known so far do not let it finish. *)
Inductive completion : Type := Done | Raised (message : string) | Pending.

(** The body of [GET /rooms/{roomId}/rounds/active]. *)
Record RoundResponse : Type := {
  success : bool;
  data_id : option Z;
  error : option string }.

(** What the outside answers while one handler runs: the clock, what
    [integration.processMessage] resolves to when it is consulted, the
    answers of the backend to successive posts, the verdict of the schema
    of [types/schemas.ts] on the message at hand, and the answer to the
    round lookup. *)
Record world : Type := {
  now : Z;
  reply : option string;
  answers : list http_answer;
  validated : bool;
  round : outcome RoundResponse }.

(** The [readonly] fields. *)
Record identity : Type := {
  walletAddress : string;
  agentNumericId : Z;
  privateKey : string;
  endpoint : string }.

(** The mutable fields. [channels] holds every [SharedWebSocket] the
    client has built, oldest first: [wsClient] is the last one, the
    earlier ones are closed but their timers still run. [reconnects]
    counts the armed timers of the [onClose] handler. [generated] and
    [outbox] record the texts handed to the generator and the emissions,
    oldest first. *)
Record t : Type := {
  ident : identity;
  roomId : option Z;
  roundId : option Z;
  channels : list (SharedWebSocket.t * onClose);
  isActive : bool;
  reconnects : nat;
  activePvPEffects : gmap string PvPEffect;
  messageContext : list MessageHistoryEntry;
  processedMessages : gset string;
  generated : list json;
  outbox : list emission }.

Definition with_roomId (s : t) (x : option Z) : t :=
  {| ident := ident s;
     roomId := x;
     roundId := roundId s;
     channels := channels s;
     isActive := isActive s;
     reconnects := reconnects s;
     activePvPEffects := activePvPEffects s;
     messageContext := messageContext s;
     processedMessages := processedMessages s;
     generated := generated s;
     outbox := outbox s |}.

Definition with_roundId (s : t) (x : option Z) : t :=
  {| ident := ident s;
     roomId := roomId s;
     roundId := x;
     channels := channels s;
     isActive := isActive s;
     reconnects := reconnects s;
     activePvPEffects := activePvPEffects s;
     messageContext := messageContext s;
     processedMessages := processedMessages s;
     generated := generated s;
     outbox := outbox s |}.

Definition with_channels (s : t) (x : list (SharedWebSocket.t * onClose)) : t :=
  {| ident := ident s;
     roomId := roomId s;
     roundId := roundId s;
     channels := x;
     isActive := isActive s;
     reconnects := reconnects s;
     activePvPEffects := activePvPEffects s;
     messageContext := messageContext s;
     processedMessages := processedMessages s;
     generated := generated s;
     outbox := outbox s |}.

Definition with_isActive (s : t) (x : bool) : t :=
  {| ident := ident s;
     roomId := roomId s;
     roundId := roundId s;
     channels := channels s;
     isActive := x;
     reconnects := reconnects s;
     activePvPEffects := activePvPEffects s;
     messageContext := messageContext s;
     processedMessages := processedMessages s;
     generated := generated s;
     outbox := outbox s |}.

Definition with_reconnects (s : t) (x : nat) : t :=
  {| ident := ident s;
     roomId := roomId s;
     roundId := roundId s;
     channels := channels s;
     isActive := isActive s;
     reconnects := x;
     activePvPEffects := activePvPEffects s;
     messageContext := messageContext s;
     processedMessages := processedMessages s;
     generated := generated s;
     outbox := outbox s |}.

Definition with_activePvPEffects (s : t) (x : gmap string PvPEffect) : t :=
  {| ident := ident s;
     roomId := roomId s;
     roundId := roundId s;
     channels := channels s;
     isActive := isActive s;
     reconnects := reconnects s;
     activePvPEffects := x;
     messageContext := messageContext s;
     processedMessages := processedMessages s;
     generated := generated s;
     outbox := outbox s |}.

Definition with_messageContext (s : t) (x : list MessageHistoryEntry) : t :=
  {| ident := ident s;
     roomId := roomId s;
     roundId := roundId s;
     channels := channels s;
     isActive := isActive s;
     reconnects := reconnects s;
     activePvPEffects := activePvPEffects s;
     messageContext := x;
     processedMessages := processedMessages s;
     generated := generated s;
     outbox := outbox s |}.

Definition with_processedMessages (s : t) (x : gset string) : t :=
  {| ident := ident s;
     roomId := roomId s;
     roundId := roundId s;
     channels := channels s;
     isActive := isActive s;
     reconnects := reconnects s;
     activePvPEffects := activePvPEffects s;
     messageContext := messageContext s;
     processedMessages := x;
     generated := generated s;
     outbox := outbox s |}.

Definition with_generated (s : t) (x : list json) : t :=
  {| ident := ident s;
     roomId := roomId s;
     roundId := roundId s;
     channels := channels s;
     isActive := isActive s;
     reconnects := reconnects s;
     activePvPEffects := activePvPEffects s;
     messageContext := messageContext s;
     processedMessages := processedMessages s;
     generated := x;
     outbox := outbox s |}.

Definition with_outbox (s : t) (x : list emission) : t :=
  {| ident := ident s;
     roomId := roomId s;
     roundId := roundId s;
     channels := channels s;
     isActive := isActive s;
     reconnects := reconnects s;
     activePvPEffects := activePvPEffects s;
     messageContext := messageContext s;
     processedMessages := processedMessages s;
     generated := generated s;
     outbox := x |}.

Definition MAX_CONTEXT_SIZE : nat := 8.

(** The constructor: identity stored, one channel built (never connected
    here) with the logging [onClose], every collection empty. *)
Definition create (now : Z) (i : identity) : t :=
  {| ident := i; roomId := None; roundId := None;
     channels :=
       [(SharedWebSocket.create now
           {| SharedWebSocket.endpoint := endpoint i;
              SharedWebSocket.roomId := 0;
              SharedWebSocket.auth_walletAddress := walletAddress i;
              SharedWebSocket.auth_agentId := agentNumericId i;
              SharedWebSocket.auth_timestamp := None;
              SharedWebSocket.auth_signature := None |},
         LogDisconnected)];
     isActive := true; reconnects := 0;
     activePvPEffects := ∅; messageContext := [];
     processedMessages := ∅; generated := []; outbox := [] |}.

(** Index of [this.wsClient] in [channels]. *)
Definition wsClient (s : t) : nat := pred (length (channels s)).

Definition emit (s : t) (es : list emission) : t :=
  with_outbox s (outbox s ++ es).

(** [!this.roomId], [!this.roundId]: unset or zero. *)
Definition unset (o : option Z) : bool :=
  match o with
  | Some n => n =? 0
  | None => true
  end.

(** [updateMessageContext(entry)]. *)
Definition updateMessageContext (s : t) (entry : MessageHistoryEntry) : t :=
  with_messageContext s
    ((if decide (MAX_CONTEXT_SIZE ≤ length (messageContext s))%nat
      then tail (messageContext s) else messageContext s) ++ [entry]).

(** [handlePvPStatusUpdate(message)], on [message.type] and
    [message.action]. *)
Definition handlePvPStatusUpdate (s : t) (message_type : string)
    (action : PvPEffect) : t :=
  if decide (message_type = "PVP_ACTION_ENACTED") then
    with_activePvPEffects s (<[type action := action]> (activePvPEffects s))
  else if decide (message_type = "PVP_STATUS_REMOVED") then
    with_activePvPEffects s (delete (type action) (activePvPEffects s))
  else s.

(** The key of the duplicate check:
    [`${message.content?.timestamp}-${message.content?.agentId}`]. *)
Definition messageId (message : inbound) : string :=
  template (field "timestamp" (in_content message)) +:+ "-" +:+
  template (field "agentId" (in_content message)).

Section engine.

(** The regular expressions of the JavaScript runtime:
    [new RegExp(pattern, flags)], which throws a [SyntaxError] on a
    malformed pattern, and [text.replace(regex, replacement)]. *)
Variable RegExp : Type.
Variable RegExp_new : string → string → outcome RegExp.
Variable String_replace : string → RegExp → string → string.

(** [applyPoisonEffect(text, effect)]: nothing here catches what
    [new RegExp] throws. *)
Definition applyPoisonEffect (text : string) (effect : PvPEffect)
    : outcome string :=
  match RegExp_new (find effect) (if caseSensitive effect then "g" else "gi") with
  | Returned regex => Returned (String_replace text regex (replace effect))
  | Thrown m => Thrown m
  end.

(** [applyPvPEffects(message)]: with an active [POISON] entry and a truthy
    [message.content?.text], the text of the copy is rewritten. A truthy
    text that is not a string has no [replace] method. *)
Definition applyPvPEffects (s : t) (message : inbound) : outcome inbound :=
  match activePvPEffects s !! "POISON", field "text" (in_content message) with
  | Some poisonEffect, Some v =>
      if truthy v then
        match v, in_content message with
        | JStr text, Some (JObj fs) =>
            match applyPoisonEffect text poisonEffect with
            | Returned text' =>
                Returned (Inbound (in_type message)
                            (Some (JObj (obj_set "text" (JStr text') fs))))
            | Thrown m => Thrown m
            end
        | _, _ => Thrown "text.replace is not a function"
        end
      else Returned message
  | _, _ => Returned message
  end.

End engine.

Section wallet.

Variable Wallet_signMessage : string → string → outcome string.

(** The retry loop around [axios.post], at most [maxRetries = 3] thrown
    attempts: a 200 returns; another status of the 2xx range falls through
    the [if] and the loop posts again without counting; anything else is
    thrown by the HTTP library, counted, and rethrown at the third time.
    One answer is consumed per post. *)
Fixpoint post_loop (message : envelope) (ans : list http_answer)
    (retries : nat) : list emission * completion :=
  match ans with
  | [] => ([], Pending)
  | a :: rest =>
      let thrown :=
        if decide (S retries = 3)%nat
        then ([Post message a], Raised "Request failed")
        else let (out, r) := post_loop message rest (S retries) in
             (Post message a :: out, r) in
      match a with
      | Responded status =>
          if decide (200 ≤ status < 300) then
            if decide (status = 200) then ([Post message a], Done)
            else let (out, r) := post_loop message rest retries in
                 (Post message a :: out, r)
          else thrown
      | NoResponse => thrown
      end
  end.

(** [sendAIMessage(content)], on [content.text]. *)
Definition sendAIMessage (w : world) (s : t) (content_text : string)
    : t * completion :=
  match roomId s, roundId s with
  | Some room, Some round_ =>
      if unset (roomId s) || unset (roundId s)
      then (s, Raised "Agent not initialized with room and round IDs")
      else
        let messageContent :=
          createMessageContent_agent (now w) room round_
            (agentNumericId (ident s)) content_text in
        match sign_fresh Wallet_signMessage (now w) messageContent
                (privateKey (ident s)) with
        | Thrown m => (s, Raised m)
        | Returned sig =>
            let message :=
              Envelope AGENT_MESSAGE (JObj messageContent) (Some sig)
                (Some (walletAddress (ident s))) (Some (now w)) in
            let (out, r) := post_loop message (answers w) 0 in
            (emit s out, r)
        end
  | _, _ => (s, Raised "Agent not initialized with room and round IDs")
  end.

(** [integration.processMessage(message)] as the client sees it: [null]
    at once for a falsy message, otherwise the generator is consulted. *)
Definition consult (w : world) (s : t) (message : option json)
    : t * option string :=
  match message with
  | Some v =>
      if truthy v then (with_generated s (generated s ++ [v]), reply w)
      else (s, None)
  | None => (s, None)
  end.

(** [if (response) await this.sendAIMessage({ text: response })] inside a
    [try] whose [catch] only logs. *)
Definition respond (w : world) (s : t) (response : option string) : t :=
  match response with
  | Some r => if decide (r = EmptyString) then s else (sendAIMessage w s r).1
  | None => s
  end.

(** [handleAgentMessage(message)]. *)
Definition handleAgentMessage (w : world) (s : t) (message : inbound) : t :=
  if decide (messageId message ∈ processedMessages s) then s
  else
    let s1 :=
      with_processedMessages s ({[ messageId message ]} ∪ processedMessages s) in
    match field "agentId" (in_content message) with
    | Some (JNum n) =>
        if decide (n = agentNumericId (ident s)) then s1
        else let (s2, response) := consult w s1 (field "text" (in_content message)) in
             respond w s2 response
    | _ =>
        let (s2, response) := consult w s1 (field "text" (in_content message)) in
        respond w s2 response
    end.

(** [handleObservation(message)]: the schema must accept the message and
    the observation must be for the current round. *)
Definition handleObservation (w : world) (s : t) (message : inbound) : t :=
  if validated w then
    match field "roundId" (in_content message), roundId s with
    | Some (JNum n), Some r =>
        if decide (n = r) then
          let data :=
            match field "data" (in_content message) with
            | Some d => stringify d
            | None => "undefined"
            end in
          let (s1, response) := consult w s (Some (JStr ("Observed: " +:+ data))) in
          respond w s1 response
        else s
    | _, _ => s
    end
  else s.

(** [this.wsClient?.send(message)]. *)
Definition wsClient_send (s : t) (e : envelope) : t :=
  match channels s !! wsClient s with
  | Some (ch, _) =>
      emit s (omap (λ eff, match eff with
                           | SharedWebSocket.Write e' => Some (Frame (wsClient s) e')
                           | _ => None
                           end) (SharedWebSocket.send ch e))
  | None => s
  end.

(** [handleWebSocketMessage(data)]; every exception ends in the [catch]
    that logs it. *)
Definition handleWebSocketMessage (w : world) (s : t) (data : option inbound)
    : t :=
  match data with
  | None => s
  | Some message =>
      match in_type message with
      | Some HEARTBEAT =>
          let heartbeatContent := createMessageContent_heartbeat (now w) in
          match sign_fresh Wallet_signMessage (now w) heartbeatContent
                  (privateKey (ident s)) with
          | Returned sig =>
              wsClient_send s
                (Envelope HEARTBEAT (JObj heartbeatContent) (Some sig)
                   (Some (walletAddress (ident s))) (Some (now w)))
          | Thrown _ => s
          end
      | Some GM_MESSAGE =>
          match in_content message with
          | Some (JObj fs) =>
              let (s1, response) := consult w s (obj_get "message" fs) in
              respond w s1 response
          | _ => s
          end
      | Some AGENT_MESSAGE => handleAgentMessage w s message
      | Some OBSERVATION => handleObservation w s message
      | Some SYSTEM_NOTIFICATION => s
      | Some SUBSCRIBE_ROOM | None => s
      end
  end.

(** [getActiveRound()] on the answer of the backend. *)
Definition getActiveRound (answer : outcome RoundResponse) : outcome Z :=
  match answer with
  | Thrown m => Thrown m
  | Returned response =>
      if success response then
        match data_id response with
        | Some id =>
            if id =? 0
            then Thrown "Invalid round data received: missing round ID"
            else Returned id
        | None => Thrown "Invalid round data received: missing round ID"
        end
      else
        Thrown (match error response with
                | Some m => if decide (m = EmptyString)
                            then "Failed to get active round" else m
                | None => "Failed to get active round"
                end)
  end.

Definition close_wsClient (s : t) : list (SharedWebSocket.t * onClose) :=
  match channels s !! wsClient s with
  | Some (ch, h) => <[wsClient s := (SharedWebSocket.close ch, h)]> (channels s)
  | None => channels s
  end.

(** [setRoomAndRound(roomId)] up to the point where [connect()] has
    started the new socket: the room is stored, the round is looked up and
    stored, the handshake is signed, the old channel is closed and a new
    one is built and told to connect. *)
Definition setRoomAndRound (w : world) (s : t) (room : Z) : t * completion :=
  let s1 := with_roomId s (Some room) in
  match getActiveRound (round w) with
  | Thrown m => (s1, Raised m)
  | Returned activeRound =>
      if activeRound =? 0 then (s1, Raised "No active round found")
      else
        let s2 := with_roundId s1 (Some activeRound) in
        let authContent :=
          createMessageContent_auth (now w) (walletAddress (ident s))
            (agentNumericId (ident s)) room in
        match sign_fresh Wallet_signMessage (now w) authContent
                (privateKey (ident s)) with
        | Thrown m => (s2, Raised m)
        | Returned sig =>
            let fresh :=
              SharedWebSocket.connect
                (SharedWebSocket.create (now w)
                   {| SharedWebSocket.endpoint := endpoint (ident s);
                      SharedWebSocket.roomId := room;
                      SharedWebSocket.auth_walletAddress := walletAddress (ident s);
                      SharedWebSocket.auth_agentId := agentNumericId (ident s);
                      SharedWebSocket.auth_timestamp := Some (now w);
                      SharedWebSocket.auth_signature := Some sig |}) in
            (with_channels s2 (close_wsClient s2 ++ [(fresh, ReconnectLater)]),
             Done)
        end
  end.

(** [stop()]. *)
Definition stop (s : t) : t :=
  let s1 := with_isActive s false in
  with_channels s1 (close_wsClient s1).

(** What one effect of channel [i] does to the client. *)
Definition absorb (w : world) (i : nat) (h : onClose) (s : t)
    (eff : SharedWebSocket.effect) : t :=
  match eff with
  | SharedWebSocket.Write e => emit s [Frame i e]
  | SharedWebSocket.Schedule _ => s
  | SharedWebSocket.OnMessage data => handleWebSocketMessage w s data
  | SharedWebSocket.OnError => s
  | SharedWebSocket.OnClose =>
      match h with
      | ReconnectLater =>
          if isActive s then with_reconnects s (S (reconnects s)) else s
      | LogDisconnected => s
      end
  end.

(** Everything that can happen to a client: a call of one of its public
    methods, a frame handed to its message handler, an event of the socket
    or of a timer of one of its channels, the timer of its [onClose]
    handler. *)
Inductive action : Type :=
| SetRoomAndRound (room : Z)
| SendAIMessage (content_text : string)
| Stop
| HandleWebSocketMessage (data : option inbound)
| Channel (i : nat) (ev : SharedWebSocket.event)
| ReconnectAfterClose.

Definition step (s : t) (wa : world * action) : t :=
  let (w, a) := wa in
  match a with
  | SetRoomAndRound room => (setRoomAndRound w s room).1
  | SendAIMessage content_text => (sendAIMessage w s content_text).1
  | Stop => stop s
  | HandleWebSocketMessage data => handleWebSocketMessage w s data
  | Channel i ev =>
      match channels s !! i with
      | Some (ch, h) =>
          let (ch', effs) := SharedWebSocket.step (now w) ch ev in
          foldl (absorb w i h) (with_channels s (<[i := (ch', h)]> (channels s))) effs
      | None => s
      end
  | ReconnectAfterClose =>
      match reconnects s, channels s !! wsClient s with
      | S n, Some (ch, h) =>
          with_channels (with_reconnects s n)
            (<[wsClient s := (SharedWebSocket.connect ch, h)]> (channels s))
      | _, _ => s
      end
  end.

Definition run (s : t) (was : list (world * action)) : t := foldl step s was.

End wallet.

(** [s'] is [s] with more processed keys, more generated texts and [out]
    appended to the outbox; nothing else differs. *)
Definition grows (s s' : t) (out : list emission) : Prop :=
  ident s' = ident s ∧ roomId s' = roomId s ∧ roundId s' = roundId s ∧
  channels s' = channels s ∧ isActive s' = isActive s ∧
  reconnects s' = reconnects s ∧ activePvPEffects s' = activePvPEffects s ∧
  messageContext s' = messageContext s ∧
  processedMessages s ⊆ processedMessages s' ∧
  outbox s' = outbox s ++ out.

(** No round has been resolved yet and nothing has moved: the outbox is
    empty, no channel ever had a socket, no reconnect is pending. *)
Definition unresolved (s : t) : Prop :=
  roundId s = None ∧ outbox s = [] ∧ reconnects s = 0%nat ∧
  Forall (λ c : SharedWebSocket.t * onClose, SharedWebSocket.idle c.1)
    (channels s).

(** The posts the backend accepted with a 200. *)
Definition accepted (e : emission) : bool :=
  match e with
  | Post _ (Responded status) => bool_decide (status = 200)
  | _ => false
  end.

Definition replies (out : list emission) : nat :=
  length (filter (λ e, accepted e = true) out).

(** The posts that failed: no response at all, or a status outside the
    2xx range, on which the HTTP library throws. *)
Definition rejected (e : emission) : bool :=
  match e with
  | Post _ (Responded status) => negb (bool_decide (200 ≤ status < 300))
  | Post _ NoResponse => true
  | Frame _ _ => false
  end.

Definition failures (out : list emission) : nat :=
  length (filter (λ e, rejected e = true) out).

(** The client has a channel, and [close()] has been called on every
    channel but the newest: its [isActive] flag is [false]. The flag says
    nothing about the socket of the channel. *)
Definition older_channels_closed (s : t) : Prop :=
  channels s ≠ [] ∧
  Forall (λ c : SharedWebSocket.t * onClose, SharedWebSocket.isActive c.1 = false)
    (take (wsClient s) (channels s)).

End AgentClient.

(** ** The role test of the two constructors *)

Module AgentRole.

(** [character.agentRole] as the constructors read it: not there, there
    without a [type], or there with one. *)
Inductive t : Type :=
| Absent
| Untyped
| Typed (type : string).

(** [toUpperCase()] on the letters of ASCII. *)
Definition upper (c : Ascii.ascii) : Ascii.ascii :=
  let n := Ascii.N_of_ascii c in
  if ((97 <=? n) && (n <=? 122))%N then Ascii.ascii_of_N (n - 32) else c.

Fixpoint toUpperCase (s : string) : string :=
  match s with
  | EmptyString => EmptyString
  | String c rest => String (upper c) (toUpperCase rest)
  end.

(** What the engine throws for [undefined.toUpperCase()]. *)
Definition TypeError : string :=
  "Cannot read properties of undefined (reading 'toUpperCase')".

(** [agentRole?.type.toUpperCase() === 'GM']: the optional chain stops at
    an [agentRole] that is not there and the comparison gives [false]; an
    [agentRole] without a [type] reaches [undefined.toUpperCase()], which
    throws. *)
Definition isGM (agentRole : t) : outcome bool :=
  match agentRole with
  | Absent => Returned false
  | Untyped => Thrown TypeError
  | Typed type => Returned (bool_decide (toUpperCase type = "GM"))
  end.

End AgentRole.

(** ** DebateOrchestrator.ts *)

Module DebateOrchestrator.

(** The timing configuration of the class. *)
Record timing : Type := {
  minResponseDelay : Z;
  maxResponseDelay : Z;
  turnDelay : Z;
  gmThinkingTime : Z;
  roundBreak : Z;
  retryDelay : Z;
  maxRetries : nat }.

Definition config : timing :=
  {| minResponseDelay := 15000; maxResponseDelay := 20000; turnDelay := 5000;
     gmThinkingTime := 10000; roundBreak := 30000; retryDelay := 10000;
     maxRetries := 3 |}.

Definition MIN_API_INTERVAL : Z := 10000.

(** A runtime, by what the orchestrator reads of it: the name of the
    character, its [agentRole], its numeric id, and whether
    [clients['pvpvai']] is there. *)
Record runtime : Type := {
  name : string;
  agentRole : AgentRole.t;
  agentId : option Z;
  has_client : bool }.

Inductive phase_t : Type := init | discussion | voting | end_.

(** The fields of the class together with the clock [Date.now()] reads. *)
Record t : Type := {
  agents : list runtime;
  gameMaster : runtime;
  isDebating : bool;
  roomId : option Z;
  roundId : option Z;
  isRunning : bool;
  lastApiCall : Z;
  phase : phase_t;
  clock : Z }.

(** What a failed operation throws: [error.statusCode] and the message. *)
Record error : Type := {
  statusCode : option Z;
  message : string }.

Inductive result (T : Type) : Type :=
| Ok (v : T)
| Err (e : error).
Arguments Ok {T} v.
Arguments Err {T} e.

(** One run of an operation: the time it took and how it ended. *)
Record attempt (T : Type) : Type := {
  elapsed : Z;
  ended : result T }.
Arguments elapsed {T} a.
Arguments ended {T} a.

(** Why the loop sleeps. *)
Inductive pause : Type :=
| RateLimit
| Backoff
| Thinking
| ResponseDelay
| TurnDelay
| RoundBreak
| ErrorPause.

(** What an observer of the orchestrator sees. *)
Inductive observed : Type :=
| Slept (why : pause) (ms : Z)
| Invoked (i : nat)
| Sent (who : string)
| Broadcast (text : string).

Definition with_clock (s : t) (c : Z) : t :=
  {| agents := agents s; gameMaster := gameMaster s;
     isDebating := isDebating s; roomId := roomId s; roundId := roundId s;
     isRunning := isRunning s; lastApiCall := lastApiCall s;
     phase := phase s; clock := c |}.

Definition with_lastApiCall (s : t) (c : Z) : t :=
  {| agents := agents s; gameMaster := gameMaster s;
     isDebating := isDebating s; roomId := roomId s; roundId := roundId s;
     isRunning := isRunning s; lastApiCall := c;
     phase := phase s; clock := clock s |}.

(** The [for] loop of the constructor over the runtimes still to come,
    with [this.gameMaster] and [this.agents] as the iterations before left
    them. The role test that throws ends the constructor. *)
Fixpoint separate (runtimes : list runtime) (gm : option runtime)
    (others : list runtime) : outcome (option runtime * list runtime) :=
  match runtimes with
  | [] => Returned (gm, others)
  | runtime :: rest =>
      match AgentRole.isGM (agentRole runtime) with
      | Thrown m => Thrown m
      | Returned true => separate rest (Some runtime) others
      | Returned false => separate rest gm (others ++ [runtime])
      end
  end.

(** The constructor: the loop, then the check that a game master was
    found. *)
Definition create (runtimes : list runtime) : outcome t :=
  match separate runtimes None [] with
  | Thrown m => Thrown m
  | Returned (None, _) => Thrown "No GM found in provided runtimes"
  | Returned (Some gm, others) =>
      Returned
        {| agents := others; gameMaster := gm; isDebating := false;
           roomId := None; roundId := None; isRunning := false;
           lastApiCall := 0; phase := init; clock := 0 |}
  end.

(** [sleep(ms)]. *)
Definition sleep (why : pause) (ms : Z) (s : t) : t * list observed :=
  (with_clock s (clock s + ms), [Slept why ms]).

(** [waitForRateLimit()]. *)
Definition waitForRateLimit (s : t) : t * list observed :=
  let timeSinceLastCall := clock s - lastApiCall s in
  let (s1, tr) :=
    if decide (timeSinceLastCall < MIN_API_INTERVAL)
    then sleep RateLimit (MIN_API_INTERVAL - timeSinceLastCall) s
    else (s, []) in
  (with_lastApiCall s1 (clock s1), tr).

(** [error?.statusCode === 429]. *)
Definition rate_limited (e : error) : bool :=
  bool_decide (statusCode e = Some 429).

(** The [for] loop of [retryWithBackoff] from index [i] on, with
    [fuel = retries - i] iterations left; [operation i] is what the
    [(i+1)]-th run of the operation does. *)
Fixpoint retry_from {T : Type} (operation : nat → attempt T)
    (retries i fuel : nat) (s : t) : t * list observed * result T :=
  match fuel with
  | O => (s, [], Err {| statusCode := None; message := "Max retries exceeded" |})
  | S fuel' =>
      let (s1, tr1) := waitForRateLimit s in
      let s2 := with_clock s1 (clock s1 + elapsed (operation i)) in
      match ended (operation i) with
      | Ok v => (s2, tr1 ++ [Invoked i], Ok v)
      | Err e =>
          if rate_limited e && bool_decide (S i < retries)%nat then
            let delay := retryDelay config * 2 ^ Z.of_nat i in
            let (s3, tr3) := sleep Backoff delay s2 in
            let '(s4, tr4, r) := retry_from operation retries (S i) fuel' s3 in
            (s4, tr1 ++ [Invoked i] ++ tr3 ++ tr4, r)
          else (s2, tr1 ++ [Invoked i], Err e)
      end
  end.

(** A run that ended in a rate-limit error. *)
Definition throttled {T : Type} (a : attempt T) : Prop :=
  ∃ err, ended a = Err err ∧ rate_limited err = true.

(** [retryWithBackoff(operation, retries)]. *)
Definition retryWithBackoff {T : Type} (operation : nat → attempt T)
    (retries : nat) (s : t) : t * list observed * result T :=
  retry_from operation retries 0 retries s.

(** What the outside decides about one turn: the random part of the
    response delay, what each run of the turn's operation does (it ends
    with [true] when a message went out, with [false] when there was
    nothing to send), and whether [stopDebate()] is called while the turn
    is in flight. *)
Record turn : Type := {
  jitter : Z;
  tries : nat → attempt bool;
  stop_called : bool }.

(** The turn gets its message out within the retry budget: some run
    ends with a message sent, and every run before it was rate limited. *)
Definition delivers (e : turn) : Prop :=
  ∃ k, (k < maxRetries config)%nat ∧
       (∀ j, (j < k)%nat → throttled (tries e j)) ∧
       ended (tries e k) = Ok true.

(** [getRandomDelay()], [jitter] being
    [Math.random() * (maxResponseDelay - minResponseDelay)]. *)
Definition getRandomDelay (e : turn) : Z :=
  minResponseDelay config +
  jitter e `mod` (maxResponseDelay config - minResponseDelay config).

(** [stopDebate()]: the closing broadcast is attempted when the game
    master has a client, the flags are cleared. *)
Definition stopDebate (s : t) : t * list observed :=
  ({| agents := agents s; gameMaster := gameMaster s; isDebating := false;
      roomId := roomId s; roundId := roundId s; isRunning := false;
      lastApiCall := lastApiCall s; phase := end_; clock := clock s |},
   if has_client (gameMaster s) then [Broadcast "Debate session ended."] else []).

Definition interrupt (e : turn) (s : t) : t * list observed :=
  if stop_called e then stopDebate s else (s, []).

(** The body shared by [handleGMTurn] and [handleAgentTurn]: return at
    once without a client, otherwise sleep, then run the operation under
    [retryWithBackoff]. *)
Definition take_turn (why : pause) (ms : Z) (r : runtime) (e : turn) (s : t)
    : t * list observed * result unit :=
  if has_client r then
    let (s1, tr1) := sleep why ms s in
    let '(s2, tr2, res) := retryWithBackoff (tries e) (maxRetries config) s1 in
    let (s3, tr3) := interrupt e s2 in
    match res with
    | Ok sent => (s3, tr1 ++ tr2 ++ (if sent then [Sent (name r)] else []) ++ tr3, Ok ())
    | Err err => (s3, tr1 ++ tr2 ++ tr3, Err err)
    end
  else (s, [], Ok ()).

Definition handleGMTurn (gmRuntime : runtime) (e : turn) (s : t)
    : t * list observed * result unit :=
  take_turn Thinking (gmThinkingTime config) gmRuntime e s.

Definition handleAgentTurn (r : runtime) (e : turn) (s : t)
    : t * list observed * result unit :=
  take_turn ResponseDelay (getRandomDelay e) r e s.

(** The [for] loop over the agents from index [i] on: it goes on while
    there are agents left and the running flag is set, and an exception
    leaves it. *)
Fixpoint agent_turns (es : nat → turn) (i : nat) (rs : list runtime) (s : t)
    : t * list observed * result unit :=
  match rs with
  | [] => (s, [], Ok ())
  | r :: rest =>
      if isRunning s then
        let '(s1, tr1, res) := handleAgentTurn r (es i) s in
        match res with
        | Err err => (s1, tr1, Err err)
        | Ok _ =>
            let (s2, tr2) := sleep TurnDelay (turnDelay config) s1 in
            let '(s3, tr3, res') := agent_turns es (S i) rest s2 in
            (s3, tr1 ++ tr2 ++ tr3, res')
        end
      else (s, [], Ok ())
  end.

(** What the outside decides about one iteration of the [while] loop. *)
Record iteration : Type := {
  gm_turn : turn;
  agent_turn : nat → turn }.

(** An iteration in which every turn gets its message out and nobody
    calls [stopDebate()]. *)
Definition smooth (e : iteration) : Prop :=
  (delivers (gm_turn e) ∧ stop_called (gm_turn e) = false) ∧
  ∀ i, delivers (agent_turn e i) ∧ stop_called (agent_turn e i) = false.

(** The body of [while (this.isRunning)]: the [try] block, and the
    [catch] that pauses after an exception. *)
Definition round (e : iteration) (s : t) : t * list observed :=
  let '(s1, tr1, res1) := handleGMTurn (gameMaster s) (gm_turn e) s in
  match res1 with
  | Err _ =>
      let (s2, tr2) := sleep ErrorPause (retryDelay config) s1 in
      (s2, tr1 ++ tr2)
  | Ok _ =>
      let (s2, tr2) := sleep TurnDelay (turnDelay config) s1 in
      let '(s3, tr3, res3) := agent_turns (agent_turn e) 0 (agents s2) s2 in
      match res3 with
      | Err _ =>
          let (s4, tr4) := sleep ErrorPause (retryDelay config) s3 in
          (s4, tr1 ++ tr2 ++ tr3 ++ tr4)
      | Ok _ =>
          let (s4, tr4) := sleep RoundBreak (roundBreak config) s3 in
          (s4, tr1 ++ tr2 ++ tr3 ++ tr4)
      end
  end.

(** The [while] loop against the iterations the outside has decided so
    far: one list of observations per iteration that ran. *)
Fixpoint debate_loop (es : list iteration) (s : t) : t * list (list observed) :=
  match es with
  | [] => (s, [])
  | e :: rest =>
      if isRunning s then
        let (s1, tr) := round e s in
        let (s2, trs) := debate_loop rest s1 in
        (s2, tr :: trs)
      else (s, [])
  end.

(** [startDebate()]: the guards, the three opening broadcasts of the game
    master's client ([opening] is how many of them go through before one
    throws), then the loop. The last component is [None] while the loop
    is still running on the iterations decided so far. *)
Definition startDebate (opening : nat) (es : list iteration) (s : t)
    : t * list observed * list (list observed) * option (outcome unit) :=
  if AgentClient.unset (roomId s) || AgentClient.unset (roundId s) then
    (s, [], [],
     Some (Thrown "Must call initialize() with room and round IDs first"))
  else
    let s0 :=
      {| agents := agents s; gameMaster := gameMaster s; isDebating := true;
         roomId := roomId s; roundId := roundId s; isRunning := isRunning s;
         lastApiCall := lastApiCall s; phase := init; clock := clock s |} in
    if negb (has_client (gameMaster s)) then
      (s0, [], [], Some (Thrown "GM client not initialized"))
    else
      let texts :=
        ["Room initialized. Beginning debate round.";
         "Beginning discussion phase. Agents may now engage in debate.";
         "Let's discuss the future of cryptocurrency. What are your thoughts on Bitcoin versus Ethereum?"] in
      if decide (opening < 3)%nat then
        (s0, map Broadcast (take opening texts), [],
         Some (Thrown "sendGMMessage failed"))
      else
        let s1 :=
          {| agents := agents s; gameMaster := gameMaster s; isDebating := true;
             roomId := roomId s; roundId := roundId s; isRunning := true;
             lastApiCall := lastApiCall s; phase := discussion;
             clock := clock s |} in
        let (s2, trs) := debate_loop es s1 in
        (s2, map Broadcast texts, trs,
         if isRunning s2 then None else Some (Returned ())).

(** The names of those who sent a message, in the order they did. *)
Definition sends (tr : list observed) : list string :=
  omap (λ o, match o with Sent who => Some who | _ => None end) tr.

(** The runs of the operation. *)
Definition invocations (tr : list observed) : list nat :=
  omap (λ o, match o with Invoked i => Some i | _ => None end) tr.

(** The back-off delays. *)
Definition backoffs (tr : list observed) : list Z :=
  omap (λ o, match o with Slept Backoff ms => Some ms | _ => None end) tr.

(** The fields no turn writes. *)
Definition same_cast (s s' : t) : Prop :=
  agents s' = agents s ∧ gameMaster s' = gameMaster s.

(** The order in which the participants take their turns. *)
Definition turn_order (s : t) : list string :=
  name (gameMaster s) :: map name (agents s).

(** The texts the game master's client was asked to broadcast. *)
Definition broadcasts (tr : list observed) : list string :=
  omap (λ o, match o with Broadcast text => Some text | _ => None end) tr.

#[global] Instance pause_eq_dec : EqDecision pause.
Proof. solve_decision. Defined.

#[global] Instance role_test_eq_dec : EqDecision (outcome bool).
Proof. solve_decision. Defined.

(** The role test of the constructor on a runtime. *)
Definition role_is_gm (r : runtime) : outcome bool :=
  AgentRole.isGM (agentRole r).

(** The pauses of a given kind. *)
Definition pauses (why : pause) (tr : list observed) : list Z :=
  omap (λ o, match o with
             | Slept why' ms => if decide (why' = why) then Some ms else None
             | _ => None
             end) tr.

(** The sum of a list of durations. *)
Definition total (durations : list Z) : Z := foldr Z.add 0 durations.

(** The trace with the waits of the rate limit left out. *)
Definition rate_limit_wait (o : observed) : bool :=
  match o with
  | Slept RateLimit _ => true
  | _ => false
  end.

Definition outside_rate_limit (tr : list observed) : list observed :=
  filter (λ o, rate_limit_wait o = false) tr.

(** The [every(Boolean)] of [verifyConnections]: [statuses] holds what
    [isConnected()] answers for the game master and for each agent, a
    client or a socket that is not there counting as [false]. *)
Definition allConnected (statuses : list bool) : bool := forallb (λ b, b) statuses.

(** The [while] loop of [verifyConnections] from [retries] on, with
    [fuel = maxRetries - retries] looks left; [statuses k] is what the
    [(k+1)]-th look finds. A look that fails is followed by a wait of
    [retryDelay = 2000] milliseconds. *)
Fixpoint verify_from (statuses : nat → list bool) (retries fuel : nat) (s : t)
    : t * result unit :=
  match fuel with
  | O => (s, Err {| statusCode := None;
                    message := "Failed to establish connections for all agents" |})
  | S fuel' =>
      if allConnected (statuses retries) then (s, Ok ())
      else verify_from statuses (S retries) fuel' (with_clock s (clock s + 2000))
  end.

(** [verifyConnections()], with [maxRetries = 10]. *)
Definition verifyConnections (statuses : nat → list bool) (s : t)
    : t * result unit :=
  verify_from statuses 0 10 s.

(** What the clients answer while [initialize] runs: whether the game
    master's [setRoomAndRound] returns, and in that case what its
    [getRoundId()] gives afterwards; whether the [setRoomAndRound] of the
    agent at each index returns; and what the looks of
    [verifyConnections] find. *)
Record joining : Type := {
  gm_joins : outcome (option Z);
  agent_joins : nat → outcome unit;
  statuses : nat → list bool }.

(** The [for] loop of [initialize] over the agents from index [i] on,
    with the names of the agents whose client was asked to join. *)
Fixpoint join_agents (j : joining) (i : nat) (rs : list runtime)
    : list string * outcome unit :=
  match rs with
  | [] => ([], Returned ())
  | r :: rest =>
      if has_client r then
        match agent_joins j i with
        | Thrown m => ([name r], Thrown m)
        | Returned _ =>
            let (asked, res) := join_agents j (S i) rest in
            (name r :: asked, res)
        end
      else ([], Thrown ("Agent client not initialized for " +:+ name r))
  end.

Definition with_roomId (s : t) (x : option Z) : t :=
  {| agents := agents s; gameMaster := gameMaster s;
     isDebating := isDebating s; roomId := x; roundId := roundId s;
     isRunning := isRunning s; lastApiCall := lastApiCall s;
     phase := phase s; clock := clock s |}.

Definition with_roundId (s : t) (x : option Z) : t :=
  {| agents := agents s; gameMaster := gameMaster s;
     isDebating := isDebating s; roomId := roomId s; roundId := x;
     isRunning := isRunning s; lastApiCall := lastApiCall s;
     phase := phase s; clock := clock s |}.

(** [initialize(roomId)]: the room is stored first, the game master's
    client joins and gives the round, the agents' clients join in the
    order of [agents], and the connections are verified. The second
    component lists whose client was asked to join, in order. *)
Definition initialize (room : Z) (j : joining) (s : t)
    : t * list string * outcome unit :=
  let s1 := with_roomId s (Some room) in
  if has_client (gameMaster s) then
    match gm_joins j with
    | Thrown m => (s1, [name (gameMaster s)], Thrown m)
    | Returned round_ =>
        let s2 := with_roundId s1 round_ in
        let (asked, res) := join_agents j 0 (agents s) in
        match res with
        | Thrown m => (s2, name (gameMaster s) :: asked, Thrown m)
        | Returned _ =>
            let (s3, v) := verifyConnections (statuses j) s2 in
            (s3, name (gameMaster s) :: asked,
             match v with
             | Ok _ => Returned ()
             | Err e => Thrown (message e)
             end)
        end
    end
  else (s1, [], Thrown "GM client not initialized").

End DebateOrchestrator.

(** ** clients/PVPVAIIntegration.ts: construction, rate limit, generation *)

Module Participant.

(** [toLowerCase()] on the letters of ASCII. *)
Definition lower (c : Ascii.ascii) : Ascii.ascii :=
  let n := Ascii.N_of_ascii c in
  if ((65 <=? n) && (n <=? 90))%N then Ascii.ascii_of_N (n + 32) else c.

Fixpoint toLowerCase (s : string) : string :=
  match s with
  | EmptyString => EmptyString
  | String c rest => String (lower c) (toLowerCase rest)
  end.

(** The left operand of [a || b] when it is truthy: a string that is
    there and not empty, a number that is there and not zero. *)
Definition nonempty (o : option string) : option string :=
  match o with
  | Some s => if decide (s = EmptyString) then None else Some s
  | None => None
  end.

Definition nonzero (o : option Z) : option Z :=
  match o with
  | Some n => if n =? 0 then None else Some n
  | None => None
  end.

Definition or_else {A : Type} (a b : option A) : option A :=
  match a with
  | Some _ => a
  | None => b
  end.

(** An [ExtendedCharacter], by what the constructor reads of it:
    [agentRole], [settings?.pvpvai?.eth_wallet_address] and
    [settings?.pvpvai?.agentId]. *)
Record Character : Type := {
  agentRole : AgentRole.t;
  eth_wallet_address : option string;
  settings_agentId : option Z }.

(** The [Config] interface. *)
Record Config : Type := {
  endpoint : string;
  walletAddress : string;
  creatorId : Z;
  agentId : option Z;
  port : Z;
  privateKey : option string;
  roomId : option Z }.

(** One entry of [AGENT_CONFIGS]. *)
Record AgentConfig : Type := {
  agent_port : Z;
  agent_endpoint : string;
  agent_roomId : Z }.

(** The client an integration holds. For a game master the model records
    the arguments of [new GameMasterClient(...)]; the class itself is in
    [GameMasterClient.ts], which is not among the sources. *)
Inductive client_t : Type :=
| GameMaster (endpoint walletAddress : string) (creatorId : Z)
| Agent (c : AgentClient.t).

(** The fields of the class. *)
Record t : Type := {
  integration : PVPVAIIntegration.t;
  client : client_t }.

(** One consultation of [generateText]: the clock reading at which the
    rate limit let it through, and the message the prompt was built
    around. *)
Record consulted : Type := {
  at_ : Z;
  about : string }.

(** What the outside decides about one call of [processMessage]: the
    clock reading when the call is entered, and what [generateText]
    resolves to or throws. *)
Record generation : Type := {
  entered : Z;
  answer : outcome string }.

(** How [sendAIMessage] ended: without sending, with the completion of
    the agent client's [sendAIMessage], or with a
    [broadcastToRoom({ text })] handed to the game master's client. *)
Inductive delivery : Type :=
| NothingToSend
| ToBackend (c : AgentClient.completion)
| ToRoom (text : string).

(** [char.agentRole?.type.toUpperCase() === 'GM'], the first thing the
    constructor computes. *)
Definition isGM (char : Character) : outcome bool :=
  AgentRole.isGM (agentRole char).

(** The name of the variable that holds the key of an agent:
    [`AGENT_${agentId}_PRIVATE_KEY`]. *)
Definition privateKeyEnv (agentId : Z) : string :=
  "AGENT_" +:+ pretty agentId +:+ "_PRIVATE_KEY".

Definition with_lastApiCall (s : PVPVAIIntegration.t) (x : Z) : PVPVAIIntegration.t :=
  {| PVPVAIIntegration.messageContext := PVPVAIIntegration.messageContext s;
     PVPVAIIntegration.activePvPEffects := PVPVAIIntegration.activePvPEffects s;
     PVPVAIIntegration.lastApiCall := x;
     PVPVAIIntegration.processedMessageIds := PVPVAIIntegration.processedMessageIds s |}.

Definition with_processedMessageIds (s : PVPVAIIntegration.t) (x : gset string)
    : PVPVAIIntegration.t :=
  {| PVPVAIIntegration.messageContext := PVPVAIIntegration.messageContext s;
     PVPVAIIntegration.activePvPEffects := PVPVAIIntegration.activePvPEffects s;
     PVPVAIIntegration.lastApiCall := PVPVAIIntegration.lastApiCall s;
     PVPVAIIntegration.processedMessageIds := x |}.

(** [waitForRateLimit()] entered at clock reading [now]: the time waited
    is [Math.max(0, MIN_API_INTERVAL - (now - lastApiCall))], and
    [lastApiCall] becomes the clock reading after the wait. *)
Definition waitForRateLimit (now : Z) (s : PVPVAIIntegration.t)
    : PVPVAIIntegration.t :=
  let timeSinceLastCall := now - PVPVAIIntegration.lastApiCall s in
  let waitTime := Z.max 0 (PVPVAIIntegration.MIN_API_INTERVAL - timeSinceLastCall) in
  with_lastApiCall s (now + waitTime).

(** The key of the duplicate check: [`${Date.now()}-${message}`]. *)
Definition messageId (now : Z) (message : string) : string :=
  pretty now +:+ "-" +:+ message.

(** [processMessage(message)]: [null] for an empty message and for a key
    seen before; otherwise the rate limit, then the generator. A truthy
    response stores the key; what the generator throws is caught and
    gives [null]. *)
Definition processMessage (g : generation) (s : PVPVAIIntegration.t)
    (message : string) : PVPVAIIntegration.t * list consulted * option string :=
  if decide (message = EmptyString) then (s, [], None)
  else if decide (messageId (entered g) message ∈ PVPVAIIntegration.processedMessageIds s)
  then (s, [], None)
  else
    let s1 := waitForRateLimit (entered g) s in
    let call := {| at_ := PVPVAIIntegration.lastApiCall s1; about := message |} in
    match answer g with
    | Thrown _ => (s1, [call], None)
    | Returned response =>
        (if decide (response = EmptyString) then s1
         else with_processedMessageIds s1
                ({[ messageId (entered g) message ]} ∪
                 PVPVAIIntegration.processedMessageIds s1),
         [call], Some response)
    end.

(** The callback of the five-minute timer [processMessage] arms for a
    stored key. *)
Definition expire (s : PVPVAIIntegration.t) (key : string) : PVPVAIIntegration.t :=
  with_processedMessageIds s (PVPVAIIntegration.processedMessageIds s ∖ {[ key ]}).

(** What happens to the duplicate check and the rate limit of an
    integration: a call of [processMessage] that runs to its end before
    the next one is entered, or the timer of a stored key. *)
Inductive occurrence : Type :=
| Call (g : generation) (message : string)
| Expire (key : string).

Definition occur (s : PVPVAIIntegration.t) (o : occurrence)
    : PVPVAIIntegration.t * list consulted :=
  match o with
  | Call g message => (processMessage g s message).1
  | Expire key => (expire s key, [])
  end.

Fixpoint occurs (s : PVPVAIIntegration.t) (os : list occurrence)
    : PVPVAIIntegration.t * list consulted :=
  match os with
  | [] => (s, [])
  | o :: rest =>
      let (s1, calls1) := occur s o in
      let (s2, calls2) := occurs s1 rest in
      (s2, calls1 ++ calls2)
  end.

(** The clock readings at which successive calls are entered, with [from]
    before the first: each call is entered later than the one before. *)
Fixpoint later_each_time (from : Z) (os : list occurrence) : Prop :=
  match os with
  | [] => True
  | Call g _ :: rest => from < entered g ∧ later_each_time (entered g) rest
  | Expire _ :: rest => later_each_time from rest
  end.

(** The messages of the calls that are not empty. *)
Definition asked (os : list occurrence) : list string :=
  omap (λ o, match o with
             | Call _ message =>
                 if decide (message = EmptyString) then None else Some message
             | Expire _ => None
             end) os.

(** Successive clock readings at least [MIN_API_INTERVAL] apart, the first
    one at least that far from [last]. *)
Fixpoint spaced (last : Z) (times : list Z) : Prop :=
  match times with
  | [] => True
  | time :: rest =>
      last + PVPVAIIntegration.MIN_API_INTERVAL ≤ time ∧ spaced time rest
  end.

(** No character of the string is the hyphen. *)
Fixpoint dashless (s : string) : bool :=
  match s with
  | EmptyString => true
  | String c rest => negb (Ascii.eqb c (Ascii.ascii_of_N 45)) && dashless rest
  end.

(** Every stored key was built at a clock reading between 0 and [upto]. *)
Definition stamped_up_to (upto : Z) (s : PVPVAIIntegration.t) : Prop :=
  ∀ key, key ∈ PVPVAIIntegration.processedMessageIds s →
         ∃ time message, key = messageId time message ∧ 0 ≤ time ≤ upto.

Section outside.

(** [process.env], and [Number(process.env.ROOM_ID)] when that is a
    number. *)
Variable env : string → option string.
Variable ROOM_ID : option Z.

(** [new ethers.Wallet(privateKey).address], or what the constructor of
    the wallet throws on a key it rejects. *)
Variable Wallet_address : string → outcome string.

Variable Wallet_signMessage : string → string → outcome string.

(** [Number(process.env.ROOM_ID) || 290]. *)
Definition default_roomId : Z := default 290 (nonzero ROOM_ID).

(** [process.env.BACKEND_URL || "http://localhost:3000"]. *)
Definition default_endpoint : string :=
  default "http://localhost:3000" (nonempty (env "BACKEND_URL")).

Definition AGENT_CONFIG (port : Z) : AgentConfig :=
  {| agent_port := port; agent_endpoint := default_endpoint;
     agent_roomId := default_roomId |}.

(** [getAgentConfig(agentId)]: the [switch] over the known ids. *)
Definition getAgentConfig (char : Character) (agentId : option Z)
    : outcome AgentConfig :=
  let id := or_else (nonzero agentId) (settings_agentId char) in
  match id with
  | Some 50 => Returned (AGENT_CONFIG 3331)
  | Some 56 => Returned (AGENT_CONFIG 3332)
  | Some 57 => Returned (AGENT_CONFIG 3333)
  | Some 58 => Returned (AGENT_CONFIG 3334)
  | _ => Thrown ("Unknown agent ID: " +:+ from_option pretty "undefined" id)
  end.

(** The constructor of [AgentClient]: the key is read from the
    environment under the name built from the id, the wallet is built from
    it, and its address must be the given one up to the case of the
    letters. [port] is not used. *)
Definition new_AgentClient (now : Z) (endpoint walletAddress : string)
    (agentNumericId port : Z) : outcome AgentClient.t :=
  match nonempty (env (privateKeyEnv agentNumericId)) with
  | None => Thrown ("Private key not found for agent " +:+ pretty agentNumericId)
  | Some key =>
      match Wallet_address key with
      | Thrown m => Thrown m
      | Returned address =>
          if decide (toLowerCase address = toLowerCase walletAddress) then
            Returned
              (AgentClient.create now
                 {| AgentClient.walletAddress := walletAddress;
                    AgentClient.agentNumericId := agentNumericId;
                    AgentClient.privateKey := key;
                    AgentClient.endpoint := endpoint |})
          else Thrown ("Private key mismatch for agent " +:+ pretty agentNumericId)
      end
  end.

(** The constructor of [PVPVAIIntegration] at clock reading [now]. The
    role test comes first: when it throws, nothing else is read. *)
Definition create (now : Z) (char : Character) (config : Config) : outcome t :=
  match isGM char with
  | Thrown m => Thrown m
  | Returned gm =>
  match or_else (nonempty (eth_wallet_address char))
                (nonempty (Some (walletAddress config))) with
  | None => Thrown "No eth_wallet_address found in character settings or config"
  | Some wallet =>
      if gm then
        match nonempty (env "GM_PRIVATE_KEY") with
        | None => Thrown "GM_PRIVATE_KEY not found in environment variables"
        | Some _ =>
            Returned {| integration := PVPVAIIntegration.create;
                        client := GameMaster (endpoint config) wallet
                                    (creatorId config) |}
        end
      else
        match or_else (nonzero (settings_agentId char)) (nonzero (agentId config)) with
        | None => Thrown "No agentId found in character settings or config"
        | Some id =>
            match or_else (nonempty (env (privateKeyEnv id)))
                          (nonempty (privateKey config)) with
            | None =>
                Thrown (privateKeyEnv id +:+ " not found in environment variables")
            | Some _ =>
                match getAgentConfig char (Some id) with
                | Thrown m => Thrown m
                | Returned agentConfig =>
                    match new_AgentClient now (endpoint config) wallet id
                            (if port config =? 0 then agent_port agentConfig
                             else port config) with
                    | Thrown m => Thrown m
                    | Returned c =>
                        Returned {| integration := PVPVAIIntegration.create;
                                    client := Agent c |}
                    end
                end
            end
        end
  end
  end.

(** [initialize()] of an integration that holds an agent client: the
    completion of [client.setRoomAndRound(roomId)]. For a game master the
    call goes to the class that is not among the sources, and the model
    has nothing to say about it. *)
Definition initialize (w : AgentClient.world) (s : t)
    : t * option AgentClient.completion :=
  match client s with
  | Agent c =>
      let (c', r) := AgentClient.setRoomAndRound Wallet_signMessage w c default_roomId in
      ({| integration := integration s; client := Agent c' |}, Some r)
  | GameMaster _ _ _ => (s, None)
  end.

(** [sendAIMessage(text)]: the text goes through [processMessage] and what
    comes back, if anything, is handed to the client. *)
Definition sendAIMessage (g : generation) (w : AgentClient.world) (s : t)
    (text : string) : t * list consulted * delivery :=
  let '(i1, calls, processedText) := processMessage g (integration s) text in
  match processedText with
  | None => ({| integration := i1; client := client s |}, calls, NothingToSend)
  | Some response =>
      if decide (response = EmptyString)
      then ({| integration := i1; client := client s |}, calls, NothingToSend)
      else
        match client s with
        | Agent c =>
            let (c', r) := AgentClient.sendAIMessage Wallet_signMessage w c response in
            ({| integration := i1; client := Agent c' |}, calls, ToBackend r)
        | GameMaster _ _ _ =>
            ({| integration := i1; client := client s |}, calls, ToRoom response)
        end
  end.

(** The operation [handleAgentTurn] of the orchestrator runs under
    [retryWithBackoff]: [processMessage] on the fixed request, and, when
    there is a response, [sendAIMessage(response)], which runs
    [processMessage] again; [g1] and [g2] decide the two generations. *)
Definition agent_turn_operation (g1 g2 : generation) (w : AgentClient.world)
    (s : t) : t * list consulted * delivery :=
  let '(i1, calls1, response) :=
    processMessage g1 (integration s)
      "Continue the debate based on the previous messages." in
  let s1 := {| integration := i1; client := client s |} in
  match response with
  | None => (s1, calls1, NothingToSend)
  | Some r =>
      if decide (r = EmptyString) then (s1, calls1, NothingToSend)
      else
        let '(s2, calls2, d) := sendAIMessage g2 w s1 r in
        (s2, calls1 ++ calls2, d)
  end.

End outside.

End Participant.

(** ** Stand-ins for the outside, used to run the model on sample inputs *)

Module Samples.
Import SignMessage.

(** A wallet that answers with the key and the message it was given; like
    a real signature scheme it gives different answers for different
    messages. *)
Definition echo_wallet (privateKey messageString : string) : outcome string :=
  Returned (privateKey +:+ ":" +:+ messageString).

(** Depth of open groups at the end of a pattern, [None] when a group is
    closed that was never opened. *)
Fixpoint group_depth (pattern : string) (depth : nat) : option nat :=
  match pattern with
  | EmptyString => Some depth
  | String c rest =>
      if decide (c = Ascii.ascii_of_N 40) then group_depth rest (S depth)
      else if decide (c = Ascii.ascii_of_N 41) then
        match depth with
        | O => None
        | S d => group_depth rest d
        end
      else group_depth rest depth
  end.

(** A regular expression engine for patterns made of literal characters:
    it rejects a pattern whose groups do not balance, as the JavaScript
    engine does, and keeps the pattern with its flags otherwise. *)
Definition literal_RegExp_new (pattern flags : string) : outcome (string * string) :=
  match group_depth pattern 0 with
  | Some O => Returned (pattern, flags)
  | Some (S _) => Thrown "Invalid regular expression: Unterminated group"
  | None => Thrown "Invalid regular expression: Unmatched ')'"
  end.

(** Replacement of every occurrence of the literal pattern. *)
Fixpoint replace_from (pattern replacement : string) (skip : nat)
    (text : string) : string :=
  match text with
  | EmptyString => EmptyString
  | String c rest =>
      match skip with
      | S k => replace_from pattern replacement k rest
      | O =>
          if String.prefix pattern text && negb (String.eqb pattern EmptyString)
          then replacement +:+
               replace_from pattern replacement (pred (String.length pattern)) rest
          else String c (replace_from pattern replacement 0 rest)
      end
  end.

Definition literal_replace (text : string) (regex : string * string)
    (replacement : string) : string :=
  replace_from regex.1 replacement 0 text.

(** A debater's identity and the client built from it at clock 0. *)
Definition alice : AgentClient.identity :=
  {| AgentClient.walletAddress := "0xA11CE"; AgentClient.agentNumericId := 50;
     AgentClient.privateKey := "key-50";
     AgentClient.endpoint := "http://localhost:3000" |}.

Definition quiet : AgentClient.world :=
  {| AgentClient.now := 1700000000000; AgentClient.reply := None;
     AgentClient.answers := []; AgentClient.validated := true;
     AgentClient.round := Thrown "Network Error" |}.

(** A world in which the generator answers, the backend accepts every post
    and the round lookup finds round 578. *)
Definition friendly : AgentClient.world :=
  {| AgentClient.now := 1700000000000; AgentClient.reply := Some "I disagree.";
     AgentClient.answers := [AgentClient.Responded 200];
     AgentClient.validated := true;
     AgentClient.round :=
       Returned {| AgentClient.success := true;
                   AgentClient.data_id := Some 578;
                   AgentClient.error := None |} |}.

(** An [AGENT_MESSAGE] of agent [from] stamped [ts]. *)
Definition agent_message (ts from : Z) (text : string) : inbound :=
  Inbound (Some AGENT_MESSAGE)
    (Some (JObj [("timestamp", JNum ts); ("roomId", JNum 290);
                 ("roundId", JNum 578); ("agentId", JNum from);
                 ("text", JStr text)])).

(** A moderator and three debaters, every client in place. *)
Definition participant (n : string) (gm : bool) (id : Z) : DebateOrchestrator.runtime :=
  {| DebateOrchestrator.name := n;
     DebateOrchestrator.agentRole := AgentRole.Typed (if gm then "gm" else "agent");
     DebateOrchestrator.agentId := Some id;
     DebateOrchestrator.has_client := true |}.

Definition panel : list DebateOrchestrator.runtime :=
  [participant "A" false 50; participant "M" true 51;
   participant "B" false 56; participant "C" false 57].

(** A turn whose first run ends with [sent]. *)
Definition plain_turn (sent : bool) : DebateOrchestrator.turn :=
  {| DebateOrchestrator.jitter := 1234;
     DebateOrchestrator.tries :=
       λ _, {| DebateOrchestrator.elapsed := 800;
               DebateOrchestrator.ended := DebateOrchestrator.Ok sent |};
     DebateOrchestrator.stop_called := false |}.

(** A turn whose operation throws an error that is not a rate limit. *)
Definition failing_turn : DebateOrchestrator.turn :=
  {| DebateOrchestrator.jitter := 1234;
     DebateOrchestrator.tries :=
       λ _, {| DebateOrchestrator.elapsed := 800;
               DebateOrchestrator.ended :=
                 DebateOrchestrator.Err
                   {| DebateOrchestrator.statusCode := Some 500;
                      DebateOrchestrator.message := "Internal Server Error" |} |};
     DebateOrchestrator.stop_called := false |}.

(** A payload without a timestamp, its fields assembled in two orders. *)
Definition unstamped_a : props := [("text", JStr "hi"); ("roomId", JNum 290)].
Definition unstamped_b : props := [("roomId", JNum 290); ("text", JStr "hi")].

(** The payload of an agent message and the same fields in another order,
    the nested object reordered as well. *)
Definition stamped_a : props :=
  [("timestamp", JNum 1700000000000); ("roomId", JNum 290);
   ("meta", JObj [("lang", JStr "en"); ("tags", JArr [JStr "x"; JNull])]);
   ("text", JStr "hi")].
Definition stamped_b : props :=
  [("text", JStr "hi");
   ("meta", JObj [("tags", JArr [JStr "x"; JNull]); ("lang", JStr "en")]);
   ("roomId", JNum 290); ("timestamp", JNum 1700000000000)].

(** A channel whose first socket is connecting. *)
Definition dialing : SharedWebSocket.t :=
  SharedWebSocket.connect
    (SharedWebSocket.create 0
       {| SharedWebSocket.endpoint := "http://localhost:3000";
          SharedWebSocket.roomId := 290;
          SharedWebSocket.auth_walletAddress := "0xA11CE";
          SharedWebSocket.auth_agentId := 50;
          SharedWebSocket.auth_timestamp := None;
          SharedWebSocket.auth_signature := None |}).

(** History entries and memories, numbered by their timestamp. *)
Definition entry (n : Z) : AgentClient.MessageHistoryEntry :=
  {| AgentClient.timestamp := n; AgentClient.agentId := 56;
     AgentClient.text := "message"; AgentClient.agentName := "Agent 56";
     AgentClient.role := "agent" |}.

Definition memory (n : Z) : PVPVAIIntegration.DebateMemory :=
  {| PVPVAIIntegration.agentId := 56; PVPVAIIntegration.timestamp := n;
     PVPVAIIntegration.text := "message" |}.

Definition nine : list Z := [1; 2; 3; 4; 5; 6; 7; 8; 9].

(** Effects: a silence aimed at a target, and a poison with a given
    pattern. *)
Definition silence (target : string) : PVPVAIIntegration.PvPAction :=
  {| PVPVAIIntegration.actionType := "SILENCE";
     PVPVAIIntegration.targetId := target;
     PVPVAIIntegration.params := JNull |}.

Definition poison (pattern replacement : string) : AgentClient.PvPEffect :=
  {| AgentClient.type := "POISON"; AgentClient.find := pattern;
     AgentClient.replace := replacement; AgentClient.caseSensitive := true |}.

Definition poisoned (pattern : string) : AgentClient.t :=
  AgentClient.handlePvPStatusUpdate (AgentClient.create 0 alice)
    "PVP_ACTION_ENACTED" (poison pattern "og").

(** Alice's client after a successful [setRoomAndRound(290)]. *)
Definition joined : AgentClient.t :=
  AgentClient.run echo_wallet (AgentClient.create 0 alice)
    [(friendly, AgentClient.SetRoomAndRound 290)].

(** The same client once the socket of its channel has opened, and once
    that socket has closed again. *)
Definition connected : AgentClient.t :=
  AgentClient.run echo_wallet joined
    [(friendly, AgentClient.Channel 1 SharedWebSocket.SocketOpen)].

(** The channel of the connected client: its socket is open. *)
Definition open_channel : SharedWebSocket.t :=
  (SharedWebSocket.step (AgentClient.now friendly)
     (default dialing (fst <$> AgentClient.channels joined !! 1%nat))
     SharedWebSocket.SocketOpen).1.

Definition dropped : AgentClient.t :=
  AgentClient.run echo_wallet connected
    [(friendly, AgentClient.Channel 1 SharedWebSocket.SocketClose)].

(** An operation that is rate limited every time. *)
Definition always_throttled : nat → DebateOrchestrator.attempt bool :=
  λ _, {| DebateOrchestrator.elapsed := 300;
          DebateOrchestrator.ended :=
            DebateOrchestrator.Err
              {| DebateOrchestrator.statusCode := Some 429;
                 DebateOrchestrator.message := "Too Many Requests" |} |}.

(** The orchestrator built from the panel, once [initialize(290)] has
    stored the room and the round. *)
Definition initialized : DebateOrchestrator.t :=
  {| DebateOrchestrator.agents :=
       [participant "A" false 50; participant "B" false 56;
        participant "C" false 57];
     DebateOrchestrator.gameMaster := participant "M" true 51;
     DebateOrchestrator.isDebating := false;
     DebateOrchestrator.roomId := Some 290;
     DebateOrchestrator.roundId := Some 578;
     DebateOrchestrator.isRunning := false;
     DebateOrchestrator.lastApiCall := 0;
     DebateOrchestrator.phase := DebateOrchestrator.init;
     DebateOrchestrator.clock := 0 |}.

(** The same orchestrator inside the loop. *)
Definition debating : DebateOrchestrator.t :=
  (DebateOrchestrator.startDebate 3 [] initialized).1.1.1.

(** An iteration in which everybody sends, and one in which the
    generator has nothing for the first debater. *)
Definition everybody_sends : DebateOrchestrator.iteration :=
  {| DebateOrchestrator.gm_turn := plain_turn true;
     DebateOrchestrator.agent_turn := λ _, plain_turn true |}.

Definition first_debater_silent : DebateOrchestrator.iteration :=
  {| DebateOrchestrator.gm_turn := plain_turn true;
     DebateOrchestrator.agent_turn := λ i, plain_turn (negb (Nat.eqb i 0)) |}.

(** One of Alice's own messages, and a message she overhears. *)
Definition own_message : inbound := agent_message 5 50 "hello".
Definition overheard : inbound := agent_message 5 56 "the cat sat".

(** The registry of the integration after a silence for each of two
    targets. *)
Definition two_silences : PVPVAIIntegration.t :=
  PVPVAIIntegration.updatePvPStatus
    (PVPVAIIntegration.updatePvPStatus PVPVAIIntegration.create (silence "56"))
    (silence "57").

(** The envelope Alice posts when she answers in the friendly world. *)
Definition reply_content : props :=
  createMessageContent_agent (AgentClient.now friendly) 290 578 50 "I disagree.".

Definition reply_envelope : envelope :=
  Envelope AGENT_MESSAGE (JObj reply_content)
    (Some ("key-50" +:+ ":" +:+ canonicalize (JObj reply_content)))
    (Some "0xA11CE") (Some (AgentClient.now friendly)).

(** A turn during which [stopDebate()] is called, and iterations in which
    the game master's turn is that one, or one that fails. *)
Definition stopping_turn : DebateOrchestrator.turn :=
  {| DebateOrchestrator.jitter := 1234;
     DebateOrchestrator.tries := DebateOrchestrator.tries (plain_turn true);
     DebateOrchestrator.stop_called := true |}.

Definition gm_stops : DebateOrchestrator.iteration :=
  {| DebateOrchestrator.gm_turn := stopping_turn;
     DebateOrchestrator.agent_turn := λ _, plain_turn true |}.

Definition gm_fails : DebateOrchestrator.iteration :=
  {| DebateOrchestrator.gm_turn := failing_turn;
     DebateOrchestrator.agent_turn := λ _, plain_turn true |}.

(** Two clients, the second of which is connected from the look with
    index [k] on. *)
Definition connects_at (k : nat) : nat → list bool :=
  λ i, [true; bool_decide (k ≤ i)%nat].

(** Every client joins, the game master's reports round 578, and the
    connections are up at the third look. *)
Definition everybody_joins : DebateOrchestrator.joining :=
  {| DebateOrchestrator.gm_joins := Returned (Some 578);
     DebateOrchestrator.agent_joins := λ _, Returned ();
     DebateOrchestrator.statuses := connects_at 2 |}.

(** An environment that holds Alice's key and nothing else, an empty one,
    and a wallet library that knows her key. *)
Definition alice_env : string → option string :=
  λ k, if decide (k = "AGENT_50_PRIVATE_KEY") then Some "key-50" else None.

Definition empty_env : string → option string := λ _, None.

Definition address_of (privateKey : string) : outcome string :=
  if decide (privateKey = "key-50") then Returned "0xa11ce"
  else Thrown "invalid private key".

(** Alice's character, and configurations without and with a key. *)
Definition debater : Participant.Character :=
  {| Participant.agentRole := AgentRole.Typed "agent";
     Participant.eth_wallet_address := Some "0xA11CE";
     Participant.settings_agentId := Some 50 |}.

(** The same character with an [agentRole] that has no [type]. *)
Definition roleless : Participant.Character :=
  {| Participant.agentRole := AgentRole.Untyped;
     Participant.eth_wallet_address := Some "0xA11CE";
     Participant.settings_agentId := Some 50 |}.

Definition plain_config : Participant.Config :=
  {| Participant.endpoint := "http://localhost:3000";
     Participant.walletAddress := EmptyString;
     Participant.creatorId := 1;
     Participant.agentId := None;
     Participant.port := 0;
     Participant.privateKey := None;
     Participant.roomId := None |}.

Definition keyed_config : Participant.Config :=
  {| Participant.endpoint := "http://localhost:3000";
     Participant.walletAddress := EmptyString;
     Participant.creatorId := 1;
     Participant.agentId := None;
     Participant.port := 0;
     Participant.privateKey := Some "key-50";
     Participant.roomId := None |}.

(** Alice's integration as constructed, and once her client has joined. *)
Definition alice_integration : Participant.t :=
  {| Participant.integration := PVPVAIIntegration.create;
     Participant.client := Participant.Agent (AgentClient.create 0 alice) |}.

Definition alice_joined : Participant.t :=
  {| Participant.integration := PVPVAIIntegration.create;
     Participant.client := Participant.Agent joined |}.

(** Two generations, a second apart. *)
Definition first_generation : Participant.generation :=
  {| Participant.entered := 1000; Participant.answer := Returned "Bitcoin is sound." |}.

Definition second_generation : Participant.generation :=
  {| Participant.entered := 2000; Participant.answer := Returned "Indeed." |}.

End Samples.

(* ===================================================================== *)
(** * Part II: properties *)
(* ===================================================================== *)

(** ** Canonical serialization and signatures *)

Section canonical.
Import SignMessage.

(** The order on keys is transitive and total, so a list of properties
    with distinct keys has one sorted arrangement. *)
Lemma ascii_compare_lt_trans a b c :
  Ascii.compare a b = Lt → Ascii.compare b c = Lt → Ascii.compare a c = Lt.
Proof.
  unfold Ascii.compare. rewrite !N.compare_lt_iff. lia.
Qed.

Lemma string_compare_lt_trans s1 : ∀ s2 s3,
  String.compare s1 s2 = Lt → String.compare s2 s3 = Lt →
  String.compare s1 s3 = Lt.
Proof.
  induction s1 as [|a s1 IH]; intros [|b s2] [|c s3]; simpl; try done.
  destruct (Ascii.compare a b) eqn:Hab; try done;
    destruct (Ascii.compare b c) eqn:Hbc; try done; intros H1 H2.
  - apply Ascii.compare_eq_iff in Hab, Hbc. subst.
    assert (Ascii.compare c c = Eq) as ->; [|by eauto].
    unfold Ascii.compare. apply N.compare_refl.
  - apply Ascii.compare_eq_iff in Hab. subst. by rewrite Hbc.
  - apply Ascii.compare_eq_iff in Hbc. subst. by rewrite Hab.
  - by rewrite (ascii_compare_lt_trans _ _ _ Hab Hbc).
Qed.

Lemma string_compare_refl s : String.compare s s = Eq.
Proof.
  pose proof (String.compare_antisym s s) as H.
  by destruct (String.compare s s).
Qed.

Lemma string_leb_trans s1 s2 s3 :
  String.leb s1 s2 = true → String.leb s2 s3 = true → String.leb s1 s3 = true.
Proof.
  unfold String.leb.
  destruct (String.compare s1 s2) eqn:H12; try done;
    destruct (String.compare s2 s3) eqn:H23; try done; intros _ _.
  - apply String.compare_eq_iff in H12, H23. subst.
    by rewrite string_compare_refl.
  - apply String.compare_eq_iff in H12. subst. by rewrite H23.
  - apply String.compare_eq_iff in H23. subst. by rewrite H12.
  - by rewrite (string_compare_lt_trans _ _ _ H12 H23).
Qed.

#[local] Instance key_le_trans : Transitive key_le.
Proof. intros x y z. unfold key_le. apply string_leb_trans. Qed.

#[local] Instance key_le_total : Total key_le.
Proof. intros x y. unfold key_le. apply String.leb_total. Qed.

Lemma obj_get_Some k v (fs : props) : obj_get k fs = Some v → (k, v) ∈ fs.
Proof.
  induction fs as [|[k' v'] fs IH]; simpl; [done|].
  case_decide; intros; simplify_eq; [left | right; auto].
Qed.

Lemma obj_get_elem_of k v (fs : props) :
  NoDup fs.*1 → (k, v) ∈ fs → obj_get k fs = Some v.
Proof.
  induction fs as [|[k' v'] fs IH]; simpl; intros Hnd Hin.
  - by apply elem_of_nil in Hin.
  - apply NoDup_cons in Hnd as [Hk' Hnd]. apply elem_of_cons in Hin as [?|Hin].
    + simplify_eq. by rewrite decide_True.
    + rewrite decide_False; [by apply IH|].
      intros ->. apply Hk'. apply list_elem_of_fmap. by exists (k, v).
Qed.

Lemma NoDup_fst_NoDup {A B} (l : list (A * B)) : NoDup l.*1 → NoDup l.
Proof. apply NoDup_fmap_1. Qed.

Lemma sort_fields_unique (l1 l2 : props) :
  NoDup l1.*1 → l1 ≡ₚ l2 → merge_sort key_le l1 = merge_sort key_le l2.
Proof.
  intros Hnd Hp.
  apply (StronglySorted_unique_strong key_le).
  - intros [k1 v1] [k2 v2] H1 H2 Hle1 Hle2.
    rewrite merge_sort_Permutation in H1. rewrite merge_sort_Permutation, <-Hp in H2.
    unfold key_le in *. simpl in *.
    assert (k1 = k2) as -> by by apply String.leb_antisym.
    f_equal. apply (obj_get_elem_of _ _ _ Hnd) in H1, H2. congruence.
  - apply StronglySorted_merge_sort; apply _.
  - apply StronglySorted_merge_sort; apply _.
  - by rewrite !merge_sort_Permutation.
Qed.


(** Induction on a value, with the hypothesis for every value nested in
    an array or an object. *)
Lemma json_strong_ind (P : json → Prop) :
  P JNull → (∀ b, P (JBool b)) → (∀ n, P (JNum n)) → (∀ s, P (JStr s)) →
  (∀ xs, Forall P xs → P (JArr xs)) →
  (∀ fs, Forall (λ kv : string * json, P kv.2) fs → P (JObj fs)) →
  ∀ v, P v.
Proof.
  intros Hnull Hbool Hnum Hstr Harr Hobj.
  fix IH 1. intros [|b|n|s|xs|fs].
  - exact Hnull.
  - exact (Hbool b).
  - exact (Hnum n).
  - exact (Hstr s).
  - apply Harr. induction xs as [|x xs IHxs]; constructor; [apply IH | apply IHxs].
  - apply Hobj.
    induction fs as [|[k x] fs IHfs]; constructor; [apply IH | apply IHfs].
Qed.

Lemma sorted_field_keys (fs : props) : (sorted_field_of sortObjectKeys <$> fs).*1 = fs.*1.
Proof. induction fs as [|[k x] fs IH]; csimpl; [done|]. by rewrite IH. Qed.

Lemma obj_get_sorted_field k (fs : props) :
  obj_get k (sorted_field_of sortObjectKeys <$> fs) = sortObjectKeys <$> obj_get k fs.
Proof.
  induction fs as [|[k' x] fs IH]; csimpl; [done|]. by case_decide.
Qed.

Lemma obj_get_in_values k v (fs : props) :
  obj_get k fs = Some v → v ∈ fs.*2.
Proof.
  intros H%obj_get_Some. apply list_elem_of_fmap. by exists (k, v).
Qed.

(** The canonical form does not depend on the order of assembly. *)
Lemma sortObjectKeys_same_fields a :
  ∀ b, same_fields a b → sortObjectKeys a = sortObjectKeys b.
Proof.
  induction a as [| | | |xs IH|fs IH] using json_strong_ind;
    intros b' Hs; inversion Hs as [| | | |? ys Hall|? gs Hfs Hgs Hget]; subst;
    simpl; try done.
  - f_equal. clear Hs. revert IH.
    induction Hall as [|x y xs ys Hxy Hall IHall]; intros IH; simpl; [done|].
    apply Forall_cons in IH as [Hx IH]. f_equal; auto.
  - f_equal. change (merge_sort key_le (sorted_field_of sortObjectKeys <$> fs) =
                     merge_sort key_le (sorted_field_of sortObjectKeys <$> gs)).
    assert (∀ k, obj_get k (sorted_field_of sortObjectKeys <$> fs) = obj_get k (sorted_field_of sortObjectKeys <$> gs))
      as Heq.
    { intros k. rewrite !obj_get_sorted_field.
      pose proof (Hget k) as Hk.
      inversion Hk as [v v' Hv Hf Hg|Hf Hg]; simpl; [|done].
      f_equal. rewrite Forall_forall in IH.
      apply (IH (k, v)); [|done]. by apply obj_get_Some. }
    apply sort_fields_unique; [by rewrite sorted_field_keys|].
    apply NoDup_Permutation.
    + apply NoDup_fst_NoDup. by rewrite sorted_field_keys.
    + apply NoDup_fst_NoDup. by rewrite sorted_field_keys.
    + intros [k w]. split; intros Hin.
      * apply obj_get_Some. rewrite <-Heq. apply obj_get_elem_of; [|done].
        by rewrite sorted_field_keys.
      * apply obj_get_Some. rewrite Heq. apply obj_get_elem_of; [|done].
        by rewrite sorted_field_keys.
Qed.




(** Reading and writing properties. *)
Lemma obj_get_None k (fs : props) : obj_get k fs = None ↔ k ∉ fs.*1.
Proof.
  induction fs as [|[k' v] fs IH]; csimpl.
  - split; [intros _; apply not_elem_of_nil | done].
  - rewrite not_elem_of_cons.
    destruct (decide (k' = k)) as [->|Hne].
    + split; [done | by intros [? _]].
    + rewrite IH. split; [intros ?; by split | by intros [_ ?]].
Qed.

Lemma obj_get_obj_set k k' v (fs : props) :
  obj_get k' (obj_set k v fs) = if decide (k = k') then Some v else obj_get k' fs.
Proof.
  induction fs as [|[k0 v0] fs IH]; simpl; [done|].
  destruct (decide (k0 = k)) as [->|Hne]; simpl.
  - by destruct (decide (k = k')).
  - rewrite IH. by destruct (decide (k0 = k')), (decide (k = k')); simplify_eq.
Qed.

Lemma obj_set_keys k v (fs : props) :
  (obj_set k v fs).*1 = if decide (k ∈ fs.*1) then fs.*1 else fs.*1 ++ [k].
Proof.
  induction fs as [|[k0 v0] fs IH]; csimpl.
  - by destruct (decide (k ∈ [])) as [Hin%elem_of_nil|].
  - destruct (decide (k0 = k)) as [->|Hne]; csimpl.
    + rewrite decide_True; [done|left].
    + rewrite IH. destruct (decide (k ∈ fs.*1)) as [Hin|Hin].
      * rewrite decide_True; [done|by right].
      * rewrite decide_False; [done|].
        rewrite not_elem_of_cons. by split.
Qed.

Lemma obj_set_NoDup k v (fs : props) : NoDup fs.*1 → NoDup (obj_set k v fs).*1.
Proof.
  intros Hnd. rewrite obj_set_keys. case_decide as Hin; [done|].
  apply NoDup_app. split_and!; [done| |apply NoDup_singleton].
  intros x Hx ->%list_elem_of_singleton. done.
Qed.

Lemma same_fields_truthy a b : same_fields a b → truthy a = truthy b.
Proof. by destruct 1. Qed.

Lemma same_fields_timestamp (fs gs : props) :
  same_fields (JObj fs) (JObj gs) →
  truthy_opt (obj_get "timestamp" fs) = truthy_opt (obj_get "timestamp" gs).
Proof.
  inversion 1 as [| | | | |? ? _ _ Hget]; subst.
  destruct (Hget "timestamp") as [v v' Hv|]; simpl; [|done].
  by apply same_fields_truthy.
Qed.

Lemma same_fields_stamped now (fs gs : props) :
  same_fields (JObj fs) (JObj gs) →
  same_fields (JObj (stamped now fs)) (JObj (stamped now gs)).
Proof.
  intros Hs. unfold stamped. rewrite <-(same_fields_timestamp _ _ Hs).
  destruct (truthy_opt (obj_get "timestamp" fs)); [done|].
  inversion Hs as [| | | | |? ? Hfs Hgs Hget]; subst.
  constructor; [by apply obj_set_NoDup..|].
  intros k. rewrite !obj_get_obj_set. case_decide; [|done].
  repeat constructor.
Qed.

Lemma messageString_same_fields now (fs gs : props) :
  same_fields (JObj fs) (JObj gs) → messageString now fs = messageString now gs.
Proof.
  intros Hs. unfold messageString. f_equal.
  by apply sortObjectKeys_same_fields, same_fields_stamped.
Qed.

Lemma messageString_stamped now now' (fs : props) :
  truthy_opt (obj_get "timestamp" fs) = true →
  messageString now fs = messageString now' fs.
Proof. intros H. unfold messageString, stamped. by rewrite H. Qed.

(** Reordering the fields of an object is one way of building the same
    key/value set. *)
Lemma same_fields_refl v : distinct_keys v → same_fields v v.
Proof.
  induction v as [| | | |xs IH|fs IH] using json_strong_ind;
    inversion 1 as [| | | |? Hall|? Hnd Hall]; subst; constructor; try done.
  - clear H. induction xs as [|x xs IHxs]; [constructor|].
    apply Forall_cons in IH as [? ?], Hall as [? ?]. constructor; auto.
  - intros k. destruct (obj_get k fs) as [v|] eqn:E; constructor.
    apply obj_get_Some in E. rewrite Forall_forall in IH, Hall.
    apply (IH _ E), (Hall _ E).
Qed.

Lemma same_fields_permutation (fs gs : props) :
  distinct_keys (JObj fs) → fs ≡ₚ gs → same_fields (JObj fs) (JObj gs).
Proof.
  inversion 1 as [| | | | |? Hnd Hall]; subst. intros Hp.
  assert (NoDup gs.*1) as Hnd' by by rewrite <-Hp.
  constructor; [done..|]. intros k.
  destruct (obj_get k fs) as [v|] eqn:E.
  - pose proof (obj_get_Some _ _ _ E) as Hin.
    rewrite (obj_get_elem_of k v gs); [|done|by rewrite <-Hp].
    constructor. apply same_fields_refl. rewrite Forall_forall in Hall.
    apply (Hall _ Hin).
  - apply obj_get_None in E. rewrite Hp in E. apply obj_get_None in E.
    rewrite E. constructor.
Qed.

(** From here on the wallet is arbitrary. *)
Section signer_facts.
Variable W : string → string → outcome string.

Lemma signMessage_result now (st : store) r key fs :
  st !! r = Some fs →
  (signMessage W now st r key).2 = rethrown (W key (messageString now fs)).
Proof. intros H. unfold signMessage. by rewrite H. Qed.

(** C1, as amended. Two payloads built from the same key/value sets in
    different orders have the same canonical serialization, byte for
    byte, and at one clock reading [signMessage] hands the same string to
    the wallet for both; signed under one key, the two constructions get
    the same signature provided the payload carries a truthy timestamp or
    both calls read the same clock value. (Without a timestamp
    [signMessage] stamps each construction with the time of its own
    call.) Every reordering of the fields of an object with distinct
    keys is covered, see [same_fields_permutation]. *)
Theorem signMessage_construction_order (fs gs : props) (key : string)
    (now1 now2 : Z) (st1 st2 : store) (r1 r2 : ref) :
  same_fields (JObj fs) (JObj gs) →
  st1 !! r1 = Some fs → st2 !! r2 = Some gs →
  truthy_opt (obj_get "timestamp" fs) = true ∨ now1 = now2 →
  canonicalize (JObj fs) = canonicalize (JObj gs) ∧
  (∀ now, messageString now fs = messageString now gs) ∧
  (signMessage W now1 st1 r1 key).2 = (signMessage W now2 st2 r2 key).2.
Proof.
  intros Hs H1 H2 Hclock. split_and!.
  - unfold canonicalize. f_equal. by apply sortObjectKeys_same_fields.
  - intros now. by apply messageString_same_fields.
  - rewrite (signMessage_result _ _ _ _ _ H1), (signMessage_result _ _ _ _ _ H2).
    do 2 f_equal. rewrite <-(messageString_same_fields now2 _ _ Hs).
    destruct Hclock as [Ht| ->]; [by apply messageString_stamped | done].
Qed.

(** C10. When [content.timestamp] is absent or falsy, zero included,
    [signMessage] writes the current time into the caller's object, leaves
    the other properties and the other objects alone, and signs the
    canonical form of the object as written; when the timestamp is truthy,
    in particular a nonzero number, the store is left as it was and the
    canonical form of the untouched object is signed. *)
Theorem signMessage_timestamp_mutation (now : Z) (st : store) (content : ref)
    (key : string) (fs : props) :
  st !! content = Some fs →
  let st' := (signMessage W now st content key).1 in
  let res := (signMessage W now st content key).2 in
  let fs' := obj_set "timestamp" (JNum now) fs in
  (truthy_opt (obj_get "timestamp" fs) = false →
     st' !! content = Some fs' ∧
     obj_get "timestamp" fs' = Some (JNum now) ∧
     (∀ k, k ≠ "timestamp" → obj_get k fs' = obj_get k fs) ∧
     (∀ r, r ≠ content → st' !! r = st !! r) ∧
     res = rethrown (W key (canonicalize (JObj fs')))) ∧
  (truthy_opt (obj_get "timestamp" fs) = true →
     st' = st ∧ res = rethrown (W key (canonicalize (JObj fs)))) ∧
  (obj_get "timestamp" fs = None ∨ obj_get "timestamp" fs = Some (JNum 0) →
     truthy_opt (obj_get "timestamp" fs) = false) ∧
  (∀ n, n ≠ 0 → obj_get "timestamp" fs = Some (JNum n) →
     truthy_opt (obj_get "timestamp" fs) = true).
Proof.
  intros Hst st' res fs'. subst st' res fs'.
  rewrite (signMessage_result _ _ _ _ _ Hst).
  unfold signMessage, messageString, stamped, canonicalize. rewrite Hst. simpl.
  split_and!.
  - intros ->. split_and!; try done.
    + by rewrite lookup_insert_eq.
    + by rewrite obj_get_obj_set, decide_True.
    + intros k Hk. by rewrite obj_get_obj_set, decide_False.
    + intros r Hr. by rewrite lookup_insert_ne.
  - by intros ->.
  - by intros [-> | ->].
  - intros n Hn ->. simpl. by destruct (Z.eqb_spec n 0).
Qed.

End signer_facts.

(** C1, the claim as stated fails: a payload without a timestamp, built
    in two orders and signed with one key at clock readings 1000 and
    2000, serializes identically but is signed over two different
    strings, so the two signatures differ. *)
Lemma signMessage_unstamped_counterexample :
  same_fields (JObj Samples.unstamped_a) (JObj Samples.unstamped_b) ∧
  canonicalize (JObj Samples.unstamped_a) = canonicalize (JObj Samples.unstamped_b) ∧
  messageString 1000 Samples.unstamped_a ≠ messageString 2000 Samples.unstamped_b ∧
  (signMessage Samples.echo_wallet 1000 {[ 0%nat := Samples.unstamped_a ]} 0%nat "key").2 ≠
  (signMessage Samples.echo_wallet 2000 {[ 0%nat := Samples.unstamped_b ]} 0%nat "key").2.
Proof.
  split_and!.
  - apply same_fields_permutation; [|apply Permutation_swap].
    constructor; [|by repeat constructor].
    by apply (bool_decide_unpack _); vm_compute.
  - by vm_compute.
  - by vm_compute.
  - by vm_compute.
Qed.

Lemma stamped_same_fields :
  same_fields (JObj Samples.stamped_a) (JObj Samples.stamped_b).
Proof.
  assert (Hmeta : same_fields
    (JObj [("lang", JStr "en"); ("tags", JArr [JStr "x"; JNull])])
    (JObj [("tags", JArr [JStr "x"; JNull]); ("lang", JStr "en")])).
  { apply same_fields_permutation; [|apply Permutation_swap].
    constructor; [|by repeat constructor].
    by apply (bool_decide_unpack _); vm_compute. }
  constructor.
  - by apply (bool_decide_unpack _); vm_compute.
  - by apply (bool_decide_unpack _); vm_compute.
  - intros k. unfold Samples.stamped_a, Samples.stamped_b. simpl.
    repeat case_decide; simplify_eq;
      constructor; first [exact Hmeta | by repeat constructor].
Qed.

Lemma signMessage_construction_order_witness :
  canonicalize (JObj Samples.stamped_a) = canonicalize (JObj Samples.stamped_b) ∧
  (∀ now, messageString now Samples.stamped_a = messageString now Samples.stamped_b) ∧
  (signMessage Samples.echo_wallet 1000 {[ 0%nat := Samples.stamped_a ]} 0%nat "key").2 =
  (signMessage Samples.echo_wallet 2000 {[ 7%nat := Samples.stamped_b ]} 7%nat "key").2.
Proof.
  apply (signMessage_construction_order Samples.echo_wallet
           Samples.stamped_a Samples.stamped_b "key" 1000 2000
           {[ 0%nat := Samples.stamped_a ]} {[ 7%nat := Samples.stamped_b ]}
           0%nat 7%nat).
  - exact stamped_same_fields.
  - reflexivity.
  - reflexivity.
  - left. reflexivity.
Defined.

Lemma signMessage_timestamp_mutation_witness :
  (signMessage Samples.echo_wallet 1000 {[ 3%nat := Samples.unstamped_a ]} 3%nat "key").1
    !! 3%nat =
  Some [("text", JStr "hi"); ("roomId", JNum 290); ("timestamp", JNum 1000)].
Proof.
  destruct (signMessage_timestamp_mutation Samples.echo_wallet 1000
              {[ 3%nat := Samples.unstamped_a ]} 3%nat "key" Samples.unstamped_a)
    as [Hfalsy _]; [reflexivity|].
  destruct Hfalsy as [Hwritten _]; [reflexivity|]. exact Hwritten.
Defined.

End canonical.

(** ** Reconnect back-off of the channel *)

Section channel.
Import SharedWebSocket.

Lemma run_app now s evs1 evs2 :
  run now s (evs1 ++ evs2) =
  let (s1, out1) := run now s evs1 in
  let (s2, out2) := run now s1 evs2 in
  (s2, out1 ++ out2).
Proof.
  revert s. induction evs1 as [|ev evs1 IH]; intros s; simpl.
  - by destruct (run now s evs2).
  - destruct (step now s ev) as [s1 out1]. rewrite IH.
    destruct (run now s1 evs1) as [s2 out2].
    destruct (run now s2 evs2) as [s3 out3]. by rewrite app_assoc.
Qed.

Lemma run_cons now s ev evs :
  run now s (ev :: evs) =
  let (s1, out1) := step now s ev in
  let (s2, out2) := run now s1 evs in
  (s2, out1 ++ out2).
Proof. done. Qed.

Lemma scheduled_app out1 out2 :
  scheduled (out1 ++ out2) = scheduled out1 ++ scheduled out2.
Proof. apply omap_app. Qed.

Lemma close_goes_down now s :
  isActive s = true → ws s = Some OPEN ∨ ws s = Some CONNECTING ∨ ws s = Some CLOSING →
  down (reconnectAttempt s) (step now s SocketClose).1 ∧
  scheduled (step now s SocketClose).2 = [reconnect_delay (reconnectAttempt s)].
Proof.
  intros Hact Hws. unfold step, handleDisconnect.
  destruct Hws as [-> | [-> | ->]]; rewrite Hact; simpl;
    (split; [repeat split; eauto | done]).
Qed.

Lemma failed_attempt_down now n s f :
  down n s →
  down (S n) (run now s (failed_attempt f)).1 ∧
  scheduled (run now s (failed_attempt f)).2 = [reconnect_delay (S n)].
Proof.
  intros (Hact & Hws & [d Ht] & Hn).
  destruct f; simpl; rewrite Ht;
    unfold handleDisconnect, with_ws, reconnect, connect; simpl;
    rewrite Hact; simpl; subst n; (split; [repeat split; eauto | done]).
Qed.

Lemma failed_attempts_down now fs : ∀ n s,
  down n s →
  scheduled (run now s (concat (map failed_attempt fs))).2 =
  map reconnect_delay (seq (S n) (length fs)).
Proof.
  induction fs as [|f fs IH]; intros n s Hdown; simpl; [done|].
  rewrite run_app.
  destruct (failed_attempt_down now n s f Hdown) as [Hdown' Hsched].
  destruct (run now s (failed_attempt f)) as [s1 out1]. simpl in *.
  specialize (IH (S n) s1 Hdown').
  destruct (run now s1 (concat (map failed_attempt fs))) as [s2 out2].
  simpl in *. by rewrite scheduled_app, Hsched, IH.
Qed.

Lemma reconnect_delay_double n :
  reconnect_delay (S n) = Z.min (2 * reconnect_delay n) MAX_RECONNECT_DELAY.
Proof.
  unfold reconnect_delay, MAX_RECONNECT_DELAY.
  rewrite Nat2Z.inj_succ, Z.pow_succ_r by lia.
  assert (0 < 2 ^ Z.of_nat n) by (apply Z.pow_pos_nonneg; lia). lia.
Qed.

Lemma reconnect_delay_bound n : 1000 ≤ reconnect_delay n ≤ MAX_RECONNECT_DELAY.
Proof.
  unfold reconnect_delay, MAX_RECONNECT_DELAY.
  assert (0 < 2 ^ Z.of_nat n) by (apply Z.pow_pos_nonneg; lia). lia.
Qed.

Lemma step_scheduled_bound now s ev :
  Forall (λ d, 1000 ≤ d ≤ MAX_RECONNECT_DELAY) (scheduled (step now s ev).2).
Proof.
  assert (Hd : Forall (λ d, 1000 ≤ d ≤ MAX_RECONNECT_DELAY)
                 (scheduled (handleDisconnect s).2)).
  { unfold handleDisconnect. destruct (isActive s); simpl; [|done].
    constructor; [apply reconnect_delay_bound|done]. }
  destruct ev; unfold step, handleMessage, heartbeat_tick, on_open, subscribeToRoom;
    repeat (case_match || case_decide); simpl; try done.
Qed.

Lemma run_scheduled_bound now evs : ∀ s,
  Forall (λ d, 1000 ≤ d ≤ MAX_RECONNECT_DELAY) (scheduled (run now s evs).2).
Proof.
  induction evs as [|ev evs IH]; intros s; [done|]. rewrite run_cons.
  pose proof (step_scheduled_bound now s ev) as Hstep.
  destruct (step now s ev) as [s1 out1]. specialize (IH s1).
  destruct (run now s1 evs) as [s2 out2]. simpl in *.
  rewrite scheduled_app. by apply Forall_app.
Qed.

(** C3. From a freshly opened connection, a drop followed by any number
    of failed reconnect attempts arms the reconnect timer with the delays
    1000, 2000, 4000, ..., each the double of the one before and none
    above 30000; a successful open resets the attempt counter to zero,
    so that the next delay is 1000 again. Whatever the events, no delay
    the channel ever arms is below 1000 or above 30000. *)
Theorem reconnect_backoff_delays (now : Z) (s : t) (fs : list failure) :
  isActive s = true → ws s = Some CONNECTING →
  let opened := (step now s SocketOpen).1 in
  reconnectAttempt opened = 0%nat ∧
  scheduled (run now opened (outage fs)).2 =
    map reconnect_delay (seq 0 (S (length fs))) ∧
  scheduled (step now opened SocketClose).2 = [1000] ∧
  map reconnect_delay [0; 1; 2]%nat = [1000; 2000; 4000] ∧
  (∀ n, reconnect_delay (S n) = Z.min (2 * reconnect_delay n) 30000) ∧
  (∀ n, reconnect_delay n ≤ 30000) ∧
  (∀ s' evs, Forall (λ d, 1000 ≤ d ≤ 30000) (scheduled (run now s' evs).2)).
Proof.
  intros Hact Hws opened.
  assert (Hopen : isActive opened = true ∧ ws opened = Some OPEN ∧
                  reconnectAttempt opened = 0%nat).
  { subst opened. unfold step. rewrite Hws. simpl. by rewrite Hact. }
  destruct Hopen as (Hact' & Hws' & Hn).
  destruct (close_goes_down now opened Hact' (or_introl Hws')) as [Hdown Hsched].
  rewrite Hn in Hdown, Hsched.
  split_and!; [done| |done|done|apply reconnect_delay_double|
               apply reconnect_delay_bound|intros; apply run_scheduled_bound].
  unfold outage. rewrite run_cons.
  destruct (step now opened SocketClose) as [s1 out1]. simpl in Hdown, Hsched.
  pose proof (failed_attempts_down now fs 0 s1 Hdown) as Hrest.
  destruct (run now s1 (concat (map failed_attempt fs))) as [s2 out2].
  simpl in *. by rewrite scheduled_app, Hsched, Hrest.
Qed.

Lemma reconnect_backoff_delays_witness :
  scheduled
    (run 0 (step 0 Samples.dialing SocketOpen).1
       (outage [Refused; TimedOut; Refused; Refused; TimedOut; Refused])).2 =
  [1000; 2000; 4000; 8000; 16000; 30000; 30000].
Proof.
  destruct (reconnect_backoff_delays 0 Samples.dialing
              [Refused; TimedOut; Refused; Refused; TimedOut; Refused])
    as (_ & Hdelays & _); [reflexivity|reflexivity|].
  exact Hdelays.
Defined.

End channel.

(** ** The effect registries and the Poison overlay *)

Section registry.

(** C7, as amended. Each registry holds one record per key and the
    latest activation replaces the one before. [AgentClient] keys by the
    type of the action: two activations of a type leave one record for
    it, the second; a removal for a type without a record changes
    nothing. [PVPVAIIntegration] keys by the target of the action: two
    activations for a target leave one record for it, the second; a
    removal for a target without a record changes nothing. *)
Theorem effect_registry_upsert_by_key
    (s : AgentClient.t) (a1 a2 : AgentClient.PvPEffect)
    (p : PVPVAIIntegration.t) (b1 b2 : PVPVAIIntegration.PvPAction) :
  AgentClient.type a1 = AgentClient.type a2 →
  PVPVAIIntegration.targetId b1 = PVPVAIIntegration.targetId b2 →
  PVPVAIIntegration.actionType b1 ≠ EmptyString →
  PVPVAIIntegration.actionType b2 ≠ EmptyString →
  let T := AgentClient.type a2 in
  let s2 :=
    AgentClient.handlePvPStatusUpdate
      (AgentClient.handlePvPStatusUpdate s "PVP_ACTION_ENACTED" a1)
      "PVP_ACTION_ENACTED" a2 in
  let p2 :=
    PVPVAIIntegration.updatePvPStatus (PVPVAIIntegration.updatePvPStatus p b1) b2 in
  (AgentClient.activePvPEffects s2 = <[T := a2]> (AgentClient.activePvPEffects s) ∧
   AgentClient.activePvPEffects s2 !! T = Some a2 ∧
   (AgentClient.activePvPEffects s !! T = None →
    AgentClient.handlePvPStatusUpdate s "PVP_STATUS_REMOVED" a2 = s)) ∧
  (PVPVAIIntegration.activePvPEffects p2 =
     <[PVPVAIIntegration.targetId b2 := b2]> (PVPVAIIntegration.activePvPEffects p) ∧
   PVPVAIIntegration.activePvPEffects p2 !! PVPVAIIntegration.targetId b2 = Some b2 ∧
   (∀ gone,
      PVPVAIIntegration.actionType gone = EmptyString →
      PVPVAIIntegration.activePvPEffects p !! PVPVAIIntegration.targetId gone = None →
      PVPVAIIntegration.updatePvPStatus p gone = p)).
Proof.
  intros Htype Htarget Hb1 Hb2 T s2 p2. subst T s2 p2. split.
  - unfold AgentClient.handlePvPStatusUpdate. simpl. rewrite Htype.
    split_and!.
    + by rewrite insert_insert_eq.
    + by rewrite lookup_insert_eq.
    + intros Hnone. rewrite delete_id by done. by destruct s.
  - unfold PVPVAIIntegration.updatePvPStatus. simpl.
    rewrite !(proj2 (String.eqb_neq _ _)) by done. simpl. rewrite Htarget.
    split_and!.
    + by rewrite insert_insert_eq.
    + by rewrite lookup_insert_eq.
    + intros gone -> Hnone. simpl. rewrite delete_id by done. by destruct p.
Qed.

(** C7, the claim as stated fails on the registry of
    [PVPVAIIntegration]: two activations of the type SILENCE, for the
    targets 56 and 57, leave two records of that type. *)
Lemma updatePvPStatus_two_records_counterexample :
  PVPVAIIntegration.activePvPEffects Samples.two_silences !! "56" =
    Some (Samples.silence "56") ∧
  PVPVAIIntegration.activePvPEffects Samples.two_silences !! "57" =
    Some (Samples.silence "57") ∧
  PVPVAIIntegration.actionType (Samples.silence "56") =
    PVPVAIIntegration.actionType (Samples.silence "57") ∧
  size (PVPVAIIntegration.activePvPEffects Samples.two_silences) = 2%nat.
Proof. by vm_compute. Qed.

Lemma effect_registry_upsert_by_key_witness :
  AgentClient.activePvPEffects
    (AgentClient.handlePvPStatusUpdate (Samples.poisoned "cat")
       "PVP_ACTION_ENACTED" (Samples.poison "at" "og")) !! "POISON" =
  Some (Samples.poison "at" "og").
Proof.
  destruct (effect_registry_upsert_by_key (AgentClient.create 0 Samples.alice)
              (Samples.poison "cat" "og") (Samples.poison "at" "og")
              PVPVAIIntegration.create (Samples.silence "56") (Samples.silence "56"))
    as [(_ & Hlatest & _) _]; [reflexivity|reflexivity|done|done|].
  exact Hlatest.
Defined.

End registry.

Section poison.
Import AgentClient.
Variable RegExp : Type.
Variable RegExp_new : string → string → outcome RegExp.
Variable String_replace : string → RegExp → string → string.

(** C8, as amended. With a Poison effect active and a non-empty text,
    the overlay does what the regular expression engine does: when the
    engine accepts the pattern, the text is replaced and nothing is
    raised; when the engine rejects the pattern, its exception leaves
    [applyPoisonEffect] and [applyPvPEffects] uncaught. *)
Theorem applyPvPEffects_poison (s : t) (message : inbound) (effect : PvPEffect)
    (fs : props) (text : string) :
  activePvPEffects s !! "POISON" = Some effect →
  in_content message = Some (JObj fs) →
  obj_get "text" fs = Some (JStr text) → text ≠ EmptyString →
  match RegExp_new (find effect) (if caseSensitive effect then "g" else "gi") with
  | Thrown m =>
      applyPoisonEffect RegExp RegExp_new String_replace text effect = Thrown m ∧
      applyPvPEffects RegExp RegExp_new String_replace s message = Thrown m
  | Returned regex =>
      let text' := String_replace text regex (replace effect) in
      applyPoisonEffect RegExp RegExp_new String_replace text effect = Returned text' ∧
      applyPvPEffects RegExp RegExp_new String_replace s message =
        Returned (Inbound (in_type message)
                    (Some (JObj (obj_set "text" (JStr text') fs))))
  end.
Proof.
  intros Hpoison Hcontent Htext Hne.
  unfold applyPvPEffects, applyPoisonEffect. rewrite Hpoison, Hcontent. simpl.
  rewrite Htext. simpl.
  rewrite (proj2 (String.eqb_neq _ _)) by done. simpl.
  by destruct (RegExp_new _ _).
Qed.

Lemma applyPvPEffects_no_poison (s : t) (message : inbound) :
  activePvPEffects s !! "POISON" = None →
  applyPvPEffects RegExp RegExp_new String_replace s message = Returned message.
Proof. intros H. unfold applyPvPEffects. by rewrite H. Qed.

End poison.

(** C8, the claim as stated fails: with a pattern that opens a group and
    never closes it, the construction of the regular expression throws,
    and the overlay throws with it instead of handing the message back
    unchanged. *)
Lemma applyPvPEffects_malformed_pattern_counterexample :
  AgentClient.applyPvPEffects (string * string) Samples.literal_RegExp_new
    Samples.literal_replace (Samples.poisoned "(") Samples.overheard =
    Thrown "Invalid regular expression: Unterminated group" ∧
  AgentClient.applyPvPEffects (string * string) Samples.literal_RegExp_new
    Samples.literal_replace (Samples.poisoned "(") Samples.overheard ≠
    Returned Samples.overheard.
Proof. split; by vm_compute. Qed.

Lemma applyPvPEffects_poison_witness :
  AgentClient.applyPoisonEffect (string * string) Samples.literal_RegExp_new
    Samples.literal_replace "the cat sat" (Samples.poison "at" "og") =
  Returned "the cog sog".
Proof.
  pose proof (applyPvPEffects_poison (string * string) Samples.literal_RegExp_new
                Samples.literal_replace (Samples.poisoned "at")
                Samples.overheard
                (Samples.poison "at" "og")
                [("timestamp", JNum 5); ("roomId", JNum 290);
                 ("roundId", JNum 578); ("agentId", JNum 56);
                 ("text", JStr "the cat sat")]
                "the cat sat" eq_refl eq_refl eq_refl) as H.
  simpl in H. destruct H as [H _]; [done|]. exact H.
Defined.

(** ** The participant client *)

Section client.
Import AgentClient.
Variable W : string → string → outcome string.

Lemma grows_refl s : grows s s [].
Proof. unfold grows. by rewrite app_nil_r. Qed.

(** Closes a goal about a handler that adds nothing to the outbox. *)
Ltac silent :=
  exists []; split_and!;
  [apply grows_refl | unfold replies; simpl; lia | done ..].

Lemma grows_trans s1 s2 s3 out1 out2 :
  grows s1 s2 out1 → grows s2 s3 out2 → grows s1 s3 (out1 ++ out2).
Proof.
  unfold grows. intros (?&?&?&?&?&?&?&?&?&Ho1) (?&?&?&?&?&?&?&?&?&Ho2).
  split_and!; try congruence; [set_solver|]. by rewrite Ho2, Ho1, app_assoc.
Qed.

Lemma replies_app out1 out2 : replies (out1 ++ out2) = (replies out1 + replies out2)%nat.
Proof. unfold replies. by rewrite filter_app, length_app. Qed.

Lemma replies_cons_rejected e a out :
  accepted (Post e a) = false → replies (Post e a :: out) = replies out.
Proof.
  intros H. unfold replies. rewrite filter_cons_False; [done|]. by rewrite H.
Qed.

Lemma post_loop_replies e ans : ∀ retries, (replies (post_loop e ans retries).1 ≤ 1)%nat.
Proof.
  induction ans as [|a ans IH]; intros retries; simpl; [unfold replies; simpl; lia|].
  assert (Hthrown : ∀ a', accepted (Post e a') = false →
    (replies (if decide (S retries = 3%nat)
              then ([Post e a'], Raised "Request failed")
              else let (out, r) := post_loop e ans (S retries) in
                   (Post e a' :: out, r)).1 ≤ 1)%nat).
  { intros a' Ha'. case_decide.
    - simpl. rewrite replies_cons_rejected by done. unfold replies. simpl. lia.
    - specialize (IH (S retries)). destruct (post_loop e ans (S retries)).
      simpl in *. by rewrite replies_cons_rejected. }
  destruct a as [status|]; [|by apply Hthrown].
  destruct (decide (200 ≤ status < 300)) as [Hrange|Hrange];
    [|apply Hthrown; simpl; apply bool_decide_eq_false; lia].
  destruct (decide (status = 200)) as [H200|H200].
  - subst. by vm_compute.
  - specialize (IH retries). destruct (post_loop e ans retries). simpl in *.
    rewrite replies_cons_rejected; [done|]. simpl. by apply bool_decide_eq_false.
Qed.

Lemma emit_grows s out : grows s (emit s out) out.
Proof. by destruct s. Qed.

Lemma sendAIMessage_grows w s text :
  ∃ out, grows s (sendAIMessage W w s text).1 out ∧ (replies out ≤ 1)%nat ∧
         (roundId s = None → out = []).
Proof.
  unfold sendAIMessage.
  destruct (roomId s) as [room|] eqn:Hroom, (roundId s) as [rnd|] eqn:Hround;
    try (silent).
  destruct (unset (Some room) || unset (Some rnd));
    [silent|].
  destruct (SignMessage.sign_fresh _ _ _ _);
    [|silent].
  pose proof (post_loop_replies
    (Envelope AGENT_MESSAGE
       (JObj (SignMessage.createMessageContent_agent (now w) room rnd
                (agentNumericId (ident s)) text))
       (Some a) (Some (walletAddress (ident s))) (Some (now w)))
    (answers w) 0) as Hrep.
  destruct (post_loop _ _ _) as [out r]. exists out. simpl in *.
  split_and!; [apply emit_grows|done|done].
Qed.

Lemma sendAIMessage_unresolved w s text :
  roundId s = None →
  sendAIMessage W w s text =
    (s, Raised "Agent not initialized with room and round IDs").
Proof. intros H. unfold sendAIMessage. rewrite H. by destruct (roomId s). Qed.

Lemma consult_grows w s message : grows s (consult w s message).1 [].
Proof.
  unfold consult. destruct message as [v|]; [|apply grows_refl].
  destruct (truthy v); [|apply grows_refl]. destruct s. unfold grows. simpl.
  by rewrite app_nil_r.
Qed.

Lemma respond_grows w s response :
  ∃ out, grows s (respond W w s response) out ∧ (replies out ≤ 1)%nat ∧
         (roundId s = None → out = []).
Proof.
  unfold respond. destruct response as [r|];
    [|silent].
  case_decide; [silent|].
  apply sendAIMessage_grows.
Qed.

Lemma consult_respond_grows w s message :
  ∃ out,
    grows s (let (s2, response) := consult w s message in respond W w s2 response) out ∧
    (replies out ≤ 1)%nat ∧ (roundId s = None → out = []).
Proof.
  pose proof (consult_grows w s message) as Hc.
  destruct (consult w s message) as [s2 response]. simpl in Hc.
  destruct (respond_grows w s2 response) as (out & Hg & Hrep & Hnone).
  exists out. split_and!; [|done|].
  - by apply (grows_trans s s2 _ [] out).
  - intros Hr. apply Hnone. destruct Hc as (_&_&->&_). done.
Qed.

Lemma with_processedMessages_grows s pm :
  processedMessages s ⊆ pm → grows s (with_processedMessages s pm) [].
Proof. intros H. destruct s. unfold grows. simpl in *. by rewrite app_nil_r. Qed.

Lemma handleAgentMessage_grows w s message :
  ∃ out, grows s (handleAgentMessage W w s message) out ∧ (replies out ≤ 1)%nat ∧
         (roundId s = None → out = []) ∧
         messageId message ∈ processedMessages (handleAgentMessage W w s message).
Proof.
  unfold handleAgentMessage. case_decide as Hseen.
  { silent. }
  set (s1 := with_processedMessages s ({[messageId message]} ∪ processedMessages s)).
  assert (grows s s1 []) as Hs1 by (apply with_processedMessages_grows; set_solver).
  assert (messageId message ∈ processedMessages s1) as Hin
    by (destruct s; simpl; set_solver).
  assert (Hgo : ∃ out,
    grows s (let (s2, response) := consult w s1 (field "text" (in_content message)) in
             respond W w s2 response) out ∧ (replies out ≤ 1)%nat ∧
    (roundId s = None → out = []) ∧
    messageId message ∈ processedMessages
      (let (s2, response) := consult w s1 (field "text" (in_content message)) in
       respond W w s2 response)).
  { destruct (consult_respond_grows w s1 (field "text" (in_content message)))
      as (out & Hg & Hrep & Hnone).
    exists out. split_and!; [by apply (grows_trans s s1 _ [] out)|done| |].
    - intros Hr. apply Hnone. destruct Hs1 as (_&_&->&_). done.
    - destruct Hg as (_&_&_&_&_&_&_&_&Hsub&_). by apply Hsub. }
  destruct (field "agentId" (in_content message)) as [[| |n| | |]|]; try done.
  case_decide; [|done].
  exists []. split_and!; [done|unfold replies; simpl; lia|done|done].
Qed.

Lemma handleAgentMessage_seen w s message :
  messageId message ∈ processedMessages s → handleAgentMessage W w s message = s.
Proof. intros H. unfold handleAgentMessage. by rewrite decide_True. Qed.

Lemma handleObservation_grows w s message :
  ∃ out, grows s (handleObservation W w s message) out ∧ (replies out ≤ 1)%nat ∧
         (roundId s = None → out = []).
Proof.
  unfold handleObservation.
  destruct (validated w);
    [|silent].
  destruct (field "roundId" (in_content message)) as [[| |n| | |]|];
    try (silent).
  destruct (roundId s) as [r|] eqn:Hr;
    [|silent].
  case_decide; [|silent].
  match goal with
  | |- context [consult w s ?m] =>
      destruct (consult_respond_grows w s m) as (out & Hg & Hrep & _)
  end.
  exists out. by split_and!.
Qed.

Lemma send_idle ch e : SharedWebSocket.idle ch → SharedWebSocket.send ch e = [].
Proof. intros (Hws&_). unfold SharedWebSocket.send. by rewrite Hws. Qed.

Lemma wsClient_send_grows s e :
  ∃ out, grows s (wsClient_send s e) out ∧ replies out = 0%nat ∧
         (Forall (λ c : SharedWebSocket.t * onClose, SharedWebSocket.idle c.1) (channels s) →
          out = []).
Proof.
  unfold wsClient_send.
  destruct (channels s !! wsClient s) as [[ch h]|] eqn:Hch;
    [|silent].
  eexists. split_and!; [apply emit_grows| |].
  - unfold SharedWebSocket.send. by case_decide.
  - intros Hidle. rewrite Forall_forall in Hidle.
    rewrite (send_idle ch); [done|].
    apply (Hidle (ch, h)). by eapply list_elem_of_lookup_2.
Qed.

Lemma handleWebSocketMessage_grows w s data :
  ∃ out, grows s (handleWebSocketMessage W w s data) out ∧ (replies out ≤ 1)%nat ∧
         (unresolved s → out = []).
Proof.
  unfold handleWebSocketMessage.
  destruct data as [message|];
    [|silent].
  destruct (in_type message) as [[| | | | |]|];
    try (silent).
  - destruct (SignMessage.sign_fresh _ _ _ _);
      [|silent].
    match goal with
    | |- context [wsClient_send s ?e] =>
        destruct (wsClient_send_grows s e) as (out & Hg & Hrep & Hidle)
    end.
    exists out. split_and!; [done|lia|]. intros (_&_&_&H). by apply Hidle.
  - destruct (handleAgentMessage_grows w s message) as (out & Hg & Hrep & Hnone & _).
    exists out. split_and!; [done|done|]. intros (H&_). by apply Hnone.
  - destruct (in_content message) as [[| | | | |fs]|];
      try (silent).
    destruct (consult_respond_grows w s (obj_get "message" fs))
      as (out & Hg & Hrep & Hnone).
    exists out. split_and!; [done|done|]. intros (H&_). by apply Hnone.
  - destruct (handleObservation_grows w s message) as (out & Hg & Hrep & Hnone).
    exists out. split_and!; [done|done|]. intros (H&_). by apply Hnone.
Qed.


Lemma absorb_frame w i h s eff :
  roundId (absorb W w i h s eff) = roundId s ∧
  messageContext (absorb W w i h s eff) = messageContext s ∧
  processedMessages s ⊆ processedMessages (absorb W w i h s eff).
Proof.
  destruct eff as [e|d|data| |]; simpl.
  - destruct s; split_and!; [done..|set_solver].
  - split_and!; [done..|set_solver].
  - destruct (handleWebSocketMessage_grows w s data)
      as (out & (_&_&Hr&_&_&_&_&Hm&Hp&_) & _). done.
  - split_and!; [done..|set_solver].
  - destruct h; [split_and!; [done..|set_solver]|].
    destruct (isActive s); destruct s; split_and!; (done || set_solver).
Qed.

Lemma absorbs_frame w i h effs : ∀ s,
  roundId (foldl (absorb W w i h) s effs) = roundId s ∧
  messageContext (foldl (absorb W w i h) s effs) = messageContext s ∧
  processedMessages s ⊆ processedMessages (foldl (absorb W w i h) s effs).
Proof.
  induction effs as [|eff effs IH]; intros s; simpl; [done|].
  destruct (IH (absorb W w i h s eff)) as (-> & -> & Hp).
  destruct (absorb_frame w i h s eff) as (-> & -> & Hp').
  split_and!; [done..|by etrans].
Qed.

Lemma setRoomAndRound_frame w s room :
  processedMessages (setRoomAndRound W w s room).1 = processedMessages s ∧
  messageContext (setRoomAndRound W w s room).1 = messageContext s ∧
  outbox (setRoomAndRound W w s room).1 = outbox s ∧
  (roundId (setRoomAndRound W w s room).1 = None →
   (setRoomAndRound W w s room).1 = with_roomId s (Some room) ∧ roundId s = None).
Proof.
  unfold setRoomAndRound.
  destruct (getActiveRound (round w)) as [activeRound|m]; [|by destruct s].
  destruct (activeRound =? 0); [by destruct s|].
  destruct (SignMessage.sign_fresh _ _ _ _); by destruct s.
Qed.

Lemma step_frame s w a :
  processedMessages s ⊆ processedMessages (step W s (w, a)) ∧
  messageContext (step W s (w, a)) = messageContext s ∧
  (roundId (step W s (w, a)) = None → roundId s = None).
Proof.
  destruct a as [room|text| |data|i ev|]; simpl.
  - destruct (setRoomAndRound_frame w s room) as (-> & -> & _ & H).
    split_and!; [done..|]. intros Hr. by apply H.
  - destruct (sendAIMessage_grows w s text)
      as (out & (_&_&Hr&_&_&_&_&Hm&Hp&_) & _). by rewrite Hr.
  - unfold stop. destruct s; split_and!; (done || set_solver).
  - destruct (handleWebSocketMessage_grows w s data)
      as (out & (_&_&Hr&_&_&_&_&Hm&Hp&_) & _). by rewrite Hr.
  - destruct (channels s !! i) as [[ch h]|]; [|split_and!; [set_solver|done..]].
    destruct (SharedWebSocket.step (now w) ch ev) as [ch' effs].
    destruct (absorbs_frame w i h effs
                (with_channels s (<[i:=(ch', h)]> (channels s)))) as (-> & -> & Hp).
    destruct s; split_and!; (done || set_solver).
  - destruct (reconnects s) as [|n]; [split_and!; [set_solver|done..]|].
    destruct (channels s !! wsClient s) as [[ch h]|];
      [|split_and!; [set_solver|done..]].
    destruct s; split_and!; (done || set_solver).
Qed.

Lemma run_snoc s was wa : run W s (was ++ [wa]) = step W (run W s was) wa.
Proof. unfold run. by rewrite foldl_app. Qed.

Lemma run_processed_mono was : ∀ s,
  processedMessages s ⊆ processedMessages (run W s was).
Proof.
  induction was as [|[w a] was IH]; intros s; simpl; [done|].
  etrans; [apply (step_frame s w a)|apply IH].
Qed.

Lemma idle_step now ch ev :
  SharedWebSocket.idle ch → SharedWebSocket.step now ch ev = (ch, []).
Proof.
  intros (Hws & Htimer & Hbeat & Htimeout).
  destruct ev; unfold SharedWebSocket.step;
    rewrite ?Hws, ?Htimer, ?Hbeat, ?Htimeout; done.
Qed.

Lemma close_idle ch : SharedWebSocket.idle ch → SharedWebSocket.idle (SharedWebSocket.close ch).
Proof.
  intros (Hws & Htimer & Hbeat & Htimeout).
  unfold SharedWebSocket.idle, SharedWebSocket.close. simpl. by rewrite Hws.
Qed.

Lemma close_wsClient_idle s :
  Forall (λ c : SharedWebSocket.t * onClose, SharedWebSocket.idle c.1) (channels s) →
  Forall (λ c : SharedWebSocket.t * onClose, SharedWebSocket.idle c.1) (close_wsClient s).
Proof.
  intros Hidle. unfold close_wsClient.
  destruct (channels s !! wsClient s) as [[ch h]|] eqn:Hch; [|done].
  apply Forall_insert; [done|]. simpl. apply close_idle.
  rewrite Forall_forall in Hidle. apply (Hidle (ch, h)).
  by eapply list_elem_of_lookup_2.
Qed.

Lemma with_channels_same s : with_channels s (channels s) = s.
Proof. by destruct s. Qed.

Lemma grows_unresolved s s' : grows s s' [] → unresolved s → unresolved s'.
Proof.
  intros (_&_&Hr&Hc&_&Hn&_&_&_&Ho) (?&Hout&?&?). unfold unresolved.
  rewrite Hr, Hc, Hn, Ho, Hout. done.
Qed.

Lemma step_unresolved s w a :
  unresolved s → roundId (step W s (w, a)) = None → unresolved (step W s (w, a)).
Proof.
  intros Hun Hnone. pose proof Hun as (Hr & Hout & Hrec & Hidle).
  destruct a as [room|text| |data|i ev|]; simpl in *.
  - destruct (setRoomAndRound_frame w s room) as (_ & _ & _ & H).
    destruct (H Hnone) as [-> _]. unfold unresolved.
    destruct s; simpl in *; by split_and!.
  - rewrite sendAIMessage_unresolved by done. exact Hun.
  - unfold stop, unresolved. simpl. split_and!; [done..|].
    apply close_wsClient_idle. by destruct s.
  - destruct (handleWebSocketMessage_grows w s data) as (out & Hg & _ & Hquiet).
    rewrite (Hquiet Hun) in Hg. by eapply grows_unresolved.
  - destruct (channels s !! i) as [[ch h]|] eqn:Hch; [|done].
    rewrite idle_step.
    + simpl. rewrite list_insert_id by done. by rewrite with_channels_same.
    + rewrite Forall_forall in Hidle. apply (Hidle (ch, h)).
      by eapply list_elem_of_lookup_2.
  - by rewrite Hrec.
Qed.

Lemma create_unresolved now i : unresolved (create now i).
Proof. unfold unresolved, create. simpl. split_and!; try done. by repeat constructor. Qed.

Lemma run_unresolved was : ∀ s,
  unresolved s → roundId (run W s was) = None → unresolved (run W s was).
Proof.
  induction was as [|[w a] was IH] using rev_ind; intros s Hun Hnone; [done|].
  rewrite run_snoc in *.
  apply step_unresolved; [|done]. apply IH; [done|].
  by apply (step_frame (run W s was) w a).
Qed.

(** C6. Whatever calls, frames, socket events and timers a client has
    seen since it was constructed, as long as no round lookup has
    succeeded its outbox is empty: nothing was written to a socket and
    nothing was posted. In such a state [sendAIMessage] throws before
    signing or posting, the message handler writes nothing, and no single
    further step emits anything unless it resolves the round. *)
Theorem no_envelope_before_round_resolved
    (now : Z) (i : identity) (was : list (world * action)) :
  let s := run W (create now i) was in
  roundId s = None →
  outbox s = [] ∧
  (∀ w text, sendAIMessage W w s text =
               (s, Raised "Agent not initialized with room and round IDs")) ∧
  (∀ w data, outbox (handleWebSocketMessage W w s data) = []) ∧
  (∀ w a, roundId (step W s (w, a)) = None → outbox (step W s (w, a)) = []).
Proof.
  intros s Hnone.
  assert (unresolved s) as Hun by (apply run_unresolved; [apply create_unresolved|done]).
  split_and!.
  - by destruct Hun as (_&?&_).
  - intros w text. by apply sendAIMessage_unresolved.
  - intros w data.
    destruct (handleWebSocketMessage_grows w s data) as (out & Hg & _ & Hquiet).
    rewrite (Hquiet Hun) in Hg. by destruct (grows_unresolved _ _ Hg Hun) as (_&?&_).
  - intros w a Ha. by destruct (step_unresolved s w a Hun Ha) as (_&?&_).
Qed.

(** C5, as amended. Once an [AGENT_MESSAGE] has been handled, a later
    message with the same key is dropped whatever happened in between:
    the client is left exactly as it was, so the generator is not
    consulted and nothing is sent. The first delivery adds at most one
    accepted reply; it adds exactly one when the key is new, the message
    comes from another agent and has a text, the generator answers, room
    and round are set, the wallet signs and the backend answers the
    first post with 200. *)
Theorem handleAgentMessage_duplicate_dropped
    (s : t) (m1 m2 : inbound) (w1 w2 : world) (between : list (world * action)) :
  messageId m1 = messageId m2 →
  let s1 := handleAgentMessage W w1 s m1 in
  let s1' := run W s1 between in
  let s2 := handleAgentMessage W w2 s1' m2 in
  s2 = s1' ∧
  (replies (outbox s) ≤ replies (outbox s1) ≤ S (replies (outbox s)))%nat ∧
  (messageId m1 ∉ processedMessages s →
   field "agentId" (in_content m1) ≠ Some (JNum (agentNumericId (ident s))) →
   truthy_opt (field "text" (in_content m1)) = true →
   (∃ r, reply w1 = Some r ∧ r ≠ EmptyString) →
   unset (roomId s) = false → unset (roundId s) = false →
   (∀ m, ∃ sig, W (privateKey (ident s)) m = Returned sig) →
   (∃ rest, answers w1 = Responded 200 :: rest) →
   replies (outbox s1) = S (replies (outbox s))).
Proof.
  intros Hkey s1 s1' s2.
  destruct (handleAgentMessage_grows w1 s m1) as (out & Hg & Hrep & _ & Hin).
  fold s1 in Hg, Hin. split; [|split].
  - subst s2. apply handleAgentMessage_seen. rewrite <-Hkey.
    by apply (run_processed_mono between s1).
  - destruct Hg as (_&_&_&_&_&_&_&_&_&->). rewrite replies_app. lia.
  - intros Hfresh Hother Htext (r & Hreply & Hr) Hroom Hround Hsign (rest & Hans).
    subst s1. unfold handleAgentMessage. rewrite decide_False by done.
    set (s0 := with_processedMessages s _).
    assert (Hs0 : ident s0 = ident s ∧ roomId s0 = roomId s ∧
                  roundId s0 = roundId s ∧ outbox s0 = outbox s) by by destruct s.
    destruct Hs0 as (Hid & Hrm & Hrd & Hob).
    assert (Hgo : replies (outbox
      (let (s2, response) := consult w1 s0 (field "text" (in_content m1)) in
       respond W w1 s2 response)) = S (replies (outbox s))).
    { unfold consult.
      destruct (field "text" (in_content m1)) as [v|]; [|done]. simpl in Htext.
      rewrite Htext, Hreply. unfold respond. rewrite decide_False by done.
      unfold sendAIMessage. simpl.
      destruct (roomId s) as [room|]; [|done].
      destruct (roundId s) as [rnd|]; [|done].
      rewrite Hroom, Hround. simpl.
      unfold SignMessage.sign_fresh, SignMessage.signMessage.
      rewrite lookup_singleton_eq. simpl.
      destruct (Hsign (SignMessage.messageString (now w1)
        (SignMessage.createMessageContent_agent (now w1) room rnd
           (agentNumericId (ident s)) r))) as [sig ->].
      simpl. rewrite Hans. simpl.
      rewrite replies_app. unfold replies at 2. simpl. lia. }
    destruct (field "agentId" (in_content m1)) as [[| |n| | |]|]; try done.
    rewrite decide_False; [done|]. intros ->. by apply Hother.
Qed.

End client.

(** C5, the claim as stated fails: a client that has joined a round
    receives one of its own messages twice while the generator answers
    and the backend accepts; the two deliveries share their key and no
    reply is produced. *)
Lemma handleAgentMessage_own_message_counterexample :
  in_type Samples.own_message = Some AGENT_MESSAGE ∧
  AgentClient.agentNumericId (AgentClient.ident Samples.joined) = 50 ∧
  AgentClient.replies (AgentClient.outbox Samples.joined) = 0%nat ∧
  AgentClient.replies
    (AgentClient.outbox
       (AgentClient.handleAgentMessage Samples.echo_wallet Samples.friendly
          (AgentClient.handleAgentMessage Samples.echo_wallet Samples.friendly
             Samples.joined Samples.own_message)
          Samples.own_message)) = 0%nat.
Proof. by vm_compute. Qed.

Lemma handleAgentMessage_duplicate_dropped_witness :
  AgentClient.handleAgentMessage Samples.echo_wallet Samples.friendly
    (AgentClient.run Samples.echo_wallet
       (AgentClient.handleAgentMessage Samples.echo_wallet Samples.friendly
          Samples.joined (Samples.agent_message 5 56 "hello"))
       [(Samples.friendly, AgentClient.SendAIMessage "by the way")])
    (Samples.agent_message 5 56 "hello again") =
  AgentClient.run Samples.echo_wallet
    (AgentClient.handleAgentMessage Samples.echo_wallet Samples.friendly
       Samples.joined (Samples.agent_message 5 56 "hello"))
    [(Samples.friendly, AgentClient.SendAIMessage "by the way")].
Proof.
  destruct (handleAgentMessage_duplicate_dropped Samples.echo_wallet
              Samples.joined (Samples.agent_message 5 56 "hello")
              (Samples.agent_message 5 56 "hello again")
              Samples.friendly Samples.friendly
              [(Samples.friendly, AgentClient.SendAIMessage "by the way")])
    as [Hdropped _]; [reflexivity|].
  exact Hdropped.
Defined.

Lemma no_envelope_before_round_resolved_witness :
  AgentClient.outbox
    (AgentClient.run Samples.echo_wallet (AgentClient.create 0 Samples.alice)
       [(Samples.quiet, AgentClient.SetRoomAndRound 290);
        (Samples.friendly, AgentClient.HandleWebSocketMessage
                             (Some (Inbound (Some HEARTBEAT) None)));
        (Samples.friendly, AgentClient.HandleWebSocketMessage
                             (Some (Samples.agent_message 5 56 "hello")));
        (Samples.friendly, AgentClient.Channel 0 SharedWebSocket.SocketOpen);
        (Samples.friendly, AgentClient.SendAIMessage "anyone there?")]) = [].
Proof.
  destruct (no_envelope_before_round_resolved Samples.echo_wallet 0 Samples.alice
              [(Samples.quiet, AgentClient.SetRoomAndRound 290);
               (Samples.friendly, AgentClient.HandleWebSocketMessage
                                    (Some (Inbound (Some HEARTBEAT) None)));
               (Samples.friendly, AgentClient.HandleWebSocketMessage
                                    (Some (Samples.agent_message 5 56 "hello")));
               (Samples.friendly, AgentClient.Channel 0 SharedWebSocket.SocketOpen);
               (Samples.friendly, AgentClient.SendAIMessage "anyone there?")])
    as [Hempty _]; [reflexivity|].
  exact Hempty.
Defined.

(** ** The message context *)

Section context_window.
Context {A : Type}.
Implicit Types (ctx es : list A) (e : A).

(** [shift()] at the bound, then [push(e)], on the list itself. *)
Lemma push_bounded ctx e :
  (length ctx ≤ 8)%nat →
  (if decide (8 ≤ length ctx)%nat then tail ctx else ctx) ++ [e] =
  drop (length ctx + 1 - 8) (ctx ++ [e]).
Proof.
  intros Hlen. case_decide as H8.
  - assert (length ctx = 8%nat) as Hl by lia. rewrite Hl. simpl.
    destruct ctx as [|x ctx]; [done|]. simpl. by rewrite drop_0.
  - replace (length ctx + 1 - 8)%nat with 0%nat by lia. by rewrite drop_0.
Qed.

Lemma push_length ctx e :
  (length ctx ≤ 8)%nat →
  (length ((if decide (8 ≤ length ctx)%nat then tail ctx else ctx) ++ [e]) ≤ 8)%nat.
Proof.
  intros Hlen. rewrite length_app. case_decide; simpl; [|lia].
  destruct ctx; simpl in *; lia.
Qed.

Lemma pushes_bounded es : ∀ ctx,
  (length ctx ≤ 8)%nat →
  foldl (λ c e, (if decide (8 ≤ length c)%nat then tail c else c) ++ [e]) ctx es =
  drop (length (ctx ++ es) - 8) (ctx ++ es).
Proof.
  induction es as [|e es IH]; intros ctx Hlen; simpl.
  - rewrite app_nil_r. replace (length ctx - 8)%nat with 0%nat by lia.
    by rewrite drop_0.
  - rewrite IH by by apply push_length.
    rewrite push_bounded by done.
    rewrite (cons_middle e ctx es), app_assoc.
    set (d := (length ctx + 1 - 8)%nat).
    assert (d ≤ length (ctx ++ [e]))%nat as Hd by (rewrite length_app; simpl; lia).
    replace (drop d (ctx ++ [e]) ++ es) with (drop d ((ctx ++ [e]) ++ es))
      by (by rewrite drop_app_le).
    rewrite drop_drop. f_equal.
    rewrite length_drop. rewrite !length_app in *. simpl in *. lia.
Qed.

End context_window.

Lemma AgentClient_pushes (s : AgentClient.t) es :
  AgentClient.messageContext (foldl AgentClient.updateMessageContext s es) =
  foldl (λ c e, (if decide (8 ≤ length c)%nat then tail c else c) ++ [e])
    (AgentClient.messageContext s) es.
Proof. revert s. induction es as [|e es IH]; intros s; simpl; [done|]. by rewrite IH. Qed.

Lemma PVPVAIIntegration_pushes (s : PVPVAIIntegration.t) es :
  PVPVAIIntegration.messageContext (foldl PVPVAIIntegration.updateMessageContext s es) =
  foldl (λ c e, (if decide (8 ≤ length c)%nat then tail c else c) ++ [e])
    (PVPVAIIntegration.messageContext s) es.
Proof. revert s. induction es as [|e es IH]; intros s; simpl; [done|]. by rewrite IH. Qed.

Lemma drop_overflow {A} (ctx es : list A) :
  (length ctx ≤ 8)%nat → length es = 9%nat →
  drop (length (ctx ++ es) - 8) (ctx ++ es) = drop 1 es.
Proof.
  intros Hlen Hes. rewrite length_app, Hes.
  replace (length ctx + 9 - 8)%nat with (length ctx + 1)%nat by lia.
  by rewrite drop_app_add.
Qed.

(** C4. Pushing nine entries into a context that holds at most eight
    leaves exactly eight, the last eight pushed, in the order they were
    pushed: the oldest entries go first. One push into a context of at
    most eight drops the oldest entry when eight are held and never
    leaves more than eight, and no other step of the client writes the
    context. Both classes behave alike. *)
Theorem updateMessageContext_bounded_fifo
    (s : AgentClient.t) (p : PVPVAIIntegration.t)
    (es : list AgentClient.MessageHistoryEntry)
    (ms : list PVPVAIIntegration.DebateMemory) :
  (length (AgentClient.messageContext s) ≤ 8)%nat →
  (length (PVPVAIIntegration.messageContext p) ≤ 8)%nat →
  length es = 9%nat → length ms = 9%nat →
  let s' := foldl AgentClient.updateMessageContext s es in
  let p' := foldl PVPVAIIntegration.updateMessageContext p ms in
  (AgentClient.messageContext s' = drop 1 es ∧
   length (AgentClient.messageContext s') = 8%nat) ∧
  (PVPVAIIntegration.messageContext p' = drop 1 ms ∧
   length (PVPVAIIntegration.messageContext p') = 8%nat) ∧
  (∀ e, AgentClient.messageContext (AgentClient.updateMessageContext s e) =
          drop (length (AgentClient.messageContext s) + 1 - 8)
            (AgentClient.messageContext s ++ [e]) ∧
        (length (AgentClient.messageContext (AgentClient.updateMessageContext s e)) ≤ 8)%nat) ∧
  (∀ m, PVPVAIIntegration.messageContext (PVPVAIIntegration.updateMessageContext p m) =
          drop (length (PVPVAIIntegration.messageContext p) + 1 - 8)
            (PVPVAIIntegration.messageContext p ++ [m]) ∧
        (length (PVPVAIIntegration.messageContext (PVPVAIIntegration.updateMessageContext p m)) ≤ 8)%nat) ∧
  (∀ W w a, AgentClient.messageContext (AgentClient.step W s (w, a)) =
              AgentClient.messageContext s) ∧
  (∀ action, PVPVAIIntegration.messageContext (PVPVAIIntegration.updatePvPStatus p action) =
               PVPVAIIntegration.messageContext p).
Proof.
  intros Hs Hp Hes Hms s' p'. subst s' p'.
  rewrite AgentClient_pushes, PVPVAIIntegration_pushes, !pushes_bounded by done.
  rewrite !drop_overflow by done.
  split_and!; try done.
  - rewrite length_drop. lia.
  - rewrite length_drop. lia.
  - intros e. split; [by apply push_bounded | by apply push_length].
  - intros m. split; [by apply push_bounded | by apply push_length].
  - intros W w a. by destruct (step_frame W s w a) as (_ & ? & _).
Qed.

Lemma updateMessageContext_bounded_fifo_witness :
  AgentClient.messageContext
    (foldl AgentClient.updateMessageContext
       (AgentClient.updateMessageContext (AgentClient.create 0 Samples.alice)
          (Samples.entry 0))
       (Samples.entry <$> Samples.nine)) =
  Samples.entry <$> [2; 3; 4; 5; 6; 7; 8; 9].
Proof.
  destruct (updateMessageContext_bounded_fifo
              (AgentClient.updateMessageContext (AgentClient.create 0 Samples.alice)
                 (Samples.entry 0))
              PVPVAIIntegration.create
              (Samples.entry <$> Samples.nine) (Samples.memory <$> Samples.nine))
    as ([Hfifo _] & _); [simpl; lia|simpl; lia|reflexivity|reflexivity|].
  exact Hfifo.
Defined.

(** ** Retry with back-off and the turn loop *)

Section retry.
Import DebateOrchestrator.
Context {T : Type}.
Implicit Types (operation : nat → attempt T) (s : t).

Lemma waitForRateLimit_quiet s :
  invocations (waitForRateLimit s).2 = [] ∧ backoffs (waitForRateLimit s).2 = [].
Proof. unfold waitForRateLimit. by case_decide. Qed.

Lemma invocations_app tr1 tr2 :
  invocations (tr1 ++ tr2) = invocations tr1 ++ invocations tr2.
Proof. apply omap_app. Qed.

Lemma backoffs_app tr1 tr2 : backoffs (tr1 ++ tr2) = backoffs tr1 ++ backoffs tr2.
Proof. apply omap_app. Qed.

(** The loop entered at index [i] with every run before [i + k] rate
    limited and run [i + k] final: it makes exactly the runs [i .. i + k],
    backs off [retryDelay * 2^j] after run [j], and ends as run [i + k]. *)
Lemma retry_from_settles operation retries k : ∀ i fuel s,
  (i + k < retries)%nat → (k < fuel)%nat →
  (∀ j, (i ≤ j < i + k)%nat → throttled (operation j)) →
  (S (i + k)%nat = retries ∨ ¬ throttled (operation (i + k)%nat)) →
  let '(_, tr, res) := retry_from operation retries i fuel s in
  res = ended (operation (i + k)%nat) ∧
  invocations tr = seq i (S k) ∧
  backoffs tr = map (λ j, retryDelay config * 2 ^ Z.of_nat j) (seq i k).
Proof.
  induction k as [|k IH]; intros i fuel s Hlt Hfuel Hbefore Hfinal.
  - destruct fuel as [|fuel]; [lia|]. simpl.
    pose proof (waitForRateLimit_quiet s) as [Hq1 Hq2].
    destruct (waitForRateLimit s) as [s1 tr1]. simpl in *.
    rewrite Nat.add_0_r in *.
    destruct (ended (operation i)) as [v|err] eqn:Hend.
    + by rewrite invocations_app, backoffs_app, Hq1, Hq2.
    + assert (rate_limited err && bool_decide (S i < retries)%nat = false) as ->.
      { destruct Hfinal as [Hlast|Hnot].
        - rewrite (bool_decide_eq_false_2 (S i < retries)%nat) by lia.
          apply andb_false_r.
        - destruct (rate_limited err) eqn:Hrl; [|done].
          exfalso. apply Hnot. by exists err. }
      by rewrite invocations_app, backoffs_app, Hq1, Hq2.
  - destruct fuel as [|fuel]; [lia|]. simpl.
    pose proof (waitForRateLimit_quiet s) as [Hq1 Hq2].
    destruct (waitForRateLimit s) as [s1 tr1]. simpl in *.
    destruct (Hbefore i ltac:(lia)) as (err & -> & Hrl).
    rewrite Hrl, (bool_decide_eq_true_2 (S i < retries)%nat) by lia. simpl.
    match goal with
    | |- context [retry_from _ _ _ _ ?s'] => specialize (IH (S i) fuel s')
    end.
    replace (S i + k)%nat with (i + S k)%nat in IH by lia.
    specialize (IH ltac:(lia) ltac:(lia)).
    destruct (retry_from operation retries (S i) fuel _) as [[s4 tr4] r].
    destruct IH as (-> & Hinv & Hback); [intros j Hj; apply Hbefore; lia|done|].
    split; [done|].
    rewrite invocations_app, backoffs_app, Hq1, Hq2. simpl.
    fold (invocations tr4). fold (backoffs tr4). by rewrite Hinv, Hback.
Qed.

Lemma pauses_app why tr1 tr2 : pauses why (tr1 ++ tr2) = pauses why tr1 ++ pauses why tr2.
Proof. apply omap_app. Qed.

Lemma total_app l1 l2 : total (l1 ++ l2) = total l1 + total l2.
Proof. induction l1 as [|x l1 IH]; simpl; lia. Qed.

Lemma outside_rate_limit_app tr1 tr2 :
  outside_rate_limit (tr1 ++ tr2) = outside_rate_limit tr1 ++ outside_rate_limit tr2.
Proof. apply filter_app. Qed.

(** The wait of the rate limit is a single positive sleep or none; the
    clock moves by it and [lastApiCall] is the clock reading after it. *)
Lemma waitForRateLimit_time s :
  let (s1, tr1) := waitForRateLimit s in
  Forall (λ ms, 0 < ms) (pauses RateLimit tr1) ∧
  clock s1 = clock s + total (pauses RateLimit tr1) ∧
  lastApiCall s1 = clock s1 ∧
  outside_rate_limit tr1 = [].
Proof.
  unfold waitForRateLimit, MIN_API_INTERVAL. case_decide; simpl.
  - split_and!; [|lia|done|done]. constructor; [lia|done].
  - split_and!; [done|lia|done|done].
Qed.

(** The clock at the end of the loop: it has moved by the waits of the
    rate limit, by the back-offs, and by the time the runs took. *)
Lemma retry_from_time operation retries fuel : ∀ i s,
  let '(s', tr, _) := retry_from operation retries i fuel s in
  Forall (λ ms, 0 < ms) (pauses RateLimit tr) ∧
  clock s' =
    clock s + total (pauses RateLimit tr) + total (backoffs tr) +
    total (map (λ j, elapsed (operation j)) (invocations tr)).
Proof.
  induction fuel as [|fuel IH]; intros i s; simpl; [split; [done|lia]|].
  pose proof (waitForRateLimit_time s) as Hw.
  pose proof (waitForRateLimit_quiet s) as [Hq1 Hq2].
  destruct (waitForRateLimit s) as [s1 tr1]. simpl in Hq1, Hq2.
  destruct Hw as (Hpos & Hclock & _ & _).
  assert (Hlast : ∀ r : result T,
    let '(s', tr, _) := (with_clock s1 (clock s1 + elapsed (operation i)),
                         tr1 ++ [Invoked i], r) in
    Forall (λ ms, 0 < ms) (pauses RateLimit tr) ∧
    clock s' =
      clock s + total (pauses RateLimit tr) + total (backoffs tr) +
      total (map (λ j, elapsed (operation j)) (invocations tr))).
  { intros _. rewrite pauses_app, backoffs_app, invocations_app, Hq1, Hq2.
    simpl. rewrite app_nil_r. split; [done|lia]. }
  destruct (ended (operation i)) as [v|err]; [apply (Hlast (Ok v))|].
  destruct (rate_limited err && bool_decide (S i < retries)%nat);
    [|apply (Hlast (Err err))].
  match goal with
  | |- context [retry_from _ _ _ _ ?s'] => specialize (IH (S i) s')
  end.
  destruct (retry_from operation retries (S i) fuel _) as [[s4 tr4] r].
  destruct IH as [Hpos4 Hclock4].
  rewrite !pauses_app, !backoffs_app, !invocations_app, Hq1, Hq2.
  simpl. fold (pauses RateLimit tr4) (backoffs tr4) (invocations tr4).
  rewrite !total_app. split; [by apply Forall_app|].
  rewrite Hclock4. simpl. lia.
Qed.

(** Under the hypotheses of [retry_from_settles]: a back-off stands
    between each run and the next, and the last run started at the final
    [lastApiCall]. *)
Lemma retry_from_order operation retries k : ∀ i fuel s,
  (i + k < retries)%nat → (k < fuel)%nat →
  (∀ j, (i ≤ j < i + k)%nat → throttled (operation j)) →
  (S (i + k)%nat = retries ∨ ¬ throttled (operation (i + k)%nat)) →
  let '(s', tr, _) := retry_from operation retries i fuel s in
  outside_rate_limit tr =
    flat_map (λ j, [Invoked j; Slept Backoff (retryDelay config * 2 ^ Z.of_nat j)])
             (seq i k) ++ [Invoked (i + k)] ∧
  lastApiCall s' + elapsed (operation (i + k)%nat) = clock s'.
Proof.
  induction k as [|k IH]; intros i fuel s Hlt Hfuel Hbefore Hfinal.
  - destruct fuel as [|fuel]; [lia|]. simpl.
    pose proof (waitForRateLimit_time s) as Hw.
    destruct (waitForRateLimit s) as [s1 tr1].
    destruct Hw as (_ & _ & Hlast & Hout).
    rewrite Nat.add_0_r in *.
    destruct (ended (operation i)) as [v|err] eqn:Hend.
    + rewrite outside_rate_limit_app, Hout. simpl. split; [done|lia].
    + assert (rate_limited err && bool_decide (S i < retries)%nat = false) as ->.
      { destruct Hfinal as [Hlast'|Hnot].
        - rewrite (bool_decide_eq_false_2 (S i < retries)%nat) by lia.
          apply andb_false_r.
        - destruct (rate_limited err) eqn:Hrl; [|done].
          exfalso. apply Hnot. by exists err. }
      rewrite outside_rate_limit_app, Hout. simpl. split; [done|lia].
  - destruct fuel as [|fuel]; [lia|]. simpl.
    pose proof (waitForRateLimit_time s) as Hw.
    destruct (waitForRateLimit s) as [s1 tr1].
    destruct Hw as (_ & _ & _ & Hout).
    destruct (Hbefore i ltac:(lia)) as (err & -> & Hrl).
    rewrite Hrl, (bool_decide_eq_true_2 (S i < retries)%nat) by lia. simpl.
    match goal with
    | |- context [retry_from _ _ _ _ ?s'] => specialize (IH (S i) fuel s')
    end.
    replace (S i + k)%nat with (i + S k)%nat in IH by lia.
    specialize (IH ltac:(lia) ltac:(lia)).
    destruct (retry_from operation retries (S i) fuel _) as [[s4 tr4] r].
    destruct IH as [Horder Hstart]; [intros j Hj; apply Hbefore; lia|done|].
    split; [|done].
    rewrite outside_rate_limit_app, Hout. simpl.
    change (outside_rate_limit (Invoked i :: Slept Backoff ?d :: tr4))
      with (Invoked i :: Slept Backoff d :: outside_rate_limit tr4).
    by rewrite Horder.
Qed.

(** C9. Under the configured budget of three runs: while the runs are
    rate limited (status 429) the operation is run again after a back-off
    of [retryDelay * 2^i], 10000 then 20000; the first run that is not
    rate limited decides the call, a value being returned and any other
    failure thrown on the spot with no further run; and when the third
    run is rate limited too, its failure is thrown to the caller. Each
    back-off stands between the run that was rate limited and the next
    one, and it is waited out: when the call ends the clock has moved by
    the back-offs, by the waits of the rate limit and by the time the runs
    took, and the last run started that much later than the call. *)
Theorem retryWithBackoff_policy operation s (k : nat) :
  (k < 3)%nat →
  (∀ j, (j < k)%nat → throttled (operation j)) →
  k = 2%nat ∨ ¬ throttled (operation k) →
  let '(s', tr, res) := retryWithBackoff operation (maxRetries config) s in
  res = ended (operation k) ∧
  invocations tr = seq 0 (S k) ∧
  backoffs tr = map (λ j, 10000 * 2 ^ Z.of_nat j) (seq 0 k) ∧
  outside_rate_limit tr =
    flat_map (λ j, [Invoked j; Slept Backoff (10000 * 2 ^ Z.of_nat j)]) (seq 0 k) ++
    [Invoked k] ∧
  Forall (λ ms, 0 < ms) (pauses RateLimit tr) ∧
  clock s' =
    clock s + total (pauses RateLimit tr) +
    total (map (λ j, 10000 * 2 ^ Z.of_nat j) (seq 0 k)) +
    total (map (λ j, elapsed (operation j)) (seq 0 (S k))) ∧
  lastApiCall s' + elapsed (operation k) = clock s'.
Proof.
  intros Hk Hbefore Hfinal. unfold retryWithBackoff.
  assert (Hb : ∀ j, (0 ≤ j < 0 + k)%nat → throttled (operation j))
    by (intros j Hj; apply Hbefore; lia).
  assert (Hf : S (0 + k)%nat = maxRetries config ∨ ¬ throttled (operation (0 + k)%nat))
    by (destruct Hfinal as [->|Hfinal]; [by left|by right]).
  pose proof (retry_from_settles operation (maxRetries config) k 0%nat
                (maxRetries config) s ltac:(simpl; lia) ltac:(simpl; lia) Hb Hf) as H1.
  pose proof (retry_from_order operation (maxRetries config) k 0%nat
                (maxRetries config) s ltac:(simpl; lia) ltac:(simpl; lia) Hb Hf) as H2.
  pose proof (retry_from_time operation (maxRetries config) (maxRetries config)
                0%nat s) as H3.
  destruct (retry_from operation (maxRetries config) 0 (maxRetries config) s)
    as [[s' tr] res].
  destruct H1 as (Hres & Hinv & Hback), H2 as (Horder & Hstart), H3 as (Hpos & Hclock).
  rewrite Hinv, Hback in Hclock. simpl in *.
  by split_and!.
Qed.

End retry.

Lemma retryWithBackoff_policy_witness :
  let '(s', tr, res) :=
    DebateOrchestrator.retryWithBackoff Samples.always_throttled
      (DebateOrchestrator.maxRetries DebateOrchestrator.config) Samples.initialized in
  res = DebateOrchestrator.ended (Samples.always_throttled 2) ∧
  DebateOrchestrator.invocations tr = [0; 1; 2]%nat ∧
  DebateOrchestrator.backoffs tr = [10000; 20000] ∧
  DebateOrchestrator.outside_rate_limit tr =
    [DebateOrchestrator.Invoked 0;
     DebateOrchestrator.Slept DebateOrchestrator.Backoff 10000;
     DebateOrchestrator.Invoked 1;
     DebateOrchestrator.Slept DebateOrchestrator.Backoff 20000;
     DebateOrchestrator.Invoked 2] ∧
  Forall (λ ms, 0 < ms)
    (DebateOrchestrator.pauses DebateOrchestrator.RateLimit tr) ∧
  DebateOrchestrator.clock s' =
    DebateOrchestrator.clock Samples.initialized +
    DebateOrchestrator.total
      (DebateOrchestrator.pauses DebateOrchestrator.RateLimit tr) +
    30000 + 900 ∧
  DebateOrchestrator.lastApiCall s' + 300 = DebateOrchestrator.clock s'.
Proof.
  apply (retryWithBackoff_policy Samples.always_throttled Samples.initialized 2).
  - lia.
  - intros j _. eexists. split; reflexivity.
  - left. reflexivity.
Defined.

Section turns.
Import DebateOrchestrator.

Lemma sends_app tr1 tr2 : sends (tr1 ++ tr2) = sends tr1 ++ sends tr2.
Proof. apply omap_app. Qed.

Lemma waitForRateLimit_cast s :
  sends (waitForRateLimit s).2 = [] ∧ same_cast s (waitForRateLimit s).1 ∧
  isRunning (waitForRateLimit s).1 = isRunning s.
Proof. unfold waitForRateLimit. by case_decide. Qed.

Lemma retry_from_cast {T} (operation : nat → attempt T) retries fuel : ∀ i s,
  let '(s', tr, _) := retry_from operation retries i fuel s in
  sends tr = [] ∧ same_cast s s' ∧ isRunning s' = isRunning s.
Proof.
  induction fuel as [|fuel IH]; intros i s; simpl; [done|].
  pose proof (waitForRateLimit_cast s) as (Hw & [Ha Hg] & Hrun).
  destruct (waitForRateLimit s) as [s1 tr1]. simpl in *.
  destruct (ended (operation i)) as [v|err].
  - rewrite sends_app, Hw. unfold same_cast. by split_and!.
  - destruct (rate_limited err && bool_decide (S i < retries)%nat).
    + match goal with
      | |- context [retry_from _ _ _ _ ?s'] => specialize (IH (S i) s')
      end.
      destruct (retry_from operation retries (S i) fuel _) as [[s4 tr4] r].
      destruct IH as (Hs & [Ha' Hg'] & Hrun'). simpl in *.
      rewrite sends_app, Hw. simpl. fold (sends tr4). rewrite Hs.
      unfold same_cast. split_and!; congruence.
    + rewrite sends_app, Hw. unfold same_cast. by split_and!.
Qed.

Lemma interrupt_cast e s :
  sends (interrupt e s).2 = [] ∧ same_cast s (interrupt e s).1 ∧
  (stop_called e = false → isRunning (interrupt e s).1 = isRunning s).
Proof.
  unfold interrupt, stopDebate. destruct (stop_called e); [|done]. simpl.
  by destruct (has_client (gameMaster s)).
Qed.

Lemma take_turn_cast why ms r e s :
  let '(s', tr, _) := take_turn why ms r e s in
  sends tr `sublist_of` [name r] ∧ same_cast s s' ∧
  (stop_called e = false → isRunning s' = isRunning s).
Proof.
  unfold take_turn. destruct (has_client r); [|by split_and!; [apply sublist_nil_l|..]].
  simpl.
  pose proof (retry_from_cast (tries e) (maxRetries config) (maxRetries config) 0
                (with_clock s (clock s + ms))) as Hretry.
  unfold retryWithBackoff.
  destruct (retry_from _ _ _ _ _) as [[s2 tr2] res].
  destruct Hretry as (Hs & [Ha Hg] & Hrun). simpl in *.
  pose proof (interrupt_cast e s2) as (Hi & [Ha' Hg'] & Hrun').
  destruct (interrupt e s2) as [s3 tr3]. simpl in *.
  assert (same_cast s s3) by (split; congruence).
  assert (stop_called e = false → isRunning s3 = isRunning s)
    by (intros Hstop; rewrite (Hrun' Hstop); done).
  destruct res as [[|]|err]; simpl; rewrite ?sends_app; simpl;
    rewrite ?sends_app, ?Hs, ?Hi; simpl;
    (split; [first [reflexivity | apply sublist_nil_l] | done]).
Qed.

Lemma agent_turns_cast es rs : ∀ i s,
  let '(s', tr, _) := agent_turns es i rs s in
  sends tr `sublist_of` map name rs ∧ same_cast s s'.
Proof.
  induction rs as [|r rs IH]; intros i s; simpl; [done|].
  destruct (isRunning s); [|by split; [apply sublist_nil_l|]].
  pose proof (take_turn_cast ResponseDelay (getRandomDelay (es i)) r (es i) s) as Hturn.
  unfold handleAgentTurn.
  destruct (take_turn _ _ _ _ _) as [[s1 tr1] res].
  destruct Hturn as (Hs & [Ha Hg] & _).
  destruct res as [[]|err]; [|split; [by apply sublist_inserts_r with (k := map name rs) in Hs|done]].
  match goal with
  | |- context [agent_turns _ _ _ ?s'] => specialize (IH (S i) s')
  end.
  destruct (agent_turns es (S i) rs _) as [[s3 tr3] res'].
  destruct IH as (Hs' & [Ha' Hg']). simpl in *.
  split; [|split; congruence].
  rewrite !sends_app. simpl.
  change (name r :: map name rs) with ([name r] ++ map name rs).
  by apply sublist_app.
Qed.

Lemma round_cast e s :
  sends (round e s).2 `sublist_of` turn_order s ∧ same_cast s (round e s).1.
Proof.
  unfold round, handleGMTurn.
  pose proof (take_turn_cast Thinking (gmThinkingTime config) (gameMaster s)
                (gm_turn e) s) as Hturn.
  destruct (take_turn _ _ _ _ _) as [[s1 tr1] res1].
  destruct Hturn as (Hs & [Ha Hg] & _). unfold turn_order.
  destruct res1 as [[]|err]; simpl.
  - pose proof (agent_turns_cast (agent_turn e) (agents s1) 0
                  (with_clock s1 (clock s1 + turnDelay config))) as Hagents.
    destruct (agent_turns _ _ _ _) as [[s3 tr3] res3].
    destruct Hagents as (Hs' & [Ha' Hg']). simpl in *. rewrite Ha in Hs'.
    assert (sends (tr1 ++ Slept TurnDelay 5000 :: tr3) `sublist_of`
            name (gameMaster s) :: map name (agents s)) as Hall.
    { rewrite sends_app. simpl. fold (sends tr3).
      by apply (sublist_app (sends tr1) [name (gameMaster s)]). }
    destruct res3 as [[]|err]; simpl;
      (split; [|split; simpl; congruence]);
      match goal with
      | |- sends (tr1 ++ ?a :: tr3 ++ [?b]) `sublist_of` _ =>
          replace (tr1 ++ a :: tr3 ++ [b]) with ((tr1 ++ a :: tr3) ++ [b])
            by (by rewrite <-app_assoc)
      end;
      rewrite sends_app; simpl; rewrite app_nil_r; exact Hall.
  - rewrite sends_app. simpl. rewrite app_nil_r.
    split; [|done]. by apply (sublist_inserts_r (map name (agents s))) in Hs.
Qed.

Lemma debate_loop_order es : ∀ s,
  Forall (λ tr, sends tr `sublist_of` turn_order s) (debate_loop es s).2.
Proof.
  induction es as [|e es IH]; intros s; simpl; [done|].
  destruct (isRunning s); [|done].
  pose proof (round_cast e s) as (Hs & [Ha Hg]).
  destruct (round e s) as [s1 tr]. simpl in *.
  specialize (IH s1). destruct (debate_loop es s1) as [s2 trs]. simpl in *.
  constructor; [done|].
  unfold turn_order in *. by rewrite Ha, Hg in IH.
Qed.


Lemma take_turn_smooth why ms r e s :
  has_client r = true → delivers e → stop_called e = false →
  let '(s', tr, res) := take_turn why ms r e s in
  sends tr = [name r] ∧ res = Ok () ∧ isRunning s' = isRunning s.
Proof.
  intros Hclient (k & Hk & Hbefore & Hend) Hstop.
  pose proof (take_turn_cast why ms r e s) as Hcast.
  unfold take_turn in *. rewrite Hclient in *. simpl in *.
  unfold retryWithBackoff in *.
  pose proof (retry_from_settles (tries e) (maxRetries config) k 0
                (maxRetries config) (with_clock s (clock s + ms))) as Hsettle.
  pose proof (retry_from_cast (tries e) (maxRetries config) (maxRetries config) 0
                (with_clock s (clock s + ms))) as Hretry.
  destruct (retry_from _ _ _ _ _) as [[s2 tr2] res].
  destruct Hsettle as (Hres & _ & _); [done|done| | |].
  { intros j Hj. apply Hbefore. lia. }
  { right. intros (err & Herr & _). simpl in Herr. congruence. }
  simpl in Hres. rewrite Hend in Hres. subst res.
  destruct Hretry as (Hs & _ & Hrun).
  unfold interrupt in *. rewrite Hstop in *. simpl in *.
  rewrite !sends_app, Hs. simpl. by rewrite Hrun.
Qed.

Lemma agent_turns_smooth es rs : ∀ i s,
  isRunning s = true → Forall (λ r, has_client r = true) rs →
  (∀ j, delivers (es j) ∧ stop_called (es j) = false) →
  let '(s', tr, res) := agent_turns es i rs s in
  sends tr = map name rs ∧ res = Ok () ∧ isRunning s' = true.
Proof.
  induction rs as [|r rs IH]; intros i s Hrun Hclients Hsmooth; simpl; [done|].
  apply Forall_cons in Hclients as [Hclient Hclients].
  destruct (Hsmooth i) as [Hdel Hstop]. rewrite Hrun.
  pose proof (take_turn_smooth ResponseDelay (getRandomDelay (es i)) r (es i) s
                Hclient Hdel Hstop) as Hturn.
  unfold handleAgentTurn.
  destruct (take_turn _ _ _ _ _) as [[s1 tr1] res].
  destruct Hturn as (Hs & -> & Hrun1).
  match goal with
  | |- context [agent_turns _ _ _ ?s'] => specialize (IH (S i) s')
  end.
  destruct (agent_turns es (S i) rs _) as [[s3 tr3] res'].
  destruct IH as (Hs' & -> & Hrun3); [simpl; congruence|done|done|].
  rewrite sends_app, Hs. simpl. fold (sends tr3). by rewrite Hs'.
Qed.

Lemma round_smooth e s :
  isRunning s = true → has_client (gameMaster s) = true →
  Forall (λ r, has_client r = true) (agents s) → smooth e →
  sends (round e s).2 = turn_order s ∧ isRunning (round e s).1 = true.
Proof.
  intros Hrun Hgm Hclients [[Hdel Hstop] Hagents].
  pose proof (round_cast e s) as [_ [Ha Hg]].
  unfold round, handleGMTurn in *.
  pose proof (take_turn_smooth Thinking (gmThinkingTime config) (gameMaster s)
                (gm_turn e) s Hgm Hdel Hstop) as Hturn.
  pose proof (take_turn_cast Thinking (gmThinkingTime config) (gameMaster s)
                (gm_turn e) s) as Hcast.
  destruct (take_turn _ _ _ _ _) as [[s1 tr1] res1].
  destruct Hturn as (Hs & -> & Hrun1). destruct Hcast as (_ & [Ha1 Hg1] & _).
  simpl in *.
  pose proof (agent_turns_smooth (agent_turn e) (agents s1) 0
                (with_clock s1 (clock s1 + turnDelay config))) as Hturns.
  destruct (agent_turns _ _ _ _) as [[s3 tr3] res3].
  destruct Hturns as (Hs' & -> & Hrun3);
    [simpl; congruence|by rewrite Ha1|done|].
  simpl. unfold turn_order. split; [|done].
  rewrite sends_app, Hs. simpl. fold (sends (tr3 ++ [Slept RoundBreak 30000])).
  rewrite sends_app, Hs', Ha1. simpl. by rewrite app_nil_r.
Qed.

Lemma debate_loop_smooth es : ∀ s,
  isRunning s = true → has_client (gameMaster s) = true →
  Forall (λ r, has_client r = true) (agents s) → Forall smooth es →
  map sends (debate_loop es s).2 = replicate (length es) (turn_order s).
Proof.
  induction es as [|e es IH]; intros s Hrun Hgm Hclients Hsmooth; simpl; [done|].
  apply Forall_cons in Hsmooth as [He Hes]. rewrite Hrun.
  pose proof (round_smooth e s Hrun Hgm Hclients He) as [Hs Hrun1].
  pose proof (round_cast e s) as [_ [Ha Hg]].
  destruct (round e s) as [s1 tr]. simpl in *.
  specialize (IH s1 Hrun1). rewrite Ha, Hg in IH. specialize (IH Hgm Hclients Hes).
  destruct (debate_loop es s1) as [s2 trs]. simpl in *.
  rewrite Hs, IH. unfold turn_order. by rewrite Ha, Hg.
Qed.

(** C2, as amended. In every iteration of the loop the messages go out
    in the order Moderator, first Debater, second Debater, ...: the
    senders of an iteration form a subsequence of that fixed order, the
    same in every round (a turn with nothing to send, or one that fails,
    or a stop request leave senders out, they never reorder them). When
    every turn gets its message out and nobody stops the debate, the
    senders of every iteration are exactly the whole order. *)
Theorem debate_round_order (es : list iteration) (s : t) :
  Forall (λ tr, sends tr `sublist_of` turn_order s) (debate_loop es s).2 ∧
  (isRunning s = true → has_client (gameMaster s) = true →
   Forall (λ r, has_client r = true) (agents s) → Forall smooth es →
   map sends (debate_loop es s).2 = replicate (length es) (turn_order s)).
Proof. split; [apply debate_loop_order | apply debate_loop_smooth]. Qed.

End turns.

(** C2, the claim as stated fails: the loop runs with Moderator M and
    Debaters A, B, C; in the first iteration the generator has nothing
    for A, so the messages of that iteration are those of M, B and C. *)
Lemma debate_round_silent_turn_counterexample :
  DebateOrchestrator.turn_order Samples.initialized = ["M"; "A"; "B"; "C"] ∧
  map DebateOrchestrator.sends
    (DebateOrchestrator.startDebate 3 [Samples.first_debater_silent]
       Samples.initialized).1.2 = [["M"; "B"; "C"]] ∧
  DebateOrchestrator.isRunning
    (DebateOrchestrator.startDebate 3 [Samples.first_debater_silent]
       Samples.initialized).1.1.1 = true.
Proof. by vm_compute. Qed.

Lemma plain_turn_delivers : DebateOrchestrator.delivers (Samples.plain_turn true).
Proof. exists 0%nat. split_and!; [simpl; lia|intros j Hj; lia|reflexivity]. Qed.

Lemma debate_round_order_witness :
  map DebateOrchestrator.sends
    (DebateOrchestrator.debate_loop
       [Samples.everybody_sends; Samples.everybody_sends] Samples.debating).2 =
  [["M"; "A"; "B"; "C"]; ["M"; "A"; "B"; "C"]].
Proof.
  destruct (debate_round_order [Samples.everybody_sends; Samples.everybody_sends]
              Samples.debating) as [_ Hexact].
  apply Hexact.
  - reflexivity.
  - reflexivity.
  - by repeat constructor.
  - repeat constructor; apply plain_turn_delivers.
Defined.

(** ** The life cycle of a channel *)

Section channel_lifecycle.
Import SharedWebSocket.

Lemma step_isActive now s ev : isActive (step now s ev).1 = isActive s.
Proof.
  destruct ev; simpl; unfold on_open, handleMessage, handleDisconnect,
    heartbeat_tick; repeat case_match; done.
Qed.

Lemma step_closed_quiet now s ev :
  isActive s = false →
  scheduled (step now s ev).2 = [] ∧ OnClose ∉ (step now s ev).2.
Proof.
  intros Hoff.
  destruct ev; simpl; unfold on_open, subscribeToRoom, handleMessage,
    handleDisconnect, heartbeat_tick; rewrite ?Hoff;
    repeat case_match; simpl; split; try done;
    rewrite ?elem_of_cons, ?elem_of_nil; let Hin := fresh "Hin" in intros Hin; decompose [or] Hin; done.
Qed.

(** X1. Once [close()] has run, the channel stays inactive whatever the
    socket and the timers report afterwards: [handleDisconnect] arms no
    reconnect timer and the owner's [onClose] handler is never called. *)
Theorem close_arms_no_reconnect (now : Z) (s : t) (evs : list event) :
  isActive (run now (close s) evs).1 = false ∧
  scheduled (run now (close s) evs).2 = [] ∧
  OnClose ∉ (run now (close s) evs).2.
Proof.
  assert (Hgen : ∀ s0, isActive s0 = false →
    isActive (run now s0 evs).1 = false ∧
    scheduled (run now s0 evs).2 = [] ∧ OnClose ∉ (run now s0 evs).2).
  { induction evs as [|ev evs IH]; intros s0 Hoff.
    - split_and!; [done|done|apply not_elem_of_nil].
    - rewrite run_cons.
      pose proof (step_isActive now s0 ev) as Hact.
      destruct (step_closed_quiet now s0 ev Hoff) as [Hsch Hcl].
      destruct (step now s0 ev) as [s1 out1]. simpl in *.
      destruct (IH s1) as (Ha & Hs & Hc); [congruence|].
      destruct (run now s1 evs) as [s2 out2]. simpl in *.
      split_and!; [done| |].
      + by rewrite scheduled_app, Hsch, Hs.
      + rewrite elem_of_app. by intros [?|?]. }
  by apply Hgen.
Qed.

(** X2. [close()] leaves a pending reconnect timer in place. When that
    timer fires after [close()], the channel connects again, and once the
    new socket opens it subscribes to the room and restarts the heartbeat
    although the channel is no longer active. *)
Theorem close_keeps_pending_reconnect (now : Z) (s : t) (d : Z) :
  reconnectTimer s = Some d →
  reconnectTimer (close s) = Some d ∧
  ws (run now (close s) [ReconnectTimerFired; SocketOpen]).1 = Some OPEN ∧
  heartbeatInterval (run now (close s) [ReconnectTimerFired; SocketOpen]).1 = true ∧
  isActive (run now (close s) [ReconnectTimerFired; SocketOpen]).1 = false ∧
  (run now (close s) [ReconnectTimerFired; SocketOpen]).2 =
    [Write (Envelope SUBSCRIBE_ROOM
              (sortObjectKeys (JObj [("roomId", JNum (roomId (config s)));
                                     ("timestamp", JNum now)]))
              None None None)].
Proof.
  intros Htimer. unfold run, step. simpl. rewrite Htimer. simpl. done.
Qed.

(** X3. The heartbeat clock is not reset when a socket opens. If more than
    [HEARTBEAT_TIMEOUT] has passed since the channel last saw a heartbeat
    (or, without any, since it was constructed), the first tick after the
    ['open'] closes the socket and writes no heartbeat; when a heartbeat
    frame arrived at most [HEARTBEAT_TIMEOUT] before the tick, the tick
    writes one heartbeat and the socket stays open. *)
Theorem heartbeat_tick_after_open (opened tick : Z) (s : t) :
  ws s = Some CONNECTING →
  (HEARTBEAT_TIMEOUT < tick - lastHeartbeatResponse s →
   step tick (step opened s SocketOpen).1 HeartbeatTick =
     (with_ws (step opened s SocketOpen).1 (Some CLOSING), [])) ∧
  (∀ seen m,
     in_type m = Some HEARTBEAT → tick - seen ≤ HEARTBEAT_TIMEOUT →
     let s1 := (step seen (step opened s SocketOpen).1 (SocketMessage (Some m))).1 in
     (step seen (step opened s SocketOpen).1 (SocketMessage (Some m))).2 = [] ∧
     step tick s1 HeartbeatTick =
       (s1, [Write (Envelope HEARTBEAT (JObj []) None None None)])).
Proof.
  intros Hws. split.
  - intros Hlate. simpl. rewrite Hws. simpl.
    unfold heartbeat_tick. simpl. by rewrite decide_True by done.
  - intros seen m Hm Hfresh. simpl. rewrite Hws. simpl.
    unfold handleMessage. rewrite Hm. simpl.
    unfold heartbeat_tick. simpl. rewrite decide_False by lia. done.
Qed.

(** X4. A [connect()] called from outside the channel's own timer (as the
    five-second handler of [AgentClient] does) cancels the pending
    reconnect without counting an attempt: when that connection fails,
    the timer is armed again with the delay it had before, where a failed
    attempt of the channel's own timer arms the next, doubled delay. *)
Theorem connect_keeps_backoff_stage (now : Z) (s : t) (n : nat) (f : failure) :
  down n s →
  reconnectTimer (connect s) = None ∧
  reconnectAttempt (connect s) = n ∧
  scheduled (run now (connect s) (tail (failed_attempt f))).2 = [reconnect_delay n] ∧
  scheduled (run now s (failed_attempt f)).2 = [reconnect_delay (S n)].
Proof.
  intros (Hact & Hws & [d Htimer] & Hn).
  split_and!; [done|done| |].
  - destruct f; simpl; unfold handleDisconnect; simpl; rewrite Hact; simpl;
      by rewrite Hn.
  - destruct f; simpl; rewrite Htimer; simpl; unfold handleDisconnect; simpl;
      rewrite Hact; simpl; by rewrite Hn.
Qed.

End channel_lifecycle.

Lemma close_keeps_pending_reconnect_witness :
  SharedWebSocket.ws
    (SharedWebSocket.run 7
       (SharedWebSocket.close
          (SharedWebSocket.run 5 Samples.dialing
             [SharedWebSocket.SocketOpen; SharedWebSocket.SocketClose]).1)
       [SharedWebSocket.ReconnectTimerFired; SharedWebSocket.SocketOpen]).1
  = Some SharedWebSocket.OPEN.
Proof.
  apply (close_keeps_pending_reconnect 7
           (SharedWebSocket.run 5 Samples.dialing
              [SharedWebSocket.SocketOpen; SharedWebSocket.SocketClose]).1 1000).
  reflexivity.
Defined.

Lemma heartbeat_tick_after_open_witness :
  SharedWebSocket.step 30010
    (SharedWebSocket.step 10 Samples.dialing SharedWebSocket.SocketOpen).1
    SharedWebSocket.HeartbeatTick =
  (SharedWebSocket.with_ws
     (SharedWebSocket.step 10 Samples.dialing SharedWebSocket.SocketOpen).1
     (Some SharedWebSocket.CLOSING), []).
Proof.
  apply (heartbeat_tick_after_open 10 30010 Samples.dialing); [reflexivity|].
  vm_compute. reflexivity.
Defined.

Lemma connect_keeps_backoff_stage_witness :
  SharedWebSocket.scheduled
    (SharedWebSocket.run 9
       (SharedWebSocket.connect
          (SharedWebSocket.run 5 Samples.dialing
             [SharedWebSocket.SocketOpen; SharedWebSocket.SocketClose]).1)
       (tail (SharedWebSocket.failed_attempt SharedWebSocket.Refused))).2 =
  [SharedWebSocket.reconnect_delay 0].
Proof.
  apply (connect_keeps_backoff_stage 9
           (SharedWebSocket.run 5 Samples.dialing
              [SharedWebSocket.SocketOpen; SharedWebSocket.SocketClose]).1
           0 SharedWebSocket.Refused).
  split_and!; [reflexivity|reflexivity|by eexists|reflexivity].
Defined.

(** ** The participant client: posting, joining, channels *)

Section posting.
Import AgentClient SignMessage.
Variable W : string → string → outcome string.

Lemma failures_cons e out :
  failures (e :: out) = ((if rejected e then 1 else 0) + failures out)%nat.
Proof.
  unfold failures. destruct (rejected e) eqn:He.
  - by rewrite filter_cons_True by done.
  - rewrite filter_cons_False; [done|]. by rewrite He.
Qed.

Lemma rejected_thrown message status :
  ¬ (200 ≤ status < 300) → rejected (Post message (Responded status)) = true.
Proof. intros H. simpl. by rewrite bool_decide_eq_false_2. Qed.

Lemma rejected_success message status :
  200 ≤ status < 300 → rejected (Post message (Responded status)) = false.
Proof. intros H. simpl. by rewrite bool_decide_eq_true_2. Qed.

(** The loop from [retries] counted failures on. *)
Lemma post_loop_from message ans : ∀ retries, (retries < 3)%nat →
  Forall (λ e, ∃ a, e = Post message a) (post_loop message ans retries).1 ∧
  (failures (post_loop message ans retries).1 + retries ≤ 3)%nat ∧
  (∀ m, (post_loop message ans retries).2 = Raised m →
        (failures (post_loop message ans retries).1 + retries = 3)%nat) ∧
  ((post_loop message ans retries).2 = Done →
   last (post_loop message ans retries).1 = Some (Post message (Responded 200))) ∧
  ((post_loop message ans retries).2 = Pending →
   (post_loop message ans retries).1 = map (Post message) ans ∧
   (failures (post_loop message ans retries).1 + retries < 3)%nat).
Proof.
  induction ans as [|a ans IH]; intros retries Hlt.
  { simpl. split_and!; [constructor|lia|done|done|]. intros _. split; [done|].
    unfold failures. simpl. lia. }
  assert (Hthrown : rejected (Post message a) = true →
    let res := if decide (S retries = 3%nat)
               then ([Post message a], Raised "Request failed")
               else let (out, r) := post_loop message ans (S retries) in
                    (Post message a :: out, r) in
    Forall (λ e, ∃ a, e = Post message a) res.1 ∧
    (failures res.1 + retries ≤ 3)%nat ∧
    (∀ m, res.2 = Raised m → (failures res.1 + retries = 3)%nat) ∧
    (res.2 = Done → last res.1 = Some (Post message (Responded 200))) ∧
    (res.2 = Pending →
     res.1 = map (Post message) (a :: ans) ∧ (failures res.1 + retries < 3)%nat)).
  { intros Hrej. simpl. case_decide as H3.
    - cbn [fst snd]. rewrite failures_cons, Hrej. unfold failures. simpl.
      split_and!; [repeat constructor; by eexists|lia|intros; lia|done|done].
    - destruct (IH (S retries)) as (Hall & Hle & Hraised & Hdone & Hpend); [lia|].
      destruct (post_loop message ans (S retries)) as [out r]. cbn [fst snd] in *.
      rewrite failures_cons, Hrej.
      split_and!.
      + constructor; [by eexists|done].
      + lia.
      + intros m Hm. specialize (Hraised m Hm). lia.
      + intros Hd. specialize (Hdone Hd). rewrite last_cons. by rewrite Hdone.
      + intros Hp. destruct (Hpend Hp) as [-> ?]. split; [done|lia]. }
  simpl. destruct a as [status|]; [|by apply Hthrown].
  destruct (decide (200 ≤ status < 300)) as [Hrange|Hrange];
    [|by apply Hthrown, rejected_thrown].
  destruct (decide (status = 200)) as [->|H200].
  - cbn [fst snd]. rewrite failures_cons, rejected_success by lia.
    unfold failures. simpl.
    split_and!; [repeat constructor; by eexists|lia|done|done|done].
  - destruct (IH retries Hlt) as (Hall & Hle & Hraised & Hdone & Hpend).
    destruct (post_loop message ans retries) as [out r]. cbn [fst snd] in *.
    rewrite failures_cons, rejected_success by done.
    split_and!.
    + constructor; [by eexists|done].
    + lia.
    + intros m Hm. specialize (Hraised m Hm). lia.
    + intros Hd. specialize (Hdone Hd). rewrite last_cons. by rewrite Hdone.
    + intros Hp. destruct (Hpend Hp) as [-> ?]. split; [done|lia].
Qed.

(** X5. The retry loop of [sendAIMessage] posts one and the same envelope
    every time, gives up at the third failed post and never goes on after
    it: at most three posts of a call fail, the call throws exactly when
    the third one has failed, and when it returns its last post was
    answered with a 200. *)
Theorem sendAIMessage_post_budget (message : envelope) (ans : list http_answer) :
  Forall (λ e, ∃ a, e = Post message a) (post_loop message ans 0).1 ∧
  (failures (post_loop message ans 0).1 ≤ 3)%nat ∧
  (∀ m, (post_loop message ans 0).2 = Raised m →
        failures (post_loop message ans 0).1 = 3%nat) ∧
  ((post_loop message ans 0).2 = Done →
   last (post_loop message ans 0).1 = Some (Post message (Responded 200))) ∧
  ((post_loop message ans 0).2 = Pending →
   (post_loop message ans 0).1 = map (Post message) ans ∧
   (failures (post_loop message ans 0).1 < 3)%nat).
Proof.
  destruct (post_loop_from message ans 0) as (Hall & Hle & Hraised & Hdone & Hpend);
    [lia|].
  split_and!; [done|lia| |done|].
  - intros m Hm. specialize (Hraised m Hm). lia.
  - intros Hp. destruct (Hpend Hp). split; [done|lia].
Qed.

(** X6. A response with a success status other than 200 neither ends the
    loop nor counts as a failure: as long as the backend answers every
    post with such a status, [sendAIMessage] posts the envelope again,
    once per answer, and does not finish. *)
Theorem sendAIMessage_reposts_after_success_status
    (message : envelope) (ans : list http_answer) (retries : nat) :
  Forall (λ a, ∃ status, a = Responded status ∧ 200 < status < 300) ans →
  post_loop message ans retries = (map (Post message) ans, Pending).
Proof.
  induction 1 as [|a ans (status & -> & Hs) _ IH]; simpl; [done|].
  rewrite decide_True by lia. rewrite decide_False by lia. by rewrite IH.
Qed.

Lemma messageString_agent now room round_ id text :
  messageString now (createMessageContent_agent now room round_ id text) =
  canonicalize (JObj (createMessageContent_agent now room round_ id text)).
Proof.
  unfold messageString, canonicalize.
  assert (stamped now (createMessageContent_agent now room round_ id text) =
          createMessageContent_agent now room round_ id text) as ->; [|done].
  unfold stamped. destruct (truthy_opt _); [done|].
  unfold createMessageContent_agent. cbn [obj_set]. by destruct (decide _).
Qed.

Lemma sign_fresh_result now (fs : props) key :
  sign_fresh W now fs key = rethrown (W key (messageString now fs)).
Proof.
  unfold sign_fresh. apply signMessage_result. apply lookup_singleton_eq.
Qed.

(** What [sendAIMessage] adds to the outbox. *)
Lemma sendAIMessage_posts w s text e a :
  Post e a ∈ outbox (sendAIMessage W w s text).1 →
  Post e a ∈ outbox s ∨
  ∃ room round_ sig,
    roomId s = Some room ∧ room ≠ 0 ∧ roundId s = Some round_ ∧ round_ ≠ 0 ∧
    sign_fresh W (now w)
      (createMessageContent_agent (now w) room round_ (agentNumericId (ident s)) text)
      (privateKey (ident s)) = Returned sig ∧
    e = Envelope AGENT_MESSAGE
          (JObj (createMessageContent_agent (now w) room round_
                   (agentNumericId (ident s)) text))
          (Some sig) (Some (walletAddress (ident s))) (Some (now w)).
Proof.
  unfold sendAIMessage.
  destruct (roomId s) as [room|] eqn:Hroom; [|by left].
  destruct (roundId s) as [round_|] eqn:Hround; [|by left].
  simpl. destruct (room =? 0) eqn:Hr0; [by left|].
  destruct (round_ =? 0) eqn:Hd0; [by left|]. simpl.
  destruct (sign_fresh W _ _ _) as [sig|m] eqn:Hsig; simpl; [|by left].
  match goal with
  | |- context [post_loop ?msg (answers w) 0] =>
      destruct (post_loop_from msg (answers w) 0) as (Hall & _); [lia|];
      destruct (post_loop msg (answers w) 0) as [out r]
  end.
  simpl in *. rewrite elem_of_app. intros [Hold|Hnew]; [by left|right].
  rewrite Forall_forall in Hall. destruct (Hall _ Hnew) as [a' [= -> _]].
  exists room, round_, sig. apply Z.eqb_neq in Hr0, Hd0. by split_and!.
Qed.

(** X7. Every envelope [sendAIMessage] posts is an [AGENT_MESSAGE] from
    the client's wallet address whose content carries the stored room and
    round (both set and not zero), the client's own id and the text
    given, and whose signature is the wallet's signature of the canonical
    serialization of that very content. *)
Theorem sendAIMessage_posts_signed_content
    (w : world) (s : t) (text : string) (e : envelope) (a : http_answer) :
  Post e a ∈ outbox (sendAIMessage W w s text).1 →
  Post e a ∈ outbox s ∨
  ∃ room round_ sig,
    roomId s = Some room ∧ room ≠ 0 ∧ roundId s = Some round_ ∧ round_ ≠ 0 ∧
    e = Envelope AGENT_MESSAGE
          (JObj (createMessageContent_agent (now w) room round_
                   (agentNumericId (ident s)) text))
          (Some sig) (Some (walletAddress (ident s))) (Some (now w)) ∧
    W (privateKey (ident s)) (canonicalize (content e)) = Returned sig.
Proof.
  intros Hin.
  destruct (sendAIMessage_posts w s text e a Hin)
    as [Hold|(room & round_ & sig & Hroom & Hr0 & Hround & Hd0 & Hsig & ->)];
    [by left|right].
  exists room, round_, sig. split_and!; try done. simpl.
  rewrite sign_fresh_result, messageString_agent in Hsig.
  destruct (W (privateKey (ident s)) _) as [sig'|m]; simpl in Hsig; [|done].
  by injection Hsig as ->.
Qed.

(** X8. [setRoomAndRound] stores the room before it looks the round up.
    When the lookup fails, the call throws and leaves the client with the
    new room, the round it had before and its old channels; a client that
    had joined a round before then posts its next message for the new
    room under the old round. *)
Theorem setRoomAndRound_failed_lookup
    (w : world) (s : t) (room : Z) (m : string) :
  getActiveRound (round w) = Thrown m →
  setRoomAndRound W w s room = (with_roomId s (Some room), Raised m) ∧
  ∀ w' text e a,
    Post e a ∈ outbox (sendAIMessage W w' (setRoomAndRound W w s room).1 text).1 →
    Post e a ∈ outbox s ∨
    ∃ round_, roundId s = Some round_ ∧
      field "roomId" (Some (content e)) = Some (JNum room) ∧
      field "roundId" (Some (content e)) = Some (JNum round_).
Proof.
  intros Hlookup.
  assert (Hres : setRoomAndRound W w s room = (with_roomId s (Some room), Raised m))
    by (unfold setRoomAndRound; by rewrite Hlookup).
  split; [done|]. rewrite Hres. simpl. intros w' text e a Hin.
  destruct (sendAIMessage_posts _ _ _ _ _ Hin)
    as [Hold|(room' & round_ & sig & Hroom & _ & Hround & _ & _ & ->)];
    [by left|right].
  simpl in Hroom, Hround. injection Hroom as <-. by exists round_.
Qed.

Lemma emit_roundId s out : roundId (emit s out) = roundId s.
Proof. done. Qed.

Lemma setRoomAndRound_roundId w s room :
  roundId (setRoomAndRound W w s room).1 = roundId s ∨
  ∃ r, r ≠ 0 ∧ roundId (setRoomAndRound W w s room).1 = Some r.
Proof.
  unfold setRoomAndRound.
  destruct (getActiveRound (round w)) as [activeRound|m]; [|by left].
  destruct (activeRound =? 0) eqn:H0; [by left|]. apply Z.eqb_neq in H0.
  destruct (sign_fresh _ _ _ _); right; by exists activeRound.
Qed.

Lemma step_roundId s w a :
  roundId (step W s (w, a)) = roundId s ∨
  ∃ r, r ≠ 0 ∧ roundId (step W s (w, a)) = Some r.
Proof.
  destruct a as [room|text| |data|i ev|]; simpl.
  - apply setRoomAndRound_roundId.
  - left. by destruct (sendAIMessage_grows W w s text) as (out & (_&_&Hr&_) & _).
  - by left.
  - left. by destruct (handleWebSocketMessage_grows W w s data)
      as (out & (_&_&Hr&_) & _).
  - left. destruct (channels s !! i) as [[ch h]|]; [|done].
    destruct (SharedWebSocket.step (now w) ch ev) as [ch' effs].
    by destruct (absorbs_frame W w i h effs
                   (with_channels s (<[i:=(ch', h)]> (channels s)))) as (-> & _).
  - left. destruct (reconnects s) as [|n]; [done|].
    by destruct (channels s !! wsClient s) as [[ch h]|].
Qed.

Lemma run_roundId was : ∀ s,
  roundId (run W s was) = roundId s ∨
  ∃ r, r ≠ 0 ∧ roundId (run W s was) = Some r.
Proof.
  induction was as [|[w a] was IH] using rev_ind; intros s; [by left|].
  rewrite run_snoc.
  destruct (step_roundId (run W s was) w a) as [->|Hset]; [apply IH|by right].
Qed.

(** X9. The round a client holds is never zero, and once a round is
    stored it is never unset again: whatever happens to a client after its
    constructor, [roundId] is either still undefined or a nonzero number,
    and from a state in which it is set every later state has it set. *)
Theorem roundId_set_once_never_zero
    (now : Z) (i : identity) (was was' : list (world * action)) :
  roundId (run W (create now i) was) ≠ Some 0 ∧
  (unset (roundId (run W (create now i) was)) = false →
   unset (roundId (run W (run W (create now i) was) was')) = false).
Proof.
  assert (Hinv : ∀ s was0, roundId s ≠ Some 0 → roundId (run W s was0) ≠ Some 0).
  { intros s was0 Hs. destruct (run_roundId was0 s) as [->|(r & Hr & ->)];
      [done|congruence]. }
  split.
  - by apply Hinv.
  - intros Hset.
    destruct (run_roundId was' (run W (create now i) was)) as [->|(r & Hr & ->)];
      [done|]. simpl. by apply Z.eqb_neq.
Qed.

(** X10. [setRoomAndRound(0)] can succeed: the round is resolved, the old
    channel is closed and a new one starts connecting with room 0 in its
    configuration. Yet zero is a falsy room id, so every later
    [sendAIMessage] throws on its guard without signing or posting. *)
Theorem setRoomAndRound_room_zero (w : world) (s : t) :
  (setRoomAndRound W w s 0).2 = Done →
  (∃ ch, last (channels (setRoomAndRound W w s 0).1) = Some (ch, ReconnectLater) ∧
         SharedWebSocket.ws ch = Some SharedWebSocket.CONNECTING ∧
         SharedWebSocket.roomId (SharedWebSocket.config ch) = 0) ∧
  unset (roundId (setRoomAndRound W w s 0).1) = false ∧
  ∀ w' text,
    sendAIMessage W w' (setRoomAndRound W w s 0).1 text =
      ((setRoomAndRound W w s 0).1,
       Raised "Agent not initialized with room and round IDs").
Proof.
  unfold setRoomAndRound.
  destruct (getActiveRound (round w)) as [activeRound|m]; [|done].
  destruct (activeRound =? 0) eqn:H0; [done|].
  destruct (sign_fresh _ _ _ _) as [sig|m]; [|done]. intros _. simpl.
  split_and!.
  - eexists. split; [apply last_snoc|]. done.
  - done.
  - intros w' text. unfold sendAIMessage. simpl. done.
Qed.

End posting.

Lemma sendAIMessage_reposts_after_success_status_witness :
  AgentClient.post_loop (Envelope AGENT_MESSAGE JNull None None None)
    [AgentClient.Responded 201; AgentClient.Responded 204] 0 =
  (map (AgentClient.Post (Envelope AGENT_MESSAGE JNull None None None))
     [AgentClient.Responded 201; AgentClient.Responded 204],
   AgentClient.Pending).
Proof.
  apply sendAIMessage_reposts_after_success_status.
  repeat constructor; eexists; (split; [reflexivity|lia]).
Defined.

Lemma sendAIMessage_posts_signed_content_witness :
  AgentClient.Post Samples.reply_envelope (AgentClient.Responded 200) ∈
    AgentClient.outbox Samples.joined ∨
  ∃ room round_ sig,
    AgentClient.roomId Samples.joined = Some room ∧ room ≠ 0 ∧
    AgentClient.roundId Samples.joined = Some round_ ∧ round_ ≠ 0 ∧
    Samples.reply_envelope =
      Envelope AGENT_MESSAGE
        (JObj (SignMessage.createMessageContent_agent
                 (AgentClient.now Samples.friendly) room round_
                 (AgentClient.agentNumericId (AgentClient.ident Samples.joined))
                 "I disagree."))
        (Some sig)
        (Some (AgentClient.walletAddress (AgentClient.ident Samples.joined)))
        (Some (AgentClient.now Samples.friendly)) ∧
    Samples.echo_wallet (AgentClient.privateKey (AgentClient.ident Samples.joined))
      (canonicalize (content Samples.reply_envelope)) = Returned sig.
Proof.
  apply (sendAIMessage_posts_signed_content Samples.echo_wallet Samples.friendly
           Samples.joined "I disagree." Samples.reply_envelope
           (AgentClient.Responded 200)).
  vm_compute. left.
Defined.

Lemma setRoomAndRound_failed_lookup_witness :
  AgentClient.setRoomAndRound Samples.echo_wallet Samples.quiet Samples.joined 300 =
  (AgentClient.with_roomId Samples.joined (Some 300),
   AgentClient.Raised "Network Error").
Proof.
  apply (setRoomAndRound_failed_lookup Samples.echo_wallet Samples.quiet
           Samples.joined 300 "Network Error").
  reflexivity.
Defined.

Lemma setRoomAndRound_room_zero_witness :
  AgentClient.unset
    (AgentClient.roundId
       (AgentClient.setRoomAndRound Samples.echo_wallet Samples.friendly
          (AgentClient.create 0 Samples.alice) 0).1) = false.
Proof.
  apply (setRoomAndRound_room_zero Samples.echo_wallet Samples.friendly
           (AgentClient.create 0 Samples.alice)).
  vm_compute. reflexivity.
Defined.

(** ** The participant client: channels, heartbeats, duplicate keys *)

Section channels.
Import AgentClient SignMessage.
Variable W : string → string → outcome string.

Abbreviation inactive :=
  (λ c : SharedWebSocket.t * onClose, SharedWebSocket.isActive c.1 = false).

Lemma older_closed_same_channels s s' :
  channels s' = channels s → older_channels_closed s → older_channels_closed s'.
Proof. unfold older_channels_closed, wsClient. by intros ->. Qed.

Lemma close_wsClient_inactive s :
  older_channels_closed s → Forall inactive (close_wsClient s).
Proof.
  intros [Hne Hold]. unfold close_wsClient.
  destruct (channels s !! wsClient s) as [[ch h]|] eqn:Hch.
  - apply Forall_lookup. intros k [ch' h'] Hk.
    destruct (decide (k = wsClient s)) as [->|Hother].
    + rewrite list_lookup_insert_eq in Hk by (by eapply lookup_lt_Some).
      by injection Hk as <- <-.
    + rewrite list_lookup_insert_ne in Hk by done.
      rewrite Forall_lookup in Hold. apply (Hold k (ch', h')).
      rewrite lookup_take_lt; [done|].
      apply lookup_lt_Some in Hk. unfold wsClient in *. lia.
  - apply lookup_ge_None in Hch. unfold wsClient in Hch.
    destruct (channels s); [done|]. simpl in Hch. lia.
Qed.

Lemma close_wsClient_length s : length (close_wsClient s) = length (channels s).
Proof.
  unfold close_wsClient. destruct (channels s !! wsClient s) as [[ch h]|]; [|done].
  by rewrite length_insert.
Qed.

Lemma older_closed_insert s i c :
  older_channels_closed s →
  (∀ c0, channels s !! i = Some c0 → (i < wsClient s)%nat → inactive c) →
  older_channels_closed (with_channels s (<[i := c]> (channels s))).
Proof.
  intros [Hne Hold] Hc. unfold older_channels_closed, wsClient in *. simpl.
  rewrite length_insert. split.
  - intros Hnil. apply (f_equal length) in Hnil. rewrite length_insert in Hnil.
    by destruct (channels s).
  - apply Forall_lookup. intros k c' Hk.
    destruct (decide (k < pred (length (channels s)))%nat) as [Hlt|Hge];
      [|rewrite lookup_take_ge in Hk by lia; done].
    rewrite lookup_take_lt in Hk by done.
    rewrite Forall_lookup in Hold.
    destruct (decide (k = i)) as [->|Hother].
    + destruct (channels s !! i) as [c0|] eqn:Hi.
      * rewrite list_lookup_insert_eq in Hk by (by eapply lookup_lt_Some).
        injection Hk as <-. by eapply Hc.
      * apply lookup_ge_None in Hi. lia.
    + rewrite list_lookup_insert_ne in Hk by done.
      apply (Hold k c'). by rewrite lookup_take_lt.
Qed.

Lemma absorbs_channels w i h effs : ∀ s,
  channels (foldl (absorb W w i h) s effs) = channels s.
Proof.
  induction effs as [|eff effs IH]; intros s; simpl; [done|].
  rewrite IH. destruct eff as [e|d|data| |]; simpl; try done.
  - by destruct (handleWebSocketMessage_grows W w s data)
      as (out & (_&_&_&Hc&_) & _).
  - destruct h; [done|]. by destruct (isActive s).
Qed.

Lemma setRoomAndRound_older_closed w s room :
  older_channels_closed s → older_channels_closed (setRoomAndRound W w s room).1.
Proof.
  intros Hs. unfold setRoomAndRound.
  destruct (getActiveRound (round w)) as [activeRound|m];
    [|by apply (older_closed_same_channels s)].
  destruct (activeRound =? 0); [by apply (older_closed_same_channels s)|].
  destruct (sign_fresh _ _ _ _) as [sig|m];
    [|by apply (older_closed_same_channels s)].
  simpl.
  match goal with
  | |- older_channels_closed (with_channels ?s2 (close_wsClient ?s2 ++ [?c])) =>
      assert (Hs2 : older_channels_closed s2) by (by apply (older_closed_same_channels s));
      pose proof (close_wsClient_inactive s2 Hs2) as Hclosed;
      generalize dependent (close_wsClient s2)
  end.
  intros l Hl. unfold older_channels_closed, wsClient. simpl. split.
  - by destruct l.
  - rewrite length_app. simpl.
    replace (pred (length l + 1)) with (length l) by lia.
    by rewrite take_app_length.
Qed.

Lemma step_older_closed s w a :
  older_channels_closed s → older_channels_closed (step W s (w, a)).
Proof.
  intros Hs. destruct a as [room|text| |data|i ev|]; simpl.
  - by apply setRoomAndRound_older_closed.
  - destruct (sendAIMessage_grows W w s text) as (out & (_&_&_&Hc&_) & _).
    by apply (older_closed_same_channels s).
  - unfold stop, close_wsClient. simpl.
    change (wsClient (with_isActive s false)) with (wsClient s).
    destruct (channels s !! wsClient s) as [[ch h]|] eqn:Hch;
      [|by apply (older_closed_same_channels s)].
    apply (older_closed_insert (with_isActive s false) (wsClient s)
             (SharedWebSocket.close ch, h)).
    + by apply (older_closed_same_channels s).
    + done.
  - destruct (handleWebSocketMessage_grows W w s data) as (out & (_&_&_&Hc&_) & _).
    by apply (older_closed_same_channels s).
  - destruct (channels s !! i) as [[ch h]|] eqn:Hch; [|done].
    pose proof (step_isActive (now w) ch ev) as Hact.
    destruct (SharedWebSocket.step (now w) ch ev) as [ch' effs]. simpl in Hact.
    eapply older_closed_same_channels; [apply absorbs_channels|].
    apply older_closed_insert; [done|]. intros c0 Hc0 Hlt. simpl. rewrite Hact.
    destruct Hs as [_ Hold]. rewrite Forall_lookup in Hold.
    apply (Hold i (ch, h)). by rewrite lookup_take_lt.
  - destruct (reconnects s) as [|n]; [done|].
    destruct (channels s !! wsClient s) as [[ch h]|] eqn:Hch; [|done].
    apply (older_closed_insert (with_reconnects s n) (wsClient s)
             (SharedWebSocket.connect ch, h)).
    + by apply (older_closed_same_channels s).
    + intros c0 _ Hlt. unfold wsClient in Hlt. simpl in Hlt. lia.
Qed.

Lemma step_channel_event s w i ch h ev :
  channels s !! i = Some (ch, h) →
  channels (step W s (w, Channel i ev)) =
    <[i := ((SharedWebSocket.step (now w) ch ev).1, h)]> (channels s).
Proof.
  intros Hch. simpl. rewrite Hch.
  destruct (SharedWebSocket.step (now w) ch ev) as [ch' effs].
  by rewrite absorbs_channels.
Qed.

Lemma setRoomAndRound_Done_channels w s room :
  (setRoomAndRound W w s room).2 = Done →
  ∃ fresh,
    channels (setRoomAndRound W w s room).1 =
      close_wsClient s ++ [(fresh, ReconnectLater)] ∧
    SharedWebSocket.ws fresh = Some SharedWebSocket.CONNECTING ∧
    SharedWebSocket.isActive fresh = true.
Proof.
  unfold setRoomAndRound.
  destruct (getActiveRound (round w)) as [activeRound|m]; [|done].
  destruct (activeRound =? 0); [done|].
  destruct (sign_fresh _ _ _ _) as [sig|m]; [|done].
  intros _. by eexists.
Qed.

(** X11. Whatever happens to a client after its constructor, it holds at
    least one channel and [close()] has been called on every channel but
    the newest ([wsClient]): the [isActive] flag of the older channels is
    [false]; right after [stop()] this holds for every channel. The flag
    does not mean that the socket is gone. [close()] leaves an armed
    reconnect timer in place, so when [setRoomAndRound] replaces a channel
    whose socket is down and whose reconnect timer is armed, the old
    channel connects again when the timer fires: once both sockets have
    opened the client holds two channels with an open socket and a running
    heartbeat, the old one closed by flag only. The client does not keep
    itself to one open socket. *)
Theorem older_channels_closed_invariant
    (now : Z) (i : identity) (was : list (world * action)) :
  let s := run W (create now i) was in
  older_channels_closed s ∧
  Forall inactive (channels (stop s)) ∧
  (∀ w room ch h delay w1 w2 w3,
     channels s !! wsClient s = Some (ch, h) →
     SharedWebSocket.reconnectTimer ch = Some delay →
     (setRoomAndRound W w s room).2 = Done →
     let s' :=
       run W s [(w, SetRoomAndRound room);
                (w1, Channel (wsClient s) SharedWebSocket.ReconnectTimerFired);
                (w2, Channel (wsClient s) SharedWebSocket.SocketOpen);
                (w3, Channel (S (wsClient s)) SharedWebSocket.SocketOpen)] in
     wsClient s' = S (wsClient s) ∧
     older_channels_closed s' ∧
     ∃ old new,
       channels s' !! wsClient s = Some (old, h) ∧
       channels s' !! S (wsClient s) = Some (new, ReconnectLater) ∧
       SharedWebSocket.isActive old = false ∧
       SharedWebSocket.ws old = Some SharedWebSocket.OPEN ∧
       SharedWebSocket.heartbeatInterval old = true ∧
       SharedWebSocket.isActive new = true ∧
       SharedWebSocket.ws new = Some SharedWebSocket.OPEN ∧
       SharedWebSocket.heartbeatInterval new = true).
Proof.
  assert (Hinv : ∀ was', older_channels_closed (run W (create now i) was')).
  { intros was'. induction was' as [|[w a] was' IH] using rev_ind.
    - unfold older_channels_closed, create, wsClient. simpl. split; [done|constructor].
    - rewrite run_snoc. by apply step_older_closed. }
  intros s. split_and!; [apply Hinv| |].
  { unfold stop. simpl. apply close_wsClient_inactive.
    by apply (older_closed_same_channels s), Hinv. }
  intros w room ch h delay w1 w2 w3 Hch Htimer Hdone s'.
  split_and!.
  2:{ subst s' s. unfold run. rewrite <-foldl_app. apply Hinv. }
  all: set (k := wsClient s) in *.
  all: assert (Hlen : length (channels s) = S k)
    by (apply lookup_lt_Some in Hch; unfold k, wsClient in *; lia).
  all: destruct (setRoomAndRound_Done_channels w s room Hdone)
    as (fresh & Hjoined & Hfresh & Hactive).
  all: assert (Hclose : close_wsClient s = <[k := (SharedWebSocket.close ch, h)]> (channels s))
    by (unfold close_wsClient; fold k; by rewrite Hch).
  all: rewrite Hclose in Hjoined.
  all: set (sa := step W s (w, SetRoomAndRound room)).
  all: assert (Ha : channels sa !! k = Some (SharedWebSocket.close ch, h))
    by (unfold sa; simpl; rewrite Hjoined, lookup_app_l, list_lookup_insert_eq;
        rewrite ?length_insert; first [done|lia]).
  all: set (sb := step W sa (w1, Channel k SharedWebSocket.ReconnectTimerFired)).
  all: pose proof (step_channel_event sa w1 k _ _ SharedWebSocket.ReconnectTimerFired Ha)
    as Hsb; fold sb in Hsb.
  all: assert (Hstepb : (SharedWebSocket.step (AgentClient.now w1) (SharedWebSocket.close ch)
                 SharedWebSocket.ReconnectTimerFired).1 =
               SharedWebSocket.reconnect (SharedWebSocket.close ch))
    by (simpl; by rewrite Htimer).
  all: rewrite Hstepb in Hsb.
  all: assert (Hlena : length (channels sa) = S (S k))
    by (unfold sa; simpl; rewrite Hjoined, length_app, length_insert; simpl; lia).
  all: assert (Hb : channels sb !! k =
                      Some (SharedWebSocket.reconnect (SharedWebSocket.close ch), h))
    by (rewrite Hsb, list_lookup_insert_eq; [done|lia]).
  all: set (sc := step W sb (w2, Channel k SharedWebSocket.SocketOpen)).
  all: pose proof (step_channel_event sb w2 k _ _ SharedWebSocket.SocketOpen Hb) as Hsc;
    fold sc in Hsc.
  all: set (old := (SharedWebSocket.step (AgentClient.now w2)
                      (SharedWebSocket.reconnect (SharedWebSocket.close ch))
                      SharedWebSocket.SocketOpen).1) in *.
  all: assert (Hc : channels sc !! S k = Some (fresh, ReconnectLater))
    by (rewrite Hsc, Hsb, !list_lookup_insert_ne by lia;
        unfold sa; simpl; rewrite Hjoined, lookup_app_r;
        rewrite ?length_insert, ?Hlen; [by rewrite Nat.sub_diag|lia]).
  all: pose proof (step_channel_event sc w3 (S k) _ _ SharedWebSocket.SocketOpen Hc) as Hsd.
  all: set (new := (SharedWebSocket.step (AgentClient.now w3) fresh
                      SharedWebSocket.SocketOpen).1) in *.
  all: change (step W sc (w3, Channel (S k) SharedWebSocket.SocketOpen)) with s' in Hsd.
  - unfold wsClient at 1. rewrite Hsd, Hsc, Hsb, !length_insert, Hlena. done.
  - exists old, new. split_and!.
    + rewrite Hsd, list_lookup_insert_ne by lia.
      rewrite Hsc, list_lookup_insert_eq; [done|]. rewrite Hsb, length_insert. lia.
    + rewrite Hsd, list_lookup_insert_eq; [done|].
      rewrite Hsc, Hsb, !length_insert. lia.
    + done.
    + done.
    + done.
    + unfold new. simpl. rewrite decide_True by done. done.
    + unfold new. simpl. rewrite decide_True by done. done.
    + unfold new. simpl. rewrite decide_True by done. done.
Qed.

(** X12. A heartbeat frame that arrives on a channel stays inside the
    channel: on an open socket [handleMessage] records the answer in
    [lastHeartbeatResponse] and returns; the client's message handler is
    not called, nothing is signed or written, and nothing else of the
    client changes. Any other frame that parses is handed from the open
    socket to the client's handler. So a heartbeat frame from a channel
    never leads to the signed heartbeat reply of [handleWebSocketMessage].
    When the handler is called with a heartbeat frame directly, it writes
    one signed [HEARTBEAT] envelope if the socket of the current channel
    is open and the wallet signs, and it leaves the client as it is in
    every other case. *)
Theorem channel_keeps_heartbeats
    (w : world) (s : t) (i : nat) (ch : SharedWebSocket.t) (h : onClose)
    (m : inbound) :
  channels s !! i = Some (ch, h) → in_type m = Some HEARTBEAT →
  step W s (w, Channel i (SharedWebSocket.SocketMessage (Some m))) =
    with_channels s
      (<[i := ((SharedWebSocket.step (now w) ch
                  (SharedWebSocket.SocketMessage (Some m))).1, h)]> (channels s)) ∧
  (SharedWebSocket.ws ch = Some SharedWebSocket.OPEN →
     (SharedWebSocket.step (now w) ch (SharedWebSocket.SocketMessage (Some m))).1 =
       SharedWebSocket.handleHeartbeat (now w) ch ∧
     ∀ m', in_type m' ≠ Some HEARTBEAT →
       step W s (w, Channel i (SharedWebSocket.SocketMessage (Some m'))) =
         handleWebSocketMessage W w s (Some m')) ∧
  (∀ ch' h' sig,
     channels s !! wsClient s = Some (ch', h') →
     SharedWebSocket.ws ch' = Some SharedWebSocket.OPEN →
     sign_fresh W (now w) (createMessageContent_heartbeat (now w))
       (privateKey (ident s)) = Returned sig →
     outbox (handleWebSocketMessage W w s (Some m)) =
       outbox s ++
       [Frame (wsClient s)
          (Envelope HEARTBEAT
             (sortObjectKeys (JObj (createMessageContent_heartbeat (now w))))
             (Some sig) (Some (walletAddress (ident s))) (Some (now w)))]) ∧
  (handleWebSocketMessage W w s (Some m) ≠ s →
     ∃ ch' h' sig,
       channels s !! wsClient s = Some (ch', h') ∧
       SharedWebSocket.ws ch' = Some SharedWebSocket.OPEN ∧
       sign_fresh W (now w) (createMessageContent_heartbeat (now w))
         (privateKey (ident s)) = Returned sig).
Proof.
  intros Hch Hm. split_and!.
  - simpl. rewrite Hch. simpl.
    destruct (decide (SharedWebSocket.ws ch = Some SharedWebSocket.OPEN)); [|done].
    unfold SharedWebSocket.handleMessage. by rewrite Hm.
  - intros Hopen. split.
    + simpl. rewrite decide_True by done.
      unfold SharedWebSocket.handleMessage. by rewrite decide_True by done.
    + intros m' Hm'. simpl. rewrite Hch. simpl. rewrite decide_True by done.
      unfold SharedWebSocket.handleMessage. rewrite decide_False by done. simpl.
      rewrite list_insert_id by done. by destruct s.
  - intros ch' h' sig Hlast Hopen Hsig.
    unfold handleWebSocketMessage. rewrite Hm, Hsig.
    unfold wsClient_send. rewrite Hlast.
    unfold SharedWebSocket.send. by rewrite decide_True by done.
  - unfold handleWebSocketMessage. rewrite Hm.
    destruct (sign_fresh _ _ _ _) as [sig|msg]; [|done].
    unfold wsClient_send.
    destruct (channels s !! wsClient s) as [[ch' h']|]; [|done].
    unfold SharedWebSocket.send.
    destruct (decide (SharedWebSocket.ws ch' = Some SharedWebSocket.OPEN)) as [Hopen|];
      [intros _; by exists ch', h', sig|].
    simpl. unfold emit. rewrite app_nil_r. intros Hne. exfalso. apply Hne.
    by destruct s.
Qed.

(** X13. [stop()] is final for the client's own reconnect handler: from
    then on the client stays inactive and its [onClose] handler arms no
    further five-second timer, whatever its channels report. A timer armed
    before [stop()] is not cancelled, though: when it fires it calls
    [connect()] on the closed channel, which starts a new socket. *)
Theorem stop_keeps_armed_reconnect (s : t) (was : list (world * action)) :
  isActive (run W (stop s) was) = false ∧
  (reconnects (run W (stop s) was) ≤ reconnects s)%nat ∧
  (∀ w n ch h,
     reconnects s = S n → channels s !! wsClient s = Some (ch, h) →
     ∃ ch', channels (step W (stop s) (w, ReconnectAfterClose)) !! wsClient s
              = Some (ch', h) ∧
            SharedWebSocket.ws ch' = Some SharedWebSocket.CONNECTING ∧
            SharedWebSocket.isActive ch' = false).
Proof.
  assert (Hstep : ∀ s0 w a, isActive s0 = false →
    isActive (step W s0 (w, a)) = false ∧
    (reconnects (step W s0 (w, a)) ≤ reconnects s0)%nat).
  { intros s0 w a Hoff. destruct a as [room|text| |data|i ev|]; simpl.
    - unfold setRoomAndRound.
      destruct (getActiveRound (round w)) as [activeRound|m]; [|done].
      destruct (activeRound =? 0); [done|].
      by destruct (sign_fresh _ _ _ _).
    - destruct (sendAIMessage_grows W w s0 text) as (out & (_&_&_&_&Ha&Hr&_) & _).
      rewrite Ha, Hr. done.
    - done.
    - destruct (handleWebSocketMessage_grows W w s0 data)
        as (out & (_&_&_&_&Ha&Hr&_) & _).
      rewrite Ha, Hr. done.
    - destruct (channels s0 !! i) as [[ch h]|]; [|done].
      destruct (SharedWebSocket.step (now w) ch ev) as [ch' effs].
      assert (Hfold : ∀ effs0 s1, isActive s1 = false →
        isActive (foldl (absorb W w i h) s1 effs0) = false ∧
        reconnects (foldl (absorb W w i h) s1 effs0) = reconnects s1).
      { induction effs0 as [|eff effs0 IH]; intros s1 Hs1; simpl; [done|].
        assert (isActive (absorb W w i h s1 eff) = false ∧
                reconnects (absorb W w i h s1 eff) = reconnects s1) as [Ha Hr].
        { destruct eff as [e|d|data| |]; simpl; try done.
          - destruct (handleWebSocketMessage_grows W w s1 data)
              as (out & (_&_&_&_&Ha&Hr&_) & _).
            by rewrite Ha, Hr.
          - destruct h; [done|]. by rewrite Hs1. }
        destruct (IH _ Ha) as [-> ->]. done. }
      destruct (Hfold effs (with_channels s0 (<[i:=(ch', h)]> (channels s0))) Hoff)
        as [-> ->]. done.
    - destruct (reconnects s0) as [|n] eqn:Hrec; [split; [done|lia]|].
      destruct (channels s0 !! wsClient s0) as [[ch h]|]; simpl;
        (split; [done|lia]). }
  assert (Hrun : ∀ was0 s0, isActive s0 = false →
    isActive (run W s0 was0) = false ∧ (reconnects (run W s0 was0) ≤ reconnects s0)%nat).
  { induction was0 as [|[w a] was0 IH] using rev_ind; intros s0 Hoff; [done|].
    rewrite run_snoc. destruct (IH s0 Hoff) as [Ha Hr].
    destruct (Hstep (run W s0 was0) w a Ha) as [Ha' Hr']. split; [done|lia]. }
  split_and!.
  - by apply Hrun.
  - by apply (Hrun was (stop s)).
  - intros w n ch h Hn Hch. simpl.
    assert (Hlen : wsClient (stop s) = wsClient s).
    { unfold wsClient, stop. simpl. by rewrite close_wsClient_length. }
    rewrite Hn, Hlen. unfold close_wsClient.
    change (wsClient (with_isActive s false)) with (wsClient s).
    simpl. rewrite Hch.
    rewrite list_lookup_insert_eq by (by eapply lookup_lt_Some).
    simpl. rewrite list_lookup_insert_eq
      by (rewrite length_insert; by eapply lookup_lt_Some).
    by eexists.
Qed.

End channels.

Lemma older_channels_closed_invariant_witness :
  ∃ old new,
    AgentClient.channels
      (AgentClient.run Samples.echo_wallet Samples.dropped
         [(Samples.friendly, AgentClient.SetRoomAndRound 290);
          (Samples.friendly, AgentClient.Channel 1 SharedWebSocket.ReconnectTimerFired);
          (Samples.friendly, AgentClient.Channel 1 SharedWebSocket.SocketOpen);
          (Samples.friendly, AgentClient.Channel 2 SharedWebSocket.SocketOpen)])
      !! 1%nat = Some (old, AgentClient.ReconnectLater) ∧
    AgentClient.channels
      (AgentClient.run Samples.echo_wallet Samples.dropped
         [(Samples.friendly, AgentClient.SetRoomAndRound 290);
          (Samples.friendly, AgentClient.Channel 1 SharedWebSocket.ReconnectTimerFired);
          (Samples.friendly, AgentClient.Channel 1 SharedWebSocket.SocketOpen);
          (Samples.friendly, AgentClient.Channel 2 SharedWebSocket.SocketOpen)])
      !! 2%nat = Some (new, AgentClient.ReconnectLater) ∧
    SharedWebSocket.isActive old = false ∧
    SharedWebSocket.ws old = Some SharedWebSocket.OPEN ∧
    SharedWebSocket.heartbeatInterval old = true ∧
    SharedWebSocket.isActive new = true ∧
    SharedWebSocket.ws new = Some SharedWebSocket.OPEN ∧
    SharedWebSocket.heartbeatInterval new = true.
Proof.
  destruct (older_channels_closed_invariant Samples.echo_wallet 0 Samples.alice
              [(Samples.friendly, AgentClient.SetRoomAndRound 290);
               (Samples.friendly, AgentClient.Channel 1 SharedWebSocket.SocketOpen);
               (Samples.friendly, AgentClient.Channel 1 SharedWebSocket.SocketClose)])
    as (_ & _ & Htwo).
  destruct (AgentClient.channels Samples.dropped !! 1%nat) as [[ch h]|] eqn:Hch;
    [|vm_compute in Hch; discriminate Hch].
  destruct (Htwo Samples.friendly 290 ch h 1000 Samples.friendly Samples.friendly
              Samples.friendly Hch
              ltac:(vm_compute in Hch; injection Hch as <- _; reflexivity)
              eq_refl)
    as (_ & _ & old & new & Hold & Hnew & Hrest).
  assert (Hh : h = AgentClient.ReconnectLater)
    by (vm_compute in Hch; injection Hch as _ <-; reflexivity).
  rewrite Hh in Hold.
  exists old, new. split; [exact Hold|]. split; [exact Hnew|exact Hrest].
Defined.

Lemma channel_keeps_heartbeats_witness :
  AgentClient.step Samples.echo_wallet Samples.connected
    (Samples.friendly,
     AgentClient.Channel 1
       (SharedWebSocket.SocketMessage
          (Some (Inbound (Some HEARTBEAT) (Some (JObj [])))))) =
  AgentClient.with_channels Samples.connected
    (<[1%nat := (SharedWebSocket.handleHeartbeat (AgentClient.now Samples.friendly)
                   Samples.open_channel, AgentClient.ReconnectLater)]>
       (AgentClient.channels Samples.connected)).
Proof.
  destruct (channel_keeps_heartbeats Samples.echo_wallet Samples.friendly
              Samples.connected 1 Samples.open_channel AgentClient.ReconnectLater
              (Inbound (Some HEARTBEAT) (Some (JObj [])))
              eq_refl eq_refl) as (Hstep & Hopen & _).
  destruct (Hopen eq_refl) as [Hbeat _].
  rewrite Hstep, Hbeat. reflexivity.
Defined.

(** ** Keys of the duplicate checks *)

Section keys.
Import AgentClient.
Variable W : string → string → outcome string.

Lemma pretty_N_go_dashless (x : N) : ∀ s,
  Participant.dashless s = true → Participant.dashless (pretty_N_go x s) = true.
Proof.
  induction (N.lt_wf_0 x) as [x _ IH]; intros s Hs.
  assert (x = 0 ∨ 0 < x)%N as [->|Hpos] by lia.
  - by rewrite pretty_N_go_0.
  - rewrite pretty_N_go_step by done. apply IH; [by apply N.div_lt|].
    simpl. rewrite Hs. unfold pretty_N_char. by repeat case_match.
Qed.

Lemma pretty_dashless (n : Z) : 0 ≤ n → Participant.dashless (pretty n) = true.
Proof.
  intros Hn. destruct n as [|p|p]; [done| |lia].
  unfold pretty, pretty_Z, pretty, pretty_positive, pretty, pretty_N.
  case_decide; [done|]. by apply pretty_N_go_dashless.
Qed.

(** A string splits in one way only at its first hyphen. *)
Lemma dash_split (p : string) : ∀ p' q q',
  Participant.dashless p = true → Participant.dashless p' = true →
  p +:+ "-" +:+ q = p' +:+ "-" +:+ q' → p = p' ∧ q = q'.
Proof.
  induction p as [|c p IH]; intros [|c' p'] q q' Hp Hp' Heq;
    cbv [String.append] in Heq; fold String.append in Heq; simpl in Hp, Hp'.
  - by injection Heq as ->.
  - injection Heq as <- _. by rewrite Ascii.eqb_refl in Hp'.
  - injection Heq as -> _. by rewrite Ascii.eqb_refl in Hp.
  - injection Heq as -> Heq.
    apply andb_true_iff in Hp as [_ Hp], Hp' as [_ Hp'].
    destruct (IH p' q q' Hp Hp' Heq) as [-> ->]. done.
Qed.

Lemma numeric_key_inj (t1 a1 t2 a2 : Z) :
  0 ≤ t1 → 0 ≤ t2 →
  pretty t1 +:+ "-" +:+ pretty a1 = pretty t2 +:+ "-" +:+ pretty a2 →
  t1 = t2 ∧ a1 = a2.
Proof.
  intros H1 H2 Heq.
  apply dash_split in Heq as [Ht Ha]; [|by apply pretty_dashless..].
  split; by apply (inj pretty).
Qed.

Lemma sendAIMessage_processed w s text :
  processedMessages (sendAIMessage W w s text).1 = processedMessages s.
Proof.
  unfold sendAIMessage.
  destruct (roomId s), (roundId s); try done.
  destruct (unset _ || unset _); [done|].
  destruct (SignMessage.sign_fresh _ _ _ _); [|done].
  by destruct (post_loop _ _ _).
Qed.

Lemma consult_respond_processed w s message :
  processedMessages
    (let (s2, response) := consult w s message in respond W w s2 response) =
  processedMessages s.
Proof.
  unfold consult, respond.
  destruct message as [v|]; [|done]. destruct (truthy v); [|done].
  destruct (reply w) as [r|]; [|done]. case_decide; [done|].
  by rewrite sendAIMessage_processed.
Qed.

Lemma handleAgentMessage_processed w s m :
  processedMessages (handleAgentMessage W w s m) ⊆
  {[ messageId m ]} ∪ processedMessages s.
Proof.
  unfold handleAgentMessage. case_decide; [set_solver|].
  destruct (field "agentId" (in_content m)) as [[| |n| | |]|];
    try (by rewrite consult_respond_processed).
  case_decide; [done|]. by rewrite consult_respond_processed.
Qed.

(** X14. The key of the duplicate check keeps messages with numeric
    stamps apart: two [AGENT_MESSAGE]s whose (timestamp, agentId) pairs
    differ never share a key, so handling one of them does not make the
    client drop the other as a duplicate. *)
Theorem handleAgentMessage_no_false_duplicate
    (w : world) (s : t) (m1 m2 : inbound) (t1 a1 t2 a2 : Z) :
  field "timestamp" (in_content m1) = Some (JNum t1) →
  field "agentId" (in_content m1) = Some (JNum a1) →
  field "timestamp" (in_content m2) = Some (JNum t2) →
  field "agentId" (in_content m2) = Some (JNum a2) →
  0 ≤ t1 → 0 ≤ t2 → t1 ≠ t2 ∨ a1 ≠ a2 →
  messageId m1 ≠ messageId m2 ∧
  (messageId m2 ∉ processedMessages s →
   messageId m2 ∉ processedMessages (handleAgentMessage W w s m1)).
Proof.
  intros Ht1 Ha1 Ht2 Ha2 H1 H2 Hdiff.
  assert (Hne : messageId m1 ≠ messageId m2).
  { unfold messageId. rewrite Ht1, Ha1, Ht2, Ha2. simpl. intros Heq.
    apply numeric_key_inj in Heq as [-> ->]; [|done..]. by destruct Hdiff. }
  split; [done|]. intros Hnew Hin.
  apply handleAgentMessage_processed, elem_of_union in Hin as [Hin|Hin]; [|done].
  apply elem_of_singleton in Hin. congruence.
Qed.

(** X15. Messages that carry neither [content.timestamp] nor
    [content.agentId] all get the key ["undefined-undefined"]: once the
    client has handled one of them, it drops every other one as a
    duplicate, whatever its text. *)
Theorem handleAgentMessage_unstamped_share_key
    (w1 w2 : world) (s : t) (m1 m2 : inbound) :
  field "timestamp" (in_content m1) = None →
  field "agentId" (in_content m1) = None →
  field "timestamp" (in_content m2) = None →
  field "agentId" (in_content m2) = None →
  messageId m1 = "undefined-undefined" ∧
  handleAgentMessage W w2 (handleAgentMessage W w1 s m1) m2 =
    handleAgentMessage W w1 s m1.
Proof.
  intros Ht1 Ha1 Ht2 Ha2.
  assert (Hid : ∀ m, field "timestamp" (in_content m) = None →
                     field "agentId" (in_content m) = None →
                     messageId m = "undefined-undefined").
  { intros m Ht Ha. unfold messageId. by rewrite Ht, Ha. }
  split; [by apply Hid|].
  apply handleAgentMessage_seen. rewrite (Hid m2), <-(Hid m1) by done.
  by destruct (handleAgentMessage_grows W w1 s m1) as (out & _ & _ & _ & Hin).
Qed.

End keys.

Lemma handleAgentMessage_no_false_duplicate_witness :
  AgentClient.messageId (Samples.agent_message 5 56 "the cat sat") ≠
  AgentClient.messageId (Samples.agent_message 5 57 "the cat sat").
Proof.
  apply (handleAgentMessage_no_false_duplicate Samples.echo_wallet Samples.friendly
           Samples.joined (Samples.agent_message 5 56 "the cat sat")
           (Samples.agent_message 5 57 "the cat sat") 5 56 5 57);
    try reflexivity; try lia.
Defined.

Lemma handleAgentMessage_unstamped_share_key_witness :
  AgentClient.messageId (Inbound (Some AGENT_MESSAGE) (Some (JObj [("text", JStr "a")])))
  = "undefined-undefined".
Proof.
  apply (handleAgentMessage_unstamped_share_key Samples.echo_wallet
           Samples.friendly Samples.friendly Samples.joined
           (Inbound (Some AGENT_MESSAGE) (Some (JObj [("text", JStr "a")])))
           (Inbound (Some AGENT_MESSAGE) None));
    reflexivity.
Defined.

(** ** The orchestrator: rate limit, pauses, stopping, start-up *)

Section pacing.
Import DebateOrchestrator.

Lemma waitForRateLimit_gate s :
  lastApiCall s + MIN_API_INTERVAL ≤ lastApiCall (waitForRateLimit s).1 ∧
  lastApiCall (waitForRateLimit s).1 = clock (waitForRateLimit s).1 ∧
  clock s ≤ clock (waitForRateLimit s).1.
Proof. unfold waitForRateLimit. case_decide; simpl; lia. Qed.

Lemma invocations_length_app tr1 tr2 :
  length (invocations (tr1 ++ tr2)) =
  (length (invocations tr1) + length (invocations tr2))%nat.
Proof. by rewrite invocations_app, length_app. Qed.

Lemma retry_from_gate {T} (operation : nat → attempt T) retries fuel : ∀ i s,
  lastApiCall s +
    MIN_API_INTERVAL * Z.of_nat (length (invocations (retry_from operation retries i fuel s).1.2))
  ≤ lastApiCall (retry_from operation retries i fuel s).1.1.
Proof.
  induction fuel as [|fuel IH]; intros i s; simpl; [lia|].
  pose proof (waitForRateLimit_gate s) as (Hgate & _).
  pose proof (waitForRateLimit_quiet s) as [Hq _].
  destruct (waitForRateLimit s) as [s1 tr1]. simpl in *.
  destruct (ended (operation i)) as [v|err].
  - simpl. rewrite invocations_length_app, Hq. simpl. lia.
  - destruct (rate_limited err && bool_decide (S i < retries)%nat).
    + match goal with
      | |- context [retry_from _ _ _ _ ?s'] => specialize (IH (S i) s')
      end.
      destruct (retry_from operation retries (S i) fuel _) as [[s4 tr4] r].
      simpl in *. rewrite invocations_length_app, Hq. simpl.
      fold (invocations tr4). lia.
    + simpl. rewrite invocations_length_app, Hq. simpl. lia.
Qed.

Lemma take_turn_gate why ms r e s :
  lastApiCall s +
    MIN_API_INTERVAL * Z.of_nat (length (invocations (take_turn why ms r e s).1.2))
  ≤ lastApiCall (take_turn why ms r e s).1.1.
Proof.
  unfold take_turn. destruct (has_client r); [|simpl; lia].
  simpl.
  pose proof (retry_from_gate (tries e) (maxRetries config) (maxRetries config)
                0%nat (with_clock s (clock s + ms))) as Hr.
  unfold retryWithBackoff.
  destruct (retry_from _ _ _ _ _) as [[s2 tr2] res].
  simpl in Hr.
  assert (Hint : lastApiCall (interrupt e s2).1 = lastApiCall s2 ∧
                 invocations (interrupt e s2).2 = []).
  { unfold interrupt, stopDebate. destruct (stop_called e); [|done].
    by destruct (has_client (gameMaster s2)). }
  destruct Hint as [Hl Hi]. destruct (interrupt e s2) as [s3 tr3]. simpl in *.
  destruct res as [sent|err]; simpl; rewrite !invocations_length_app; simpl;
    fold (invocations tr2); rewrite ?invocations_length_app, Hi;
    [destruct sent|]; simpl; lia.
Qed.

Lemma agent_turns_gate es rs : ∀ i s,
  lastApiCall s +
    MIN_API_INTERVAL * Z.of_nat (length (invocations (agent_turns es i rs s).1.2))
  ≤ lastApiCall (agent_turns es i rs s).1.1.
Proof.
  induction rs as [|r rs IH]; intros i s; simpl; [lia|].
  destruct (isRunning s); [|simpl; lia].
  unfold handleAgentTurn.
  pose proof (take_turn_gate ResponseDelay (getRandomDelay (es i)) r (es i) s) as Ht.
  destruct (take_turn _ _ r (es i) s) as [[s1 tr1] res]. simpl in Ht.
  destruct res as [u|err]; [|done].
  match goal with
  | |- context [agent_turns es (S i) rs ?s'] => specialize (IH (S i) s')
  end.
  destruct (agent_turns es (S i) rs _) as [[s3 tr3] res']. simpl in *.
  rewrite invocations_length_app. simpl. fold (invocations tr3). lia.
Qed.

Lemma round_gate e s :
  lastApiCall s + MIN_API_INTERVAL * Z.of_nat (length (invocations (round e s).2))
  ≤ lastApiCall (round e s).1.
Proof.
  unfold round, handleGMTurn.
  pose proof (take_turn_gate Thinking (gmThinkingTime config) (gameMaster s)
                (gm_turn e) s) as Ht.
  destruct (take_turn _ _ (gameMaster s) (gm_turn e) s) as [[s1 tr1] res1].
  simpl in Ht. destruct res1 as [u|err]; simpl.
  - match goal with
    | |- context [agent_turns ?es 0 ?rs ?s'] =>
        pose proof (agent_turns_gate es rs 0%nat s') as Ha;
        destruct (agent_turns es 0 rs s') as [[s3 tr3] res3]
    end.
    simpl in Ha. destruct res3; simpl; rewrite !invocations_length_app; simpl;
      fold (invocations tr3); rewrite invocations_length_app; simpl; lia.
  - rewrite invocations_length_app. simpl. lia.
Qed.

(** X16. Every run of a turn's operation first passes [waitForRateLimit],
    which lets it through no sooner than [MIN_API_INTERVAL] after the
    previous pass and stamps [lastApiCall] with the clock: over a debate
    loop in which the operations ran [n] times, [lastApiCall] has moved on
    by at least [n] times 10 seconds. *)
Theorem rate_limit_spaces_operations (es : list iteration) (s : t) :
  (∀ s0, lastApiCall s0 + MIN_API_INTERVAL ≤ lastApiCall (waitForRateLimit s0).1 ∧
         lastApiCall (waitForRateLimit s0).1 = clock (waitForRateLimit s0).1) ∧
  lastApiCall s +
    10000 * Z.of_nat (length (invocations (concat (debate_loop es s).2)))
  ≤ lastApiCall (debate_loop es s).1.
Proof.
  split.
  { intros s0. by destruct (waitForRateLimit_gate s0) as (? & ? & _). }
  revert s. induction es as [|e es IH]; intros s; simpl; [lia|].
  destruct (isRunning s); [|simpl; lia].
  pose proof (round_gate e s) as Hr. destruct (round e s) as [s1 tr].
  specialize (IH s1). destruct (debate_loop es s1) as [s2 trs]. simpl in *.
  rewrite invocations_length_app. unfold MIN_API_INTERVAL in Hr. lia.
Qed.

Lemma waitForRateLimit_clock s : clock s ≤ clock (waitForRateLimit s).1.
Proof. by destruct (waitForRateLimit_gate s) as (_ & _ & ?). Qed.

Lemma retry_from_clock {T} (operation : nat → attempt T) retries fuel : ∀ i s,
  (∀ j, 0 ≤ elapsed (operation j)) →
  clock s ≤ clock (retry_from operation retries i fuel s).1.1.
Proof.
  induction fuel as [|fuel IH]; intros i s Hpos; simpl; [lia|].
  pose proof (waitForRateLimit_clock s) as Hw.
  destruct (waitForRateLimit s) as [s1 tr1]. simpl in *.
  pose proof (Hpos i) as Hi.
  destruct (ended (operation i)) as [v|err]; [simpl; lia|].
  destruct (rate_limited err && bool_decide (S i < retries)%nat); [|simpl; lia].
  match goal with
  | |- context [retry_from _ _ _ _ ?s'] => specialize (IH (S i) s' Hpos)
  end.
  destruct (retry_from operation retries (S i) fuel _) as [[s4 tr4] r].
  simpl in *. assert (0 ≤ retryDelay config * 2 ^ Z.of_nat i) by (simpl; lia). lia.
Qed.

Lemma take_turn_clock why ms r e s :
  0 ≤ ms → (∀ j, 0 ≤ elapsed (tries e j)) →
  clock s ≤ clock (take_turn why ms r e s).1.1.
Proof.
  intros Hms Hpos. unfold take_turn. destruct (has_client r); [|simpl; lia].
  simpl.
  pose proof (retry_from_clock (tries e) (maxRetries config) (maxRetries config)
                0%nat (with_clock s (clock s + ms)) Hpos) as Hr.
  unfold retryWithBackoff.
  destruct (retry_from _ _ _ _ _) as [[s2 tr2] res].
  simpl in Hr.
  assert (Hint : clock (interrupt e s2).1 = clock s2).
  { unfold interrupt. by destruct (stop_called e). }
  destruct (interrupt e s2) as [s3 tr3]. simpl in *.
  destruct res; simpl; lia.
Qed.

Lemma getRandomDelay_range e :
  minResponseDelay config ≤ getRandomDelay e < maxResponseDelay config.
Proof.
  unfold getRandomDelay.
  pose proof (Z.mod_pos_bound (jitter e)
                (maxResponseDelay config - minResponseDelay config)
                ltac:(simpl; lia)) as H.
  simpl in *. lia.
Qed.

Lemma agent_turns_clock es rs : ∀ i s,
  (∀ k j, 0 ≤ elapsed (tries (es k) j)) →
  clock s ≤ clock (agent_turns es i rs s).1.1.
Proof.
  induction rs as [|r rs IH]; intros i s Hpos; simpl; [lia|].
  destruct (isRunning s); [|simpl; lia].
  unfold handleAgentTurn.
  pose proof (take_turn_clock ResponseDelay (getRandomDelay (es i)) r (es i) s) as Ht.
  destruct (take_turn _ _ r (es i) s) as [[s1 tr1] res].
  simpl in Ht. specialize (Ht ltac:(pose proof (getRandomDelay_range (es i)); simpl in *; lia)
                             (Hpos i)).
  destruct res as [u|err]; [|done].
  match goal with
  | |- context [agent_turns es (S i) rs ?s'] => specialize (IH (S i) s' Hpos)
  end.
  destruct (agent_turns es (S i) rs _) as [[s3 tr3] res']. simpl in *. lia.
Qed.

(** X17. No iteration of the loop is a tight one. Each iteration ends
    with a pause, the 30-second break after a full round or the 10-second
    pause after a failed turn, and as long as the operations take no
    negative time the clock has moved on by at least 10 seconds when the
    iteration is over. *)
Theorem iteration_ends_with_pause (e : iteration) (s : t) :
  (∀ j, 0 ≤ elapsed (tries (gm_turn e) j)) →
  (∀ k j, 0 ≤ elapsed (tries (agent_turn e k) j)) →
  (last (round e s).2 = Some (Slept RoundBreak 30000) ∨
   last (round e s).2 = Some (Slept ErrorPause 10000)) ∧
  clock s + 10000 ≤ clock (round e s).1.
Proof.
  intros Hgm Hag. unfold round, handleGMTurn.
  pose proof (take_turn_clock Thinking (gmThinkingTime config) (gameMaster s)
                (gm_turn e) s ltac:(simpl; lia) Hgm) as Ht.
  destruct (take_turn _ _ (gameMaster s) (gm_turn e) s) as [[s1 tr1] res1].
  simpl in Ht. destruct res1 as [u|err]; simpl.
  - match goal with
    | |- context [agent_turns ?es 0 ?rs ?s'] =>
        pose proof (agent_turns_clock es rs 0%nat s' Hag) as Ha;
        destruct (agent_turns es 0 rs s') as [[s3 tr3] res3]
    end.
    simpl in Ha. destruct res3; simpl; rewrite last_app, last_cons, last_snoc;
      (split; [auto|lia]).
  - rewrite last_snoc. split; [auto|lia].
Qed.

(** The observations of the retry loop are waits and runs only. *)
Lemma retry_from_quiet {T} (operation : nat → attempt T) retries fuel : ∀ i s,
  broadcasts (retry_from operation retries i fuel s).1.2 = [] ∧
  pauses ResponseDelay (retry_from operation retries i fuel s).1.2 = [].
Proof.
  induction fuel as [|fuel IH]; intros i s; simpl; [done|].
  assert (Hw : broadcasts (waitForRateLimit s).2 = [] ∧
               pauses ResponseDelay (waitForRateLimit s).2 = [])
    by (unfold waitForRateLimit; by case_decide).
  destruct Hw as [Hb Hp]. destruct (waitForRateLimit s) as [s1 tr1]. simpl in *.
  unfold broadcasts, pauses in *.
  destruct (ended (operation i)) as [v|err]; simpl.
  - by rewrite !omap_app, Hb, Hp.
  - destruct (rate_limited err && bool_decide (S i < retries)%nat); simpl.
    + match goal with
      | |- context [retry_from _ _ _ _ ?s'] => specialize (IH (S i) s')
      end.
      destruct (retry_from operation retries (S i) fuel _) as [[s4 tr4] r].
      simpl in *. destruct IH as [IHb IHp].
      rewrite !omap_app, Hb, Hp. simpl. split; assumption.
    + by rewrite !omap_app, Hb, Hp.
Qed.

Lemma take_turn_stopped why ms r e s :
  has_client r = true → stop_called e = true →
  isRunning (take_turn why ms r e s).1.1 = false ∧
  phase (take_turn why ms r e s).1.1 = end_ ∧
  sends (take_turn why ms r e s).1.2 `sublist_of` [name r] ∧
  broadcasts (take_turn why ms r e s).1.2 =
    (if has_client (gameMaster s) then ["Debate session ended."] else []) ∧
  agents (take_turn why ms r e s).1.1 = agents s ∧
  gameMaster (take_turn why ms r e s).1.1 = gameMaster s.
Proof.
  intros Hr He. unfold take_turn. rewrite Hr. simpl.
  pose proof (retry_from_cast (tries e) (maxRetries config) (maxRetries config)
                0%nat (with_clock s (clock s + ms))) as Hc.
  pose proof (retry_from_quiet (tries e) (maxRetries config) (maxRetries config)
                0%nat (with_clock s (clock s + ms))) as [Hb _].
  unfold retryWithBackoff.
  destruct (retry_from _ _ _ _ _) as [[s2 tr2] res].
  simpl in *. destruct Hc as (Hs & [Ha Hg] & _). simpl in Ha, Hg.
  unfold interrupt. rewrite He. unfold stopDebate. simpl. rewrite Hg.
  unfold broadcasts in *.
  destruct res as [sent|err]; simpl; rewrite ?sends_app, !omap_app, Hs, Hb; simpl.
  - destruct sent, (has_client (gameMaster s)); simpl;
      split_and!; try done; by repeat constructor.
  - destruct (has_client (gameMaster s)); simpl;
      split_and!; try done; by repeat constructor.
Qed.

Lemma agent_turns_stopped es rs i s :
  isRunning s = false → agent_turns es i rs s = (s, [], Ok ()).
Proof. intros H. destruct rs; simpl; [done|]. by rewrite H. Qed.

Lemma debate_loop_stopped es s :
  isRunning s = false → debate_loop es s = (s, []).
Proof. intros H. destruct es; simpl; [done|]. by rewrite H. Qed.

(** X18. When [stopDebate()] is called while a turn is in flight, that
    turn is the last one: the loop ends with the running flag cleared and
    the phase at its end, at most the speaker of that turn has sent, and
    the closing broadcast went out once. For a call during the game
    master's turn the iteration has no debater turn at all and no further
    iteration runs; for a call during a debater's turn the debaters after
    it are skipped. *)
Theorem stopDebate_ends_turns (e : iteration) (rest : list iteration) (s : t) :
  has_client (gameMaster s) = true →
  (isRunning s = true → stop_called (gm_turn e) = true →
   ∃ tr, (debate_loop (e :: rest) s).2 = [tr] ∧
         sends tr `sublist_of` [name (gameMaster s)] ∧
         pauses ResponseDelay tr = [] ∧
         broadcasts tr = ["Debate session ended."] ∧
         isRunning (debate_loop (e :: rest) s).1 = false ∧
         phase (debate_loop (e :: rest) s).1 = end_) ∧
  (∀ i r rs,
     isRunning s = true → has_client r = true →
     stop_called (agent_turn e i) = true →
     sends (agent_turns (agent_turn e) i (r :: rs) s).1.2 `sublist_of` [name r] ∧
     broadcasts (agent_turns (agent_turn e) i (r :: rs) s).1.2 =
       ["Debate session ended."] ∧
     isRunning (agent_turns (agent_turn e) i (r :: rs) s).1.1 = false).
Proof.
  intros Hgm. split.
  - intros Hrun Hstop. simpl. rewrite Hrun. unfold round, handleGMTurn.
    pose proof (take_turn_stopped Thinking (gmThinkingTime config) (gameMaster s)
                  (gm_turn e) s Hgm Hstop) as (Hoff & Hph & Hsends & Hb & _).
    rewrite Hgm in Hb.
    assert (Hp : pauses ResponseDelay
                   (take_turn Thinking (gmThinkingTime config) (gameMaster s)
                      (gm_turn e) s).1.2 = []).
    { unfold take_turn. rewrite Hgm. simpl.
      pose proof (retry_from_quiet (tries (gm_turn e)) (maxRetries config)
                    (maxRetries config) 0%nat
                    (with_clock s (clock s + gmThinkingTime config))) as [_ Hq].
      unfold retryWithBackoff.
      destruct (retry_from _ _ _ _ _) as [[s2 tr2] res].
      simpl in Hq. unfold interrupt, stopDebate. rewrite Hstop.
      unfold pauses in *.
      destruct res as [sent|err]; simpl; rewrite !omap_app, Hq;
        [destruct sent|]; by destruct (has_client (gameMaster s2)). }
    destruct (take_turn _ _ (gameMaster s) (gm_turn e) s) as [[s1 tr1] res1].
    simpl in *. unfold broadcasts, pauses in *.
    destruct res1 as [u|err]; simpl.
    + rewrite agent_turns_stopped by done. simpl.
      rewrite debate_loop_stopped by done.
      eexists. split; [done|].
      rewrite !sends_app, !omap_app, Hb, Hp. simpl. rewrite !app_nil_r.
      by split_and!.
    + rewrite debate_loop_stopped by done.
      eexists. split; [done|].
      rewrite !sends_app, !omap_app, Hb, Hp. simpl. rewrite !app_nil_r.
      by split_and!.
  - intros i r rs Hrun Hr Hstop. simpl. rewrite Hrun. unfold handleAgentTurn.
    pose proof (take_turn_stopped ResponseDelay (getRandomDelay (agent_turn e i)) r
                  (agent_turn e i) s Hr Hstop) as (Hoff & _ & Hsends & Hb & _).
    rewrite Hgm in Hb.
    destruct (take_turn _ _ r (agent_turn e i) s) as [[s1 tr1] res].
    simpl in *. destruct res as [u|err]; simpl; [|done].
    rewrite agent_turns_stopped by done. simpl.
    unfold broadcasts in *. rewrite !sends_app, !omap_app, Hb. simpl.
    rewrite !app_nil_r. by split_and!.
Qed.

End pacing.

Section sessions.
Import DebateOrchestrator.

(** X19. A turn that fails with anything but a rate limit ends the
    iteration at once: the operation ran a single time, nobody sent, no
    debater's turn was started, the loop paused for the 10 seconds of
    [retryDelay], and the running flag is as it was, so the next
    iteration starts with the game master again. *)
Theorem failed_turn_ends_iteration (e : iteration) (s : t) (err : error) :
  has_client (gameMaster s) = true → stop_called (gm_turn e) = false →
  ended (tries (gm_turn e) 0) = Err err → rate_limited err = false →
  invocations (round e s).2 = [0%nat] ∧
  sends (round e s).2 = [] ∧
  pauses ResponseDelay (round e s).2 = [] ∧
  pauses ErrorPause (round e s).2 = [10000] ∧
  last (round e s).2 = Some (Slept ErrorPause 10000) ∧
  isRunning (round e s).1 = isRunning s.
Proof.
  intros Hgm Hstop Hend Hrl.
  unfold round, handleGMTurn, take_turn, retryWithBackoff. rewrite Hgm.
  simpl. rewrite Hend, Hrl. simpl. unfold interrupt. rewrite Hstop. simpl.
  unfold waitForRateLimit. simpl. case_decide; simpl; by split_and!.
Qed.

Lemma separate_outcome : ∀ runtimes gm others,
  match separate runtimes gm others with
  | Returned (gm', others') =>
      Forall (λ r, agentRole r ≠ AgentRole.Untyped) runtimes ∧
      others' = others ++ filter (λ r, role_is_gm r = Returned false) runtimes ∧
      ((gm' = gm ∧ Forall (λ r, role_is_gm r = Returned false) runtimes) ∨
       (∃ before x after, runtimes = before ++ x :: after ∧ gm' = Some x ∧
          role_is_gm x = Returned true ∧
          Forall (λ r, role_is_gm r = Returned false) after))
  | Thrown m =>
      m = AgentRole.TypeError ∧
      Exists (λ r, agentRole r = AgentRole.Untyped) runtimes
  end.
Proof.
  induction runtimes as [|r rest IH]; intros gm others; simpl.
  - split_and!; [done|by rewrite app_nil_r|by left].
  - destruct (AgentRole.isGM (agentRole r)) as [[|]|m] eqn:Hr.
    + specialize (IH (Some r) others).
      destruct (separate rest (Some r) others) as [[gm' others']|m].
      * destruct IH as (Hall & -> & Hgm). split_and!.
        -- constructor; [|done]. intros Hu. by rewrite Hu in Hr.
        -- rewrite filter_cons_False; [done|]. unfold role_is_gm. by rewrite Hr.
        -- right. destruct Hgm as [[-> Hrest]|(before & x & after & -> & -> & Hx & Hafter)].
           ++ by exists [], r, rest.
           ++ by exists (r :: before), x, after.
      * destruct IH as [-> Hex]. split; [done|]. by right.
    + specialize (IH gm (others ++ [r])).
      destruct (separate rest gm (others ++ [r])) as [[gm' others']|m].
      * destruct IH as (Hall & -> & Hgm). split_and!.
        -- constructor; [|done]. intros Hu. by rewrite Hu in Hr.
        -- rewrite filter_cons_True by done. by rewrite <-app_assoc.
        -- destruct Hgm as [[-> Hrest]|(before & x & after & -> & -> & Hx & Hafter)].
           ++ left. split; [done|]. by constructor.
           ++ right. by exists (r :: before), x, after.
      * destruct IH as [-> Hex]. split; [done|]. by right.
    + destruct (agentRole r) eqn:Hrole; simpl in Hr; try done.
      injection Hr as <-. split; [done|]. by left.
Qed.

(** X20. The constructor goes through the runtimes once. It throws the
    [TypeError] of the role test exactly when some runtime has an
    [agentRole] without a [type], whether or not a game master is among
    the others, and [No GM found in provided runtimes] exactly when every
    role test gives [false]. Otherwise the game master is the last runtime
    whose test gives [true], every runtime after it is a regular agent, and
    the agents are the runtimes whose test gives [false], in the order
    given: of several game masters only the last one takes part, and the
    earlier ones are in neither field. *)
Theorem create_splits_runtimes (runtimes : list runtime) :
  match create runtimes with
  | Returned o =>
      Forall (λ r, agentRole r ≠ AgentRole.Untyped) runtimes ∧
      (∃ before after, runtimes = before ++ gameMaster o :: after ∧
         role_is_gm (gameMaster o) = Returned true ∧
         Forall (λ r, role_is_gm r = Returned false) after) ∧
      agents o = filter (λ r, role_is_gm r = Returned false) runtimes ∧
      roomId o = None ∧ roundId o = None ∧ isRunning o = false
  | Thrown m =>
      (m = AgentRole.TypeError ∧
       Exists (λ r, agentRole r = AgentRole.Untyped) runtimes) ∨
      (m = "No GM found in provided runtimes" ∧
       Forall (λ r, agentRole r ≠ AgentRole.Untyped) runtimes ∧
       Forall (λ r, role_is_gm r = Returned false) runtimes)
  end.
Proof.
  unfold create. pose proof (separate_outcome runtimes None []) as H.
  destruct (separate runtimes None []) as [[[gm|] others]|m].
  - destruct H as (Hall & -> & [[? _]|(before & x & after & -> & [= ->] & Hx & Hafter)]);
      [done|]. simpl. split_and!; try done. by exists before, after.
  - destruct H as (Hall & _ & [[_ Hrest]|(before & x & after & _ & ? & _)]); [|done].
    right. by split_and!.
  - left. done.
Qed.

Lemma with_clock_twice s a b : with_clock (with_clock s a) b = with_clock s b.
Proof. done. Qed.

Lemma verify_from_settles statuses : ∀ k retries fuel s,
  (k ≤ fuel)%nat →
  (∀ j, (j < k)%nat → allConnected (statuses (retries + j)%nat) = false) →
  (k < fuel → allConnected (statuses (retries + k)%nat) = true)%nat →
  verify_from statuses retries fuel s =
    (if decide (k = 0%nat) then s else with_clock s (clock s + 2000 * Z.of_nat k),
     if decide (k < fuel)%nat then Ok ()
     else Err {| statusCode := None;
                 message := "Failed to establish connections for all agents" |}).
Proof.
  induction k as [|k IH]; intros retries fuel s Hle Hbefore Hat.
  - destruct fuel as [|fuel]; simpl; [done|].
    rewrite Nat.add_0_r in Hat. rewrite Hat by lia.
    repeat case_decide; (done || lia).
  - destruct fuel as [|fuel]; [lia|]. simpl.
    rewrite <-(Nat.add_0_r retries) at 1. rewrite Hbefore by lia.
    rewrite (IH (S retries) fuel); [|lia| |].
    + simpl. f_equal.
      * case_decide as Hk; [subst; simpl; f_equal; lia|].
        rewrite with_clock_twice. simpl. f_equal. lia.
      * repeat case_decide; (done || lia).
    + intros j Hj. replace (S retries + j)%nat with (retries + S j)%nat by lia.
      apply Hbefore. lia.
    + intros Hk. replace (S retries + k)%nat with (retries + S k)%nat by lia.
      apply Hat. lia.
Qed.

Lemma verify_from_frame statuses fuel : ∀ retries s,
  same_cast s (verify_from statuses retries fuel s).1 ∧
  roomId (verify_from statuses retries fuel s).1 = roomId s ∧
  roundId (verify_from statuses retries fuel s).1 = roundId s ∧
  ((verify_from statuses retries fuel s).2 = Ok () →
   ∃ k, (retries ≤ k < retries + fuel)%nat ∧ allConnected (statuses k) = true).
Proof.
  induction fuel as [|fuel IH]; intros retries s; simpl.
  - by split_and!.
  - destruct (allConnected (statuses retries)) eqn:Hcon; simpl.
    + split_and!; try done. intros _. exists retries. split; [lia|done].
    + destruct (IH (S retries) (with_clock s (clock s + 2000)))
        as ([Ha Hg] & Hroom & Hround & Hok).
      split_and!; try done. intros Hres.
      destruct (Hok Hres) as (k & Hk & Hat). exists k. split; [lia|done].
Qed.

(** X21. [verifyConnections] looks at the connections at most ten times,
    2 seconds apart: when the look with index [k < 10] is the first to
    find every client connected, it returns after exactly [k] waits; when
    none of the ten looks does, it throws after ten waits, 20 seconds in
    all, and looks no further. *)
Theorem verifyConnections_budget (statuses : nat → list bool) (s : t) (k : nat) :
  (k ≤ 10)%nat →
  (∀ j, (j < k)%nat → allConnected (statuses j) = false) →
  (k < 10 → allConnected (statuses k) = true)%nat →
  (verifyConnections statuses s).2 =
    (if decide (k < 10)%nat then Ok ()
     else Err {| statusCode := None;
                 message := "Failed to establish connections for all agents" |}) ∧
  clock (verifyConnections statuses s).1 = clock s + 2000 * Z.of_nat k ∧
  same_cast s (verifyConnections statuses s).1 ∧
  roomId (verifyConnections statuses s).1 = roomId s ∧
  roundId (verifyConnections statuses s).1 = roundId s.
Proof.
  intros Hk Hbefore Hat. unfold verifyConnections.
  rewrite (verify_from_settles statuses k 0 10 s Hk Hbefore Hat). simpl.
  unfold same_cast.
  destruct (decide (k = 0%nat)) as [->|Hk0]; simpl; split_and!; try done; lia.
Qed.


Lemma join_agents_order j rs : ∀ i,
  (join_agents j i rs).1 `prefix_of` map name rs ∧
  ((join_agents j i rs).2 = Returned () →
   (join_agents j i rs).1 = map name rs ∧
   Forall (λ r, has_client r = true) rs ∧
   ∀ k, (k < length rs)%nat → agent_joins j (i + k)%nat = Returned ()).
Proof.
  induction rs as [|r rs IH]; intros i; simpl.
  - split; [done|]. intros _. split_and!; [done|constructor|intros k Hk; lia].
  - destruct (has_client r) eqn:Hr; [|split; [apply prefix_nil|done]].
    destruct (agent_joins j i) as [[]|m] eqn:Hjoin; simpl.
    + destruct (IH (S i)) as [Hpre Hall].
      destruct (join_agents j (S i) rs) as [asked res]. simpl in *.
      split; [by apply prefix_cons|]. intros Hres.
      destruct (Hall Hres) as (-> & Hclients & Hjoins). split_and!; [done|by constructor|].
      intros [|k] Hk; [by rewrite Nat.add_0_r|].
      replace (i + S k)%nat with (S i + k)%nat by lia. apply Hjoins. lia.
    + split; [|done]. apply prefix_cons, prefix_nil.
Qed.

(** What [initialize] leaves behind, whether it returns or throws. *)
Lemma initialize_frame room j s :
  roomId (initialize room j s).1.1 = Some room ∧
  same_cast s (initialize room j s).1.1 ∧
  ((initialize room j s).2 = Returned () → has_client (gameMaster s) = true).
Proof.
  unfold initialize.
  destruct (has_client (gameMaster s)); simpl; [|done].
  destruct (gm_joins j) as [round_|m]; simpl; [|done].
  destruct (join_agents j 0 (agents s)) as [asked [[]|m]]; simpl; [|done].
  unfold verifyConnections.
  destruct (verify_from_frame (statuses j) 10 0
              (with_roundId (with_roomId s (Some room)) round_))
    as (Hcast & Hroom & _).
  destruct (verify_from _ _ _ _) as [s3 v]. simpl in *. by split_and!.
Qed.

(** X22. [initialize(roomId)] stores the room before anything can fail
    and asks the clients to join in turn order, the game master first and
    the agents in the order of construction, stopping at the first one
    that is missing or throws. When it returns, every participant has a
    client and was asked, the round is the one the game master's client
    reports, and some look of [verifyConnections] found everybody
    connected. *)
Theorem initialize_joins_in_turn_order (room : Z) (j : joining) (s : t) :
  roomId (initialize room j s).1.1 = Some room ∧
  same_cast s (initialize room j s).1.1 ∧
  (initialize room j s).1.2 `prefix_of` turn_order s ∧
  ((initialize room j s).2 = Returned () →
   (initialize room j s).1.2 = turn_order s ∧
   has_client (gameMaster s) = true ∧
   Forall (λ r, has_client r = true) (agents s) ∧
   gm_joins j = Returned (roundId (initialize room j s).1.1) ∧
   ∃ k, (k < 10)%nat ∧ allConnected (statuses j k) = true).
Proof.
  unfold initialize, turn_order.
  destruct (has_client (gameMaster s)) eqn:Hgm; simpl;
    [|split_and!; [done|done|apply prefix_nil|done]].
  destruct (gm_joins j) as [round_|m] eqn:Hjoin; simpl;
    [|split_and!; [done|done|apply prefix_cons, prefix_nil|done]].
  destruct (join_agents_order j (agents s) 0) as [Hpre Hall].
  destruct (join_agents j 0 (agents s)) as [asked res]. simpl in *.
  destruct res as [[]|m]; simpl;
    [|split_and!; [done|done|by apply prefix_cons|done]].
  destruct (Hall eq_refl) as (-> & Hclients & _).
  unfold verifyConnections.
  destruct (verify_from_frame (statuses j) 10 0
              (with_roundId (with_roomId s (Some room)) round_))
    as (Hcast & Hroom & Hround & Hok).
  destruct (verify_from _ _ _ _) as [s3 v]. simpl in *.
  split_and!; [done|done|done|].
  destruct v as [[]|e]; [|done]. intros _.
  split_and!; [done..|by rewrite Hround|].
  destruct (Hok eq_refl) as (k & Hk & Hat). exists k. split; [lia|done].
Qed.

(** X23. A successful [initialize] does not by itself let [startDebate]
    pass its guard: the guard reads the room and the round as booleans,
    so after [initialize(0)], or when the game master's client reports no
    round or round 0, [startDebate] throws and broadcasts nothing. With a
    nonzero room and round the guard passes, the game master's client is
    there, and the three opening broadcasts go out before the loop is
    entered. *)
Theorem startDebate_after_initialize
    (room : Z) (j : joining) (s : t) (opening : nat) (es : list iteration) :
  (initialize room j s).2 = Returned () →
  (room = 0 ∨ AgentClient.unset (roundId (initialize room j s).1.1) = true →
   startDebate opening es (initialize room j s).1.1 =
     ((initialize room j s).1.1, [], [],
      Some (Thrown "Must call initialize() with room and round IDs first"))) ∧
  (room ≠ 0 → AgentClient.unset (roundId (initialize room j s).1.1) = false →
   (startDebate opening es (initialize room j s).1.1).1.1.2 =
     map Broadcast
       (take opening
          ["Room initialized. Beginning debate round.";
           "Beginning discussion phase. Agents may now engage in debate.";
           "Let's discuss the future of cryptocurrency. What are your thoughts on Bitcoin versus Ethereum?"]) ∧
   ((startDebate opening es (initialize room j s).1.1).1.2 ≠ [] → (3 ≤ opening)%nat)).
Proof.
  intros Hret.
  destruct (initialize_frame room j s) as (Hroom & [_ Hg] & Hok).
  pose proof (Hok Hret) as Hgm.
  unfold startDebate. rewrite Hroom, Hg, Hgm. simpl. split.
  - intros [->|Hround]; [done|]. rewrite Hround. by rewrite orb_true_r.
  - intros Hr0 Hround. rewrite Hround.
    apply Z.eqb_neq in Hr0. rewrite Hr0. simpl.
    case_decide as Hopen; simpl.
    + split; [done|]. by intros [].
    + destruct (debate_loop es _) as [s2 trs]. simpl.
      split; [|intros _; lia].
      by rewrite take_ge by (simpl; lia).
Qed.

End sessions.

Lemma iteration_ends_with_pause_witness :
  DebateOrchestrator.clock Samples.debating + 10000 ≤
  DebateOrchestrator.clock
    (DebateOrchestrator.round Samples.everybody_sends Samples.debating).1.
Proof.
  apply (iteration_ends_with_pause Samples.everybody_sends Samples.debating).
  - intros j. simpl. lia.
  - intros k j. simpl. lia.
Defined.

Lemma stopDebate_ends_turns_witness :
  ∃ tr,
    (DebateOrchestrator.debate_loop [Samples.gm_stops; Samples.everybody_sends]
       Samples.debating).2 = [tr] ∧
    DebateOrchestrator.sends tr `sublist_of` ["M"] ∧
    DebateOrchestrator.pauses DebateOrchestrator.ResponseDelay tr = [] ∧
    DebateOrchestrator.broadcasts tr = ["Debate session ended."] ∧
    DebateOrchestrator.isRunning
      (DebateOrchestrator.debate_loop [Samples.gm_stops; Samples.everybody_sends]
         Samples.debating).1 = false ∧
    DebateOrchestrator.phase
      (DebateOrchestrator.debate_loop [Samples.gm_stops; Samples.everybody_sends]
         Samples.debating).1 = DebateOrchestrator.end_.
Proof.
  apply (stopDebate_ends_turns Samples.gm_stops [Samples.everybody_sends]
           Samples.debating); reflexivity.
Defined.

Lemma failed_turn_ends_iteration_witness :
  DebateOrchestrator.sends
    (DebateOrchestrator.round Samples.gm_fails Samples.debating).2 = [].
Proof.
  apply (failed_turn_ends_iteration Samples.gm_fails Samples.debating
           {| DebateOrchestrator.statusCode := Some 500;
              DebateOrchestrator.message := "Internal Server Error" |});
    reflexivity.
Defined.

Lemma verifyConnections_budget_witness :
  DebateOrchestrator.clock
    (DebateOrchestrator.verifyConnections (Samples.connects_at 2)
       Samples.initialized).1 =
  DebateOrchestrator.clock Samples.initialized + 2000 * Z.of_nat 2.
Proof.
  apply (verifyConnections_budget (Samples.connects_at 2) Samples.initialized 2).
  - lia.
  - intros j Hj. assert (j = 0 ∨ j = 1)%nat as [->| ->] by lia; reflexivity.
  - intros _. reflexivity.
Defined.

Lemma startDebate_after_initialize_witness :
  DebateOrchestrator.startDebate 3 [Samples.everybody_sends]
    (DebateOrchestrator.initialize 0 Samples.everybody_joins Samples.initialized).1.1 =
  ((DebateOrchestrator.initialize 0 Samples.everybody_joins Samples.initialized).1.1,
   [], [],
   Some (Thrown "Must call initialize() with room and round IDs first")).
Proof.
  apply (startDebate_after_initialize 0 Samples.everybody_joins Samples.initialized
           3 [Samples.everybody_sends]).
  - reflexivity.
  - left. reflexivity.
Defined.

(** ** Signing the same object again *)

Section signing_again.
Import SignMessage.
Variable W : string → string → outcome string.

(** X24. Signing an object a second time gives the signature of the first
    time, whatever the clock reads by then: the first call has left a
    timestamp in the object (its own clock reading, unless the object
    carried one), so the second call changes nothing and hands the same
    string to the wallet. The first clock reading must not be zero, which
    would be written and then taken for a missing timestamp. *)
Theorem signMessage_again_same_signature
    (now1 now2 : Z) (st : store) (content : ref) (key : string) :
  now1 ≠ 0 → is_Some (st !! content) →
  signMessage W now2 (signMessage W now1 st content key).1 content key =
  signMessage W now1 st content key.
Proof.
  intros Hnow [fs Hfs]. unfold signMessage at 2 3. rewrite Hfs.
  destruct (truthy_opt (obj_get "timestamp" fs)) eqn:Htruthy; simpl.
  - unfold signMessage. rewrite Hfs, Htruthy.
    by rewrite (messageString_stamped now2 now1).
  - unfold signMessage. rewrite lookup_insert_eq.
    assert (Hset : truthy_opt (obj_get "timestamp"
                     (obj_set "timestamp" (JNum now1) fs)) = true).
    { rewrite obj_get_obj_set, decide_True by done. simpl.
      by apply negb_true_iff, Z.eqb_neq. }
    rewrite Hset. do 2 f_equal.
    unfold messageString, stamped. by rewrite Hset, Htruthy.
Qed.

End signing_again.

Lemma signMessage_again_same_signature_witness :
  SignMessage.signMessage Samples.echo_wallet 2000
    (SignMessage.signMessage Samples.echo_wallet 1000
       {[ 0%nat := Samples.unstamped_a ]} 0%nat "key").1 0%nat "key" =
  SignMessage.signMessage Samples.echo_wallet 1000
    {[ 0%nat := Samples.unstamped_a ]} 0%nat "key".
Proof.
  apply signMessage_again_same_signature; [lia|exists Samples.unstamped_a; reflexivity].
Defined.

(** ** The integration: construction, rate limit, generation *)

Section participant.
Import Participant.
Variable env : string → option string.
Variable ROOM_ID : option Z.
Variable Wallet_address : string → outcome string.
Variable W : string → string → outcome string.

Lemma nonempty_Some o s : nonempty o = Some s → o = Some s ∧ s ≠ EmptyString.
Proof.
  unfold nonempty. destruct o as [s'|]; [|done]. case_decide; [done|].
  by intros [= ->].
Qed.

Lemma nonzero_Some o n : nonzero o = Some n → o = Some n ∧ n ≠ 0.
Proof.
  unfold nonzero. destruct o as [n'|]; [|done].
  destruct (n' =? 0) eqn:H0; [done|]. intros [= ->]. by apply Z.eqb_neq in H0.
Qed.

Lemma new_AgentClient_Returned now endpoint wallet id port c :
  new_AgentClient env Wallet_address now endpoint wallet id port = Returned c →
  ∃ key address,
    env (privateKeyEnv id) = Some key ∧ key ≠ EmptyString ∧
    Wallet_address key = Returned address ∧
    toLowerCase address = toLowerCase wallet ∧
    c = AgentClient.create now
          {| AgentClient.walletAddress := wallet;
             AgentClient.agentNumericId := id;
             AgentClient.privateKey := key;
             AgentClient.endpoint := endpoint |}.
Proof.
  unfold new_AgentClient.
  destruct (nonempty (env (privateKeyEnv id))) as [key|] eqn:Hkey; [|done].
  apply nonempty_Some in Hkey as [Hkey Hne].
  destruct (Wallet_address key) as [address|m] eqn:Haddr; [|done].
  case_decide as Hsame; [|done]. intros [= <-]. by exists key, address.
Qed.

Lemma getAgentConfig_Returned char id cfg :
  getAgentConfig env ROOM_ID char (Some id) = Returned cfg → id ≠ 0 →
  (id = 50 ∧ agent_port cfg = 3331) ∨ (id = 56 ∧ agent_port cfg = 3332) ∨
  (id = 57 ∧ agent_port cfg = 3333) ∨ (id = 58 ∧ agent_port cfg = 3334).
Proof.
  unfold getAgentConfig, nonzero. intros Hcfg Hid.
  apply Z.eqb_neq in Hid. rewrite Hid in Hcfg. simpl in Hcfg.
  destruct (decide (id = 50)) as [->|]; [injection Hcfg as <-; auto|].
  destruct (decide (id = 56)) as [->|]; [injection Hcfg as <-; auto|].
  destruct (decide (id = 57)) as [->|]; [injection Hcfg as <-; auto 6|].
  destruct (decide (id = 58)) as [->|]; [injection Hcfg as <-; auto 6|].
  exfalso. revert Hcfg.
  repeat (match goal with
          | |- context [match ?x with _ => _ end] => destruct x
          end; try done).
Qed.

(** X25. An integration for an agent comes into being only when the
    agent's id is one of 50, 56, 57 and 58, the environment holds a
    non-empty [AGENT_<id>_PRIVATE_KEY], and the wallet built from that
    key has the given address up to the case of its letters. The client
    it then holds is a fresh one built on the key of the environment, and
    the integration starts with an empty context, no effects and no
    processed keys. *)
Theorem agent_integration_requirements
    (now : Z) (char : Character) (config : Config) (s : t) (c : AgentClient.t) :
  create env ROOM_ID Wallet_address now char config = Returned s →
  client s = Agent c →
  isGM char = Returned false ∧
  (∃ id key address,
     (id = 50 ∨ id = 56 ∨ id = 57 ∨ id = 58) ∧
     or_else (nonzero (settings_agentId char)) (nonzero (agentId config)) = Some id ∧
     env (privateKeyEnv id) = Some key ∧ key ≠ EmptyString ∧
     Wallet_address key = Returned address ∧
     toLowerCase address = toLowerCase (AgentClient.walletAddress (AgentClient.ident c)) ∧
     AgentClient.agentNumericId (AgentClient.ident c) = id ∧
     AgentClient.privateKey (AgentClient.ident c) = key ∧
     c = AgentClient.create now (AgentClient.ident c)) ∧
  integration s = PVPVAIIntegration.create.
Proof.
  unfold create. intros Hcreate Hclient.
  destruct (isGM char) as [[|]|m]; [| |done];
    (destruct (or_else (nonempty (eth_wallet_address char)) _) as [wallet|]; [|done]).
  { destruct (nonempty (env "GM_PRIVATE_KEY")); [|done].
    injection Hcreate as <-. done. }
  destruct (or_else (nonzero (settings_agentId char)) _) as [id|] eqn:Hid; [|done].
  destruct (or_else (nonempty (env (privateKeyEnv id))) _); [|done].
  destruct (getAgentConfig env ROOM_ID char (Some id)) as [cfg|m] eqn:Hcfg; [|done].
  destruct (new_AgentClient _ _ _ _ _ _ _) as [c'|m] eqn:Hnew; [|done].
  injection Hcreate as <-. simpl in Hclient. injection Hclient as ->.
  apply new_AgentClient_Returned in Hnew
    as (key & address & Hkey & Hne & Haddr & Hsame & ->).
  assert (id ≠ 0) as Hid0.
  { unfold or_else in Hid.
    destruct (nonzero (settings_agentId char)) eqn:H1.
    - injection Hid as ->. by apply nonzero_Some in H1 as [_ ?].
    - by apply nonzero_Some in Hid as [_ ?]. }
  apply getAgentConfig_Returned in Hcfg; [|done].
  split_and!; [done| |done].
  exists id, key, address. split_and!; try done.
  decompose [and or] Hcfg; auto.
Qed.

(** X26. The constructor accepts [config.privateKey] in place of the
    variable of the environment, but the client it goes on to build reads
    the environment alone: for a character whose role test gives [false]
    (its [agentRole] is not there, or has a [type] other than the game
    master's), with a known id and a wallet address, a key given in the
    configuration only makes the construction throw
    [Private key not found], from the constructor of the client. No key
    is read at all for a character whose [agentRole] has no [type]: the
    role test throws its [TypeError] first. *)
Theorem config_private_key_never_used
    (now : Z) (char : Character) (config : Config) (id : Z) (key : string) :
  isGM char = Returned false →
  or_else (nonempty (eth_wallet_address char))
          (nonempty (Some (walletAddress config))) ≠ None →
  or_else (nonzero (settings_agentId char)) (nonzero (agentId config)) = Some id →
  id = 50 ∨ id = 56 ∨ id = 57 ∨ id = 58 →
  nonempty (env (privateKeyEnv id)) = None →
  privateKey config = Some key → key ≠ EmptyString →
  create env ROOM_ID Wallet_address now char config =
    Thrown ("Private key not found for agent " +:+ pretty id) ∧
  (∀ char', agentRole char' = AgentRole.Untyped →
     create env ROOM_ID Wallet_address now char' config =
       Thrown AgentRole.TypeError).
Proof.
  intros Hgm Hwallet Hid Hknown Henv Hkey Hne.
  split; [|intros char' Hrole; unfold create, isGM; by rewrite Hrole].
  unfold create. rewrite Hgm.
  destruct (or_else (nonempty (eth_wallet_address char)) _) as [wallet|]; [|done].
  rewrite Hid, Henv, Hkey. simpl. rewrite decide_False by done.
  assert (∃ cfg, getAgentConfig env ROOM_ID char (Some id) = Returned cfg)
    as [cfg ->].
  { unfold getAgentConfig.
    decompose [or] Hknown; subst; simpl; by eexists. }
  unfold new_AgentClient. by rewrite Henv.
Qed.

(** X27. [initialize()] never asks for room 0: the room is
    [Number(process.env.ROOM_ID) || 290], and when the client's
    [setRoomAndRound] returns, the client holds that room and a round
    that are both set and not zero, so the guard of [sendAIMessage] lets
    the next message through. *)
Theorem initialize_sets_room_and_round
    (w : AgentClient.world) (s : t) (c : AgentClient.t) :
  client s = Agent c →
  default_roomId ROOM_ID ≠ 0 ∧
  ((initialize ROOM_ID W w s).2 = Some AgentClient.Done →
   ∃ c', client (initialize ROOM_ID W w s).1 = Agent c' ∧
         AgentClient.roomId c' = Some (default_roomId ROOM_ID) ∧
         AgentClient.unset (AgentClient.roomId c') = false ∧
         AgentClient.unset (AgentClient.roundId c') = false).
Proof.
  intros Hclient.
  assert (Hroom : default_roomId ROOM_ID ≠ 0).
  { unfold default_roomId. destruct (nonzero ROOM_ID) as [n|] eqn:Hn; simpl; [|done].
    by apply nonzero_Some in Hn as [_ ?]. }
  split; [done|]. unfold initialize. rewrite Hclient.
  unfold AgentClient.setRoomAndRound.
  destruct (AgentClient.getActiveRound (AgentClient.round w)) as [activeRound|m];
    [|done].
  destruct (activeRound =? 0) eqn:H0; [done|].
  destruct (SignMessage.sign_fresh _ _ _ _); [|done].
  simpl. intros _. eexists. split; [done|]. simpl.
  apply Z.eqb_neq in Hroom. by rewrite Hroom, H0.
Qed.

End participant.

Section generation.
Import Participant.
Variable W : string → string → outcome string.

Lemma messageId_clock_inj (t t' : Z) (m m' : string) :
  0 ≤ t → 0 ≤ t' → messageId t m = messageId t' m' → t = t' ∧ m = m'.
Proof.
  intros Ht Ht' Heq. unfold messageId in Heq.
  apply dash_split in Heq as [Hp ->]; [|by apply pretty_dashless..].
  split; [|done]. by apply (inj pretty).
Qed.

Lemma processMessage_gate g s message :
  ((processMessage g s message).1.2 = [] ∧
   PVPVAIIntegration.lastApiCall (processMessage g s message).1.1 =
     PVPVAIIntegration.lastApiCall s) ∨
  (∃ c, (processMessage g s message).1.2 = [c] ∧ about c = message ∧
        at_ c = PVPVAIIntegration.lastApiCall (processMessage g s message).1.1 ∧
        PVPVAIIntegration.lastApiCall s + PVPVAIIntegration.MIN_API_INTERVAL ≤ at_ c ∧
        entered g ≤ at_ c).
Proof.
  unfold processMessage. case_decide; [by left|]. case_decide; [by left|].
  right. eexists.
  destruct (answer g) as [response|m]; simpl.
  - split_and!;
      [done|done| |simpl; unfold PVPVAIIntegration.MIN_API_INTERVAL; lia|simpl; lia].
    by case_decide.
  - split_and!;
      [done|done|done|simpl; unfold PVPVAIIntegration.MIN_API_INTERVAL; lia|simpl; lia].
Qed.

Lemma occur_gate s o :
  ((occur s o).2 = [] ∧
   PVPVAIIntegration.lastApiCall (occur s o).1 = PVPVAIIntegration.lastApiCall s) ∨
  (∃ c, (occur s o).2 = [c] ∧
        at_ c = PVPVAIIntegration.lastApiCall (occur s o).1 ∧
        PVPVAIIntegration.lastApiCall s + PVPVAIIntegration.MIN_API_INTERVAL ≤ at_ c).
Proof.
  destruct o as [g message|key]; simpl; [|by left].
  destruct (processMessage_gate g s message) as [?|(c & ? & _ & ? & ? & _)];
    [by left|right; by exists c].
Qed.

(** X28. The generator is consulted at most once every 15 seconds.
    Whatever calls of [processMessage] an integration serves one after the
    other, and whenever the timers of its stored keys fire in between, the
    clock readings at which [generateText] is called lie at least
    [MIN_API_INTERVAL] apart, the first of them that far after the last
    call before. *)
Theorem generations_spaced (os : list occurrence) (s : PVPVAIIntegration.t) :
  spaced (PVPVAIIntegration.lastApiCall s) (map at_ (occurs s os).2).
Proof.
  revert s. induction os as [|o os IH]; intros s; simpl; [done|].
  pose proof (occur_gate s o) as Hgate.
  destruct (occur s o) as [s1 calls1]. specialize (IH s1).
  destruct (occurs s1 os) as [s2 calls2]. simpl in *.
  destruct Hgate as [[-> Hlast]|(c & -> & Hat & Hgap)]; simpl.
  - by rewrite <-Hlast.
  - split; [done|]. by rewrite Hat.
Qed.

Lemma processMessage_fresh_key g s message upto :
  0 ≤ upto → stamped_up_to upto s → upto < entered g →
  message ≠ EmptyString →
  map about (processMessage g s message).1.2 = [message] ∧
  stamped_up_to (entered g) (processMessage g s message).1.1.
Proof.
  intros Hupto Hs Hlater Hne. unfold processMessage.
  rewrite decide_False by done.
  rewrite decide_False.
  2: { intros Hin. destruct (Hs _ Hin) as (time & m & Heq & Htime).
       apply messageId_clock_inj in Heq as [? _]; lia. }
  assert (Hold : stamped_up_to (entered g) (waitForRateLimit (entered g) s)).
  { intros key Hin. destruct (Hs key Hin) as (time & m & -> & Htime).
    exists time, m. split; [done|lia]. }
  destruct (answer g) as [response|m]; simpl; [|done].
  split; [done|]. case_decide; [done|].
  intros key Hin. simpl in Hin.
  apply elem_of_union in Hin as [Hin|Hin]; [|by apply Hold].
  apply elem_of_singleton in Hin as ->.
  exists (entered g), message. split; [done|lia].
Qed.

Lemma occurs_fresh_keys os : ∀ s upto,
  0 ≤ upto → stamped_up_to upto s → later_each_time upto os →
  map about (occurs s os).2 = asked os.
Proof.
  induction os as [|[g message|key] os IH]; intros s upto Hupto Hs Hlater;
    simpl in *; [done| |].
  - destruct Hlater as [Hlt Hrest]. unfold asked. simpl. fold (asked os).
    destruct (decide (message = EmptyString)) as [->|Hne].
    + unfold processMessage. simpl.
      assert (Hs' : stamped_up_to (entered g) s).
      { intros key Hin. destruct (Hs key Hin) as (time & m & -> & Htime).
        exists time, m. split; [done|lia]. }
      specialize (IH s (entered g) ltac:(lia) Hs' Hrest).
      by destruct (occurs s os) as [s2 calls2].
    + destruct (processMessage_fresh_key g s message upto Hupto Hs Hlt Hne)
        as [Habout Hs'].
      destruct (processMessage g s message) as [[s1 calls1] response].
      simpl in *.
      specialize (IH s1 (entered g) ltac:(lia) Hs' Hrest).
      destruct (occurs s1 os) as [s2 calls2]. simpl in *.
      by rewrite map_app, Habout, IH.
  - assert (Hs' : stamped_up_to upto (expire s key)).
    { intros k Hin. simpl in Hin. apply elem_of_difference in Hin as [Hin _].
      by apply Hs. }
    specialize (IH (expire s key) upto Hupto Hs' Hlater).
    destruct (occurs (expire s key) os) as [s2 calls2]. simpl in *.
    unfold asked. simpl. by fold (asked os).
Qed.

(** X29. The duplicate check of [processMessage] only ever catches a call
    entered at the very clock reading of an earlier one: its key starts
    with [Date.now()]. Of calls entered at increasing clock readings every
    one with a non-empty message reaches the generator, a message that was
    answered before included; a second call with the same message at the
    same clock reading, after a non-empty answer, returns [null] without
    consulting the generator. *)
Theorem duplicate_check_needs_same_clock_reading
    (os : list occurrence) (s : PVPVAIIntegration.t) (upto : Z) :
  0 ≤ upto → stamped_up_to upto s → later_each_time upto os →
  map about (occurs s os).2 = asked os ∧
  (∀ g g' message response,
     message ≠ EmptyString → entered g' = entered g →
     answer g = Returned response → response ≠ EmptyString →
     processMessage g' (processMessage g s message).1.1 message =
       ((processMessage g s message).1.1, [], None)).
Proof.
  intros Hupto Hs Hlater. split; [by apply (occurs_fresh_keys os s upto)|].
  intros g g' message response Hne Hsame Hanswer Hresp.
  unfold processMessage at 2 3. rewrite decide_False by done.
  case_decide as Hseen; simpl.
  - unfold processMessage. rewrite decide_False by done.
    by rewrite Hsame, decide_True by done.
  - rewrite Hanswer. simpl. rewrite decide_False by done.
    unfold processMessage. rewrite decide_False by done.
    rewrite Hsame, decide_True; [done|]. simpl.
    apply elem_of_union. left. by apply elem_of_singleton.
Qed.

(** X30. A debater's turn consults the generator twice and posts the
    second answer. The operation of the turn asks [processMessage] for a
    continuation and hands the answer to [sendAIMessage], which sends it
    through [processMessage] again: what reaches the backend is the
    generator's answer to the first answer, at least [MIN_API_INTERVAL]
    after the first generation. *)
Theorem agent_turn_generates_twice
    (g1 g2 : generation) (w : AgentClient.world) (s : t) (c : AgentClient.t)
    (r1 r2 : string) :
  client s = Agent c →
  answer g1 = Returned r1 → r1 ≠ EmptyString →
  answer g2 = Returned r2 → r2 ≠ EmptyString →
  0 ≤ entered g1 < entered g2 →
  messageId (entered g1)
    "Continue the debate based on the previous messages."
    ∉ PVPVAIIntegration.processedMessageIds (integration s) →
  messageId (entered g2) r1
    ∉ PVPVAIIntegration.processedMessageIds (integration s) →
  ∃ time1 time2,
    (agent_turn_operation W g1 g2 w s).1.2 =
      [ {| at_ := time1;
           about := "Continue the debate based on the previous messages." |};
        {| at_ := time2; about := r1 |} ] ∧
    time1 + PVPVAIIntegration.MIN_API_INTERVAL ≤ time2 ∧
    (agent_turn_operation W g1 g2 w s).2 =
      ToBackend (AgentClient.sendAIMessage W w c r2).2 ∧
    client (agent_turn_operation W g1 g2 w s).1.1 =
      Agent (AgentClient.sendAIMessage W w c r2).1.
Proof.
  intros Hclient Ha1 Hr1 Ha2 Hr2 Hclock Hnew1 Hnew2.
  set (request := "Continue the debate based on the previous messages.") in *.
  set (i1 := with_processedMessageIds (waitForRateLimit (entered g1) (integration s))
               ({[ messageId (entered g1) request ]} ∪
                PVPVAIIntegration.processedMessageIds (integration s))).
  assert (H1 : processMessage g1 (integration s) request =
               (i1, [ {| at_ := PVPVAIIntegration.lastApiCall i1; about := request |} ],
                Some r1)).
  { unfold processMessage. rewrite decide_False by done.
    rewrite decide_False by done. rewrite Ha1. by rewrite decide_False by done. }
  set (i2 := with_processedMessageIds (waitForRateLimit (entered g2) i1)
               ({[ messageId (entered g2) r1 ]} ∪
                PVPVAIIntegration.processedMessageIds i1)).
  assert (H2 : processMessage g2 i1 r1 =
               (i2, [ {| at_ := PVPVAIIntegration.lastApiCall i2; about := r1 |} ],
                Some r2)).
  { unfold processMessage. rewrite decide_False by done.
    rewrite decide_False.
    2: { intros Hin. simpl in Hin.
         apply elem_of_union in Hin as [Hin|Hin]; [|done].
         apply elem_of_singleton in Hin.
         apply messageId_clock_inj in Hin as [? _]; lia. }
    rewrite Ha2. by rewrite decide_False by done. }
  unfold agent_turn_operation. fold request. rewrite H1.
  rewrite decide_False by done.
  unfold sendAIMessage. cbn [integration client]. rewrite H2.
  rewrite decide_False by done. rewrite Hclient.
  destruct (AgentClient.sendAIMessage W w c r2) as [c' r] eqn:Hsend. simpl.
  eexists _, _. split_and!; [done| |done|done].
  unfold PVPVAIIntegration.MIN_API_INTERVAL. lia.
Qed.

End generation.

Lemma agent_integration_requirements_witness :
  Participant.isGM Samples.debater = Returned false ∧
  Participant.integration Samples.alice_integration = PVPVAIIntegration.create.
Proof.
  destruct (agent_integration_requirements Samples.alice_env None Samples.address_of
              0 Samples.debater Samples.plain_config Samples.alice_integration
              (AgentClient.create 0 Samples.alice) eq_refl eq_refl)
    as (Hrole & _ & Hfresh).
  split; assumption.
Defined.

Lemma config_private_key_never_used_witness :
  Participant.create Samples.empty_env None Samples.address_of 0 Samples.debater
    Samples.keyed_config =
  Thrown ("Private key not found for agent " +:+ pretty 50) ∧
  Participant.create Samples.empty_env None Samples.address_of 0 Samples.roleless
    Samples.keyed_config =
  Thrown AgentRole.TypeError.
Proof.
  destruct (config_private_key_never_used Samples.empty_env None Samples.address_of 0
              Samples.debater Samples.keyed_config 50 "key-50"
              eq_refl ltac:(discriminate) eq_refl (or_introl eq_refl) eq_refl eq_refl
              ltac:(discriminate)) as [Hkey Hrole].
  split; [exact Hkey|exact (Hrole Samples.roleless eq_refl)].
Defined.

Lemma initialize_sets_room_and_round_witness :
  Participant.default_roomId None ≠ 0.
Proof.
  apply (initialize_sets_room_and_round None Samples.echo_wallet Samples.friendly
           Samples.alice_integration (AgentClient.create 0 Samples.alice)).
  reflexivity.
Defined.

Lemma duplicate_check_needs_same_clock_reading_witness :
  map Participant.about
    (Participant.occurs PVPVAIIntegration.create
       [Participant.Call Samples.first_generation "hello";
        Participant.Call Samples.second_generation "hello"]).2 =
  ["hello"; "hello"].
Proof.
  apply (duplicate_check_needs_same_clock_reading
           [Participant.Call Samples.first_generation "hello";
            Participant.Call Samples.second_generation "hello"]
           PVPVAIIntegration.create 0).
  - lia.
  - intros key Hin. by apply elem_of_empty in Hin.
  - simpl. lia.
Defined.

Lemma agent_turn_generates_twice_witness :
  (Participant.agent_turn_operation Samples.echo_wallet Samples.first_generation
     Samples.second_generation Samples.friendly Samples.alice_joined).2 =
  Participant.ToBackend
    (AgentClient.sendAIMessage Samples.echo_wallet Samples.friendly Samples.joined
       "Indeed.").2.
Proof.
  destruct (agent_turn_generates_twice Samples.echo_wallet Samples.first_generation
              Samples.second_generation Samples.friendly Samples.alice_joined
              Samples.joined "Bitcoin is sound." "Indeed."
              eq_refl eq_refl ltac:(discriminate) eq_refl ltac:(discriminate)
              ltac:(simpl; lia)
              ltac:(apply not_elem_of_empty) ltac:(apply not_elem_of_empty))
    as (time1 & time2 & _ & _ & Hdelivery & _).
  exact Hdelivery.
Defined.
